(** * GridPathfinder: shortest paths on a character grid

    A shallow embedding of [Djikstra_grid_path_finder.py] and the
    verification of its search procedure.

    The first part, [Pure], has the methods as functions of the
    instance, which they only read. Python values are modelled as
    follows.
    - integers are [Z];
    - a position is a pair of integers, and the attributes [start] and
      [goal] may also hold Python's [None]: they have type
      [option (Z * Z)];
    - the grid is a list of rows, a row a list of characters;
    - the dictionary [distances] is a [gmap], the set [explored] a [gset];
    - an exception is a value of [exn], carried by the [outcome] monad;
    - the [while] loop runs on fuel, and [OutOfFuel] is shown unreachable
      for the fuel that [find_shortest_path] supplies.

    The second part, [Heap], keeps the instance, the grid, the path and
    the explored set as objects in a store, for [visualize_path], which
    assigns to list elements, and shows that the functions of the first
    part describe the stored instance. It also has what [visualize_path]
    prints and the example usage at the end of the file, with the
    printed lines collected in [stdout]. *)

From Stdlib Require Import ZArith List Ascii String Permutation.
From Stdlib Require Import DecimalString.
From stdpp Require Import gmap list sets.

Open Scope Z_scope.

(** * The program as functions

    The methods as functions of the instance, which they only read. *)

Module Pure.

(** ** Exceptions and outcomes *)

Inductive exn : Set :=
| IndexError
| TypeError.

Inductive outcome (A : Type) : Type :=
| Return (a : A)
| Raise (e : exn)
| OutOfFuel.

Arguments Return {A} a.
Arguments Raise {A} e.
Arguments OutOfFuel {A}.

#[global] Instance outcome_ret : MRet outcome := fun A a => Return a.

#[global] Instance outcome_bind : MBind outcome := fun A B f m =>
  match m with
  | Return a => f a
  | Raise e => Raise e
  | OutOfFuel => OutOfFuel
  end.

(** ** Python sequences *)

(** [l[i]] on a Python list: a negative index counts from the end, an
    index outside [-len, len) raises [IndexError]. *)
Definition getitem {A : Type} (l : list A) (i : Z) : outcome A :=
  let n := Z.of_nat (length l) in
  let k := if i <? 0 then i + n else i in
  if (0 <=? k) && (k <? n)
  then match l !! Z.to_nat k with
       | Some a => Return a
       | None => Raise IndexError
       end
  else Raise IndexError.

(** ** The data model *)

(** A position is a tuple [(row, col)]. *)
Abbreviation pos := (Z * Z)%type (only parsing).

(** A Python value that is either a position tuple or [None]. *)
Abbreviation position := (option pos) (only parsing).

Record GridPathfinder : Type := mkGridPathfinder {
  grid : list (list ascii);
  rows : Z;
  cols : Z;
  start : position;
  goal : position
}.

Definition set_start (self : GridPathfinder) (p : position) : GridPathfinder :=
  {| grid := grid self; rows := rows self; cols := cols self;
     start := p; goal := goal self |}.

Definition set_goal (self : GridPathfinder) (p : position) : GridPathfinder :=
  {| grid := grid self; rows := rows self; cols := cols self;
     start := start self; goal := p |}.

(** [self.grid[i][j]] *)
Definition cell (self : GridPathfinder) (i j : Z) : outcome ascii :=
  row ← getitem (grid self) i; getitem row j.

(** ** [find_position] *)

(** The inner loop [for j in range(self.cols)], from column [j] on, with
    [n] columns left. [Return None] means the row holds no match. *)
Fixpoint find_in_row (self : GridPathfinder) (char : ascii) (i j : Z) (n : nat)
  : outcome position :=
  match n with
  | O => Return None
  | S n' =>
      c ← cell self i j;
      if decide (c = char) then Return (Some (i, j))
      else find_in_row self char i (j + 1) n'
  end.

(** The outer loop [for i in range(self.rows)], from row [i] on. *)
Fixpoint find_in_rows (self : GridPathfinder) (char : ascii) (i : Z) (n : nat)
  : outcome position :=
  match n with
  | O => Return None
  | S n' =>
      r ← find_in_row self char i 0 (Z.to_nat (cols self));
      match r with
      | Some p => Return (Some p)
      | None => find_in_rows self char (i + 1) n'
      end
  end.

Definition find_position (self : GridPathfinder) (char : ascii) : outcome position :=
  find_in_rows self char 0 (Z.to_nat (rows self)).

(** ** [__init__] *)

Definition __init__ (grid_in : list string) : outcome GridPathfinder :=
  let g := map list_ascii_of_string grid_in in
  row0 ← getitem g 0;
  let self := {| grid := g; rows := Z.of_nat (length g);
                 cols := Z.of_nat (length row0);
                 start := None; goal := None |} in
  s ← find_position self "S"%char;
  let self := set_start self s in
  g ← find_position self "G"%char;
  Return (set_goal self g).

(** ** [get_neighbors] *)

Definition directions : list (Z * Z) := [(-1, 0); (1, 0); (0, -1); (0, 1)].

(** The loop over the four directions; [neighbors] is the list built so
    far. The cell is read only when both bound checks pass, as Python's
    [and] evaluates left to right and stops at the first false operand. *)
Fixpoint neighbors_loop (self : GridPathfinder) (row col : Z)
    (dirs : list (Z * Z)) (neighbors : list pos) : outcome (list pos) :=
  match dirs with
  | [] => Return neighbors
  | (dr, dc) :: dirs' =>
      let new_row := row + dr in
      let new_col := col + dc in
      if (0 <=? new_row) && (new_row <? rows self)
         && (0 <=? new_col) && (new_col <? cols self)
      then
        c ← cell self new_row new_col;
        if decide (c ≠ "1"%char)
        then neighbors_loop self row col dirs' (neighbors ++ [(new_row, new_col)])
        else neighbors_loop self row col dirs' neighbors
      else neighbors_loop self row col dirs' neighbors
  end.

(** [row, col = pos] raises [TypeError] when [pos] is [None]. *)
Definition get_neighbors (self : GridPathfinder) (p : position) : outcome (list pos) :=
  match p with
  | None => Raise TypeError
  | Some (row, col) => neighbors_loop self row col directions []
  end.

(** ** The order of frontier items

    The frontier holds tuples [(distance, position, path)] and [heapq]
    compares them with Python's [<] on tuples: lexicographically, an
    integer by value, a position as a tuple of integers, a path as a
    list, where a proper prefix is smaller. *)

Definition lex (c1 c2 : comparison) : comparison :=
  match c1 with
  | Eq => c2
  | _ => c1
  end.

Definition pos_compare (p q : pos) : comparison :=
  lex (fst p ?= fst q) (snd p ?= snd q).

(** Python refuses to order [None] against a tuple. The frontier never
    holds an item with a [None] position next to another item (see
    [relax_pushes_cells] and [search_step_None]), so the clause for
    [None] is never consulted; it is there to make the order total. *)
Definition position_compare (p q : position) : comparison :=
  match p, q with
  | None, None => Eq
  | None, Some _ => Lt
  | Some _, None => Gt
  | Some a, Some b => pos_compare a b
  end.

Definition path_compare : list position → list position → comparison :=
  list_compare position_compare.

Definition entry : Type := Z * position * list position.

Definition entry_compare (a b : entry) : comparison :=
  let '(d1, p1, l1) := a in
  let '(d2, p2, l2) := b in
  lex (d1 ?= d2) (lex (position_compare p1 p2) (path_compare l1 l2)).

(** Python's [a < b] on frontier items. *)
Definition entry_lt (a b : entry) : bool :=
  match entry_compare a b with
  | Lt => true
  | _ => false
  end.

(** ** The priority queue

    [heapq] keeps the items in a list arranged as a binary heap. What
    the search observes of it is that [heappop] removes and returns the
    least item. The frontier is modelled as the list of its items;
    [heappush] adds one and [heappop] takes the least one out. That the
    arrangement of the list is not observable is [search_loop_layout]. *)

Definition heappush (pq : list entry) (item : entry) : list entry :=
  item :: pq.

Fixpoint heappop (pq : list entry) : option (entry * list entry) :=
  match pq with
  | [] => None
  | x :: rest =>
      match heappop rest with
      | None => Some (x, [])
      | Some (m, rest') =>
          if entry_lt x m then Some (x, rest) else Some (m, x :: rest')
      end
  end.

(** ** [find_shortest_path] *)

(** What [find_shortest_path] returns: the path, or [None], and the set
    of explored cells. *)
Definition result : Type := option (list position) * gset position.

(** [new_dist < distances.get(next_pos, float('inf'))] *)
Definition shorter (new_dist : Z) (known : option Z) : bool :=
  match known with
  | None => true
  | Some d => new_dist <? d
  end.

(** The loop [for next_pos in self.get_neighbors(current_pos)]. *)
Fixpoint relax (current_dist : Z) (current_path : list position)
    (neighbors : list pos) (pq : list entry) (distances : gmap position Z)
  : list entry * gmap position Z :=
  match neighbors with
  | [] => (pq, distances)
  | next_pos :: neighbors' =>
      let new_dist := current_dist + 1 in
      if shorter new_dist (distances !! Some next_pos)
      then
        let distances := <[Some next_pos := new_dist]> distances in
        let new_path := current_path ++ [Some next_pos] in
        relax current_dist current_path neighbors'
          (heappush pq (new_dist, Some next_pos, new_path)) distances
      else relax current_dist current_path neighbors' pq distances
  end.

(** One iteration of [while pq:] either leaves the function or goes on
    with a new frontier, distance map and explored set. *)
Inductive step_result : Type :=
| Done (r : outcome result)
| Next (pq : list entry) (distances : gmap position Z) (explored : gset position).

Definition search_step (self : GridPathfinder) (pq : list entry)
    (distances : gmap position Z) (explored : gset position) : step_result :=
  match heappop pq with
  | None => Done (Return (None, explored))
  | Some ((current_dist, current_pos, current_path), pq) =>
      if decide (current_pos ∈ explored) then Next pq distances explored
      else
        let explored := explored ∪ {[current_pos]} in
        if decide (current_pos = goal self)
        then Done (Return (Some current_path, explored))
        else
          match get_neighbors self current_pos with
          | Return neighbors =>
              let '(pq, distances) :=
                relax current_dist current_path neighbors pq distances in
              Next pq distances explored
          | Raise e => Done (Raise e)
          | OutOfFuel => Done OutOfFuel
          end
  end.

Fixpoint search_loop (self : GridPathfinder) (fuel : nat) (pq : list entry)
    (distances : gmap position Z) (explored : gset position) : outcome result :=
  match fuel with
  | O => OutOfFuel
  | S fuel' =>
      match search_step self pq distances explored with
      | Done r => r
      | Next pq distances explored => search_loop self fuel' pq distances explored
      end
  end.

Definition find_shortest_path_fuel (fuel : nat) (self : GridPathfinder)
  : outcome result :=
  search_loop self fuel [(0, start self, [start self])] {[start self := 0]} ∅.

(** Iterations that always suffice: an item is pushed only while a
    position is explored, a position is explored once, and it has at
    most four neighbours (see [search_loop_enough_fuel]). *)
Definition search_fuel (self : GridPathfinder) : nat :=
  (5 * (Z.to_nat (rows self) * Z.to_nat (cols self)) + 7)%nat.

Definition find_shortest_path (self : GridPathfinder) : outcome result :=
  find_shortest_path_fuel (search_fuel self) self.

(** * Properties *)

(** ** The order of frontier items is total *)

Class PyOrder {A : Type} (cmp : A → A → comparison) : Prop := {
  cmp_eq x y : cmp x y = Eq ↔ x = y;
  cmp_opp x y : cmp y x = CompOpp (cmp x y);
  cmp_trans x y z c : cmp x y = c → cmp y z = c → cmp x z = c
}.

#[global] Instance Z_order : PyOrder Z.compare.
Proof.
  split.
  - apply Z.compare_eq_iff.
  - intros x y. apply Z.compare_antisym.
  - intros x y z c Hxy Hyz.
    destruct c.
    + rewrite Z.compare_eq_iff in *. lia.
    + rewrite Z.compare_lt_iff in *. lia.
    + rewrite Z.compare_gt_iff in *. lia.
Qed.

Section LexOrder.
Context {A B : Type} (cmpA : A → A → comparison) (cmpB : B → B → comparison).
Context `{!PyOrder cmpA, !PyOrder cmpB}.

Definition lex_pair (a b : A * B) : comparison :=
  lex (cmpA a.1 b.1) (cmpB a.2 b.2).

#[global] Instance lex_pair_order : PyOrder lex_pair.
Proof.
  split.
  - intros [a1 b1] [a2 b2]. unfold lex_pair, lex; simpl.
    destruct (cmpA a1 a2) eqn:Ha.
    + apply cmp_eq in Ha as ->. rewrite cmp_eq. naive_solver.
    + split; [done|]. intros [= -> ->].
      assert (cmpA a2 a2 = Eq) by (by apply cmp_eq). congruence.
    + split; [done|]. intros [= -> ->].
      assert (cmpA a2 a2 = Eq) by (by apply cmp_eq). congruence.
  - intros [a1 b1] [a2 b2]. unfold lex_pair, lex; simpl.
    rewrite (cmp_opp a1 a2). destruct (cmpA a1 a2); simpl; auto using cmp_opp.
  - intros [a1 b1] [a2 b2] [a3 b3] c. unfold lex_pair, lex; simpl.
    destruct (cmpA a1 a2) eqn:H12, (cmpA a2 a3) eqn:H23;
      try (apply cmp_eq in H12 as ->); try (apply cmp_eq in H23 as ->);
      rewrite ?H12, ?H23;
      try (intros <-; congruence).
    + assert (cmpA a3 a3 = Eq) as -> by (by apply cmp_eq). apply cmp_trans.
    + rewrite (cmp_trans _ _ _ _ H12 H23). congruence.
    + rewrite (cmp_trans _ _ _ _ H12 H23). congruence.
Qed.
End LexOrder.

#[global] Instance pos_order : PyOrder pos_compare.
Proof. exact (lex_pair_order Z.compare Z.compare). Qed.

#[global] Instance position_order : PyOrder position_compare.
Proof.
  split.
  - intros [a|] [b|]; simpl; try done.
    rewrite cmp_eq. naive_solver.
  - intros [a|] [b|]; simpl; try done. apply cmp_opp.
  - intros [a|] [b|] [c|] k; simpl; try congruence. apply cmp_trans.
Qed.

#[global] Instance path_order : PyOrder path_compare.
Proof.
  split.
  - apply list_compare_refl, cmp_eq.
  - intros x y. apply list_compare_antisym; [apply cmp_eq | apply cmp_opp].
  - intros x y z c. apply list_compare_trans; [apply cmp_eq | apply cmp_trans | apply cmp_opp].
Qed.

Lemma entry_compare_lex (a b : entry) :
  entry_compare a b
  = lex_pair (lex_pair Z.compare position_compare) path_compare a b.
Proof.
  destruct a as [[d1 p1] l1], b as [[d2 p2] l2].
  unfold entry_compare, lex_pair, lex; simpl.
  by destruct (d1 ?= d2).
Qed.

#[global] Instance entry_order : PyOrder entry_compare.
Proof.
  pose proof (lex_pair_order (lex_pair Z.compare position_compare) path_compare)
    as [H1 H2 H3].
  split; intros *; rewrite !entry_compare_lex; [apply H1 | apply H2 | apply H3].
Qed.

Section OrderFacts.
Context {A : Type} (cmp : A → A → comparison) `{!PyOrder cmp}.

Lemma cmp_refl x : cmp x x = Eq.
Proof. by apply cmp_eq. Qed.

Lemma cmp_le_trans x y z : cmp x y ≠ Gt → cmp y z ≠ Gt → cmp x z ≠ Gt.
Proof.
  intros Hxy Hyz.
  destruct (cmp x y) eqn:E1; [apply cmp_eq in E1 as ->; done| |done].
  destruct (cmp y z) eqn:E2; [apply cmp_eq in E2 as <-; congruence| |done].
  rewrite (cmp_trans x y z Lt E1 E2). done.
Qed.

Lemma cmp_le_antisym x y : cmp x y ≠ Gt → cmp y x ≠ Gt → x = y.
Proof.
  intros Hxy Hyx. rewrite (cmp_opp (cmp:=cmp) x y) in Hyx.
  destruct (cmp x y) eqn:E; [by apply cmp_eq| |done]. done.
Qed.

Lemma cmp_not_lt_ge x y : cmp x y ≠ Lt → cmp y x ≠ Gt.
Proof. rewrite (cmp_opp (cmp:=cmp) x y). by destruct (cmp x y). Qed.
End OrderFacts.

(** [a <= b] on frontier items. *)
Definition entry_le (a b : entry) : Prop := entry_compare a b ≠ Gt.

Lemma entry_le_refl a : entry_le a a.
Proof. unfold entry_le. by rewrite (cmp_refl entry_compare). Qed.

Lemma entry_le_trans a b c : entry_le a b → entry_le b c → entry_le a c.
Proof. apply (cmp_le_trans entry_compare). Qed.

Lemma entry_le_antisym a b : entry_le a b → entry_le b a → a = b.
Proof. apply (cmp_le_antisym entry_compare). Qed.

Lemma entry_lt_true a b : entry_lt a b = true → entry_le a b.
Proof. unfold entry_lt, entry_le. by destruct (entry_compare a b). Qed.

Lemma entry_lt_false a b : entry_lt a b = false → entry_le b a.
Proof.
  unfold entry_lt, entry_le. intros H.
  apply (cmp_not_lt_ge entry_compare). by destruct (entry_compare a b).
Qed.

(** The least item has the least distance. *)
Lemma entry_le_dist (a b : entry) : entry_le a b → a.1.1 ≤ b.1.1.
Proof.
  destruct a as [[d1 p1] l1], b as [[d2 p2] l2]. unfold entry_le; cbn.
  unfold lex. destruct (d1 ?= d2) eqn:E; intros H; [| |done]; clear H.
  - apply Z.compare_eq_iff in E. lia.
  - rewrite Z.compare_lt_iff in E. lia.
Qed.

(** ** The priority queue *)

Lemma heappop_None pq : heappop pq = None ↔ pq = [].
Proof.
  destruct pq as [|x rest]; simpl; [done|].
  split; [|done].
  destruct (heappop rest) as [[m rest']|]; [|done].
  by destruct (entry_lt x m).
Qed.

(** [heappop] takes one item out, and that item is least. *)
Lemma heappop_Some pq m rest :
  heappop pq = Some (m, rest) →
  pq ≡ₚ m :: rest ∧ Forall (entry_le m) pq.
Proof.
  revert m rest. induction pq as [|x pq IH]; intros m rest; simpl; [done|].
  destruct (heappop pq) as [[m' rest']|] eqn:Hpop.
  - destruct (IH _ _ eq_refl) as [Hperm Hmin].
    destruct (entry_lt x m') eqn:Hlt; intros [= <- <-].
    + split; [done|]. constructor; [apply entry_le_refl|].
      eapply Forall_impl; [exact Hmin|]. intros y Hy.
      eapply entry_le_trans; [|exact Hy]. by apply entry_lt_true.
    + split.
      * rewrite Hperm. apply perm_swap.
      * constructor; [by apply entry_lt_false | done].
  - apply heappop_None in Hpop as ->. intros [= <- <-].
    split; [done|]. constructor; [apply entry_le_refl | constructor].
Qed.

Lemma heappop_elem_of pq m rest x :
  heappop pq = Some (m, rest) → x ∈ pq ↔ x = m ∨ x ∈ rest.
Proof.
  intros [Hperm _]%heappop_Some. rewrite Hperm. apply elem_of_cons.
Qed.

Lemma heappop_min pq m rest x :
  heappop pq = Some (m, rest) → x ∈ pq → m.1.1 ≤ x.1.1.
Proof.
  intros [_ Hmin]%heappop_Some Hx. apply entry_le_dist.
  by eapply Forall_forall in Hmin.
Qed.

Lemma heappop_length pq m rest :
  heappop pq = Some (m, rest) → length pq = S (length rest).
Proof. intros [Hperm _]%heappop_Some. by rewrite Hperm. Qed.

(** The least item of a frontier does not depend on how the frontier is
    arranged. *)
Lemma heappop_Permutation pq pq' m rest :
  pq ≡ₚ pq' → heappop pq = Some (m, rest) →
  ∃ rest', heappop pq' = Some (m, rest') ∧ rest ≡ₚ rest'.
Proof.
  intros Hperm Hpop.
  destruct (heappop pq') as [[m' rest']|] eqn:Hpop'.
  - destruct (heappop_Some _ _ _ Hpop) as [Hp Hmin].
    destruct (heappop_Some _ _ _ Hpop') as [Hp' Hmin'].
    assert (m = m') as <-.
    { apply entry_le_antisym.
      - eapply Forall_forall in Hmin; [exact Hmin|].
        rewrite Hperm, Hp'. apply elem_of_cons. by left.
      - eapply Forall_forall in Hmin'; [exact Hmin'|].
        rewrite <- Hperm, Hp. apply elem_of_cons. by left. }
    exists rest'. split; [done|].
    apply (Permutation_cons_inv (a := m)). by rewrite <- Hp, <- Hp'.
  - apply heappop_None in Hpop' as ->.
    apply Permutation_nil_r in Hperm as ->. done.
Qed.


(** ** Cells and neighbours *)

(** One step north, south, west or east: the positions differ by one in
    exactly one coordinate. *)
Definition orth_adjacent (p q : pos) : Prop :=
  (Z.abs (p.1 - q.1) = 1 ∧ p.2 = q.2) ∨ (p.1 = q.1 ∧ Z.abs (p.2 - q.2) = 1).

Definition in_bounds (self : GridPathfinder) (q : pos) : bool :=
  (0 <=? q.1) && (q.1 <? rows self) && (0 <=? q.2) && (q.2 <? cols self).

(** The marker of a cell that can be read. *)
Definition marker (self : GridPathfinder) (q : pos) : option ascii :=
  match cell self q.1 q.2 with
  | Return c => Some c
  | _ => None
  end.

(** The test of [get_neighbors]: in bounds and not blocked. *)
Definition open_cell (self : GridPathfinder) (q : pos) : bool :=
  in_bounds self q &&
  match marker self q with
  | Some c => bool_decide (c ≠ "1"%char)
  | None => false
  end.

Definition candidates (p : pos) (dirs : list (Z * Z)) : list pos :=
  map (λ d, (p.1 + d.1, p.2 + d.2)) dirs.

(** The neighbours of a cell, in the order north, south, west, east. *)
Definition nbrs (self : GridPathfinder) (p : pos) : list pos :=
  filter (open_cell self) (candidates p directions).

(** All rows have [cols] cells and there are [rows] of them. *)
Definition rectangular (self : GridPathfinder) : Prop :=
  rows self = Z.of_nat (length (grid self)) ∧
  Forall (λ row, Z.of_nat (length row) = cols self) (grid self).

Lemma getitem_nonneg {A : Type} (l : list A) (i : Z) :
  0 ≤ i →
  getitem l i = match l !! Z.to_nat i with
                | Some a => Return a
                | None => Raise IndexError
                end.
Proof.
  intros Hi. unfold getitem.
  destruct (i <? 0) eqn:Hneg; [lia|].
  destruct (i <? Z.of_nat (length l)) eqn:Hlt.
  - replace (0 <=? i) with true by lia. done.
  - rewrite andb_false_r. rewrite (lookup_ge_None_2 l (Z.to_nat i)); [done|lia].
Qed.

Lemma cell_rectangular self (q : pos) :
  rectangular self → in_bounds self q = true →
  ∃ c, cell self q.1 q.2 = Return c.
Proof.
  intros [Hrows Hcols] Hb. unfold in_bounds in Hb.
  unfold cell. rewrite getitem_nonneg by lia.
  destruct (lookup_lt_is_Some_2 (grid self) (Z.to_nat q.1)) as [row Hrow]; [lia|].
  rewrite Hrow; simpl.
  rewrite getitem_nonneg by lia.
  assert (Z.of_nat (length row) = cols self) as Hlen.
  { eapply Forall_forall in Hcols; [exact Hcols|]. by eapply list_elem_of_lookup_2. }
  destruct (lookup_lt_is_Some_2 row (Z.to_nat q.2)) as [c Hc]; [lia|].
  rewrite Hc. by exists c.
Qed.

Lemma filter_open_cell_cons self (q : pos) (l : list pos) :
  filter (open_cell self) (q :: l)
  = if open_cell self q then q :: filter (open_cell self) l
    else filter (open_cell self) l.
Proof.
  destruct (open_cell self q) eqn:E.
  - rewrite filter_cons_True; [done | by rewrite E].
  - rewrite filter_cons_False; [done | rewrite E; simpl; auto].
Qed.

Lemma neighbors_loop_Return self row col dirs acc ns :
  neighbors_loop self row col dirs acc = Return ns →
  ns = acc ++ filter (open_cell self) (candidates (row, col) dirs).
Proof.
  revert acc. induction dirs as [|[dr dc] dirs IH]; intros acc; simpl.
  - intros [= <-]. by rewrite app_nil_r.
  - rewrite filter_open_cell_cons. unfold open_cell, in_bounds, marker; simpl.
    destruct (_ && _ && _ && _); simpl; [|apply IH].
    destruct (cell self (row + dr) (col + dc)) as [c| |]; simpl; [|done..].
    destruct (decide (c ≠ "1"%char)) as [Hc|Hc]; intros H%IH.
    + rewrite bool_decide_eq_true_2 by done. simpl.
      by rewrite H, <- app_assoc.
    + rewrite bool_decide_eq_false_2 by done. done.
Qed.

Lemma neighbors_loop_rectangular self row col dirs acc :
  rectangular self →
  neighbors_loop self row col dirs acc
  = Return (acc ++ filter (open_cell self) (candidates (row, col) dirs)).
Proof.
  intros Hrect. revert acc.
  induction dirs as [|[dr dc] dirs IH]; intros acc; simpl.
  - by rewrite app_nil_r.
  - rewrite filter_open_cell_cons. unfold open_cell, marker; simpl.
    pose proof (cell_rectangular self (row + dr, col + dc) Hrect) as Hcell.
    unfold in_bounds in *; simpl in *.
    destruct (_ && _ && _ && _); simpl; [|apply IH].
    destruct Hcell as [c ->]; [done|]. simpl.
    destruct (decide (c ≠ "1"%char)) as [Hc|Hc]; rewrite IH.
    + rewrite bool_decide_eq_true_2 by done. simpl. by rewrite <- app_assoc.
    + rewrite bool_decide_eq_false_2 by done. done.
Qed.

(** When [get_neighbors] returns, it returns [nbrs]. *)
Lemma get_neighbors_Return self (p : pos) ns :
  get_neighbors self (Some p) = Return ns → ns = nbrs self p.
Proof. destruct p as [row col]. apply neighbors_loop_Return. Qed.

(** On a rectangular grid [get_neighbors] raises nothing. *)
Lemma get_neighbors_rectangular self (p : pos) :
  rectangular self → get_neighbors self (Some p) = Return (nbrs self p).
Proof. destruct p as [row col]. apply neighbors_loop_rectangular. Qed.

Lemma nbrs_length self p : (length (nbrs self p) ≤ 4)%nat.
Proof. unfold nbrs. etrans; [apply length_filter|]. done. Qed.

Lemma elem_of_candidates (p q : pos) :
  q ∈ candidates p directions ↔ orth_adjacent p q.
Proof.
  destruct p as [r c], q as [r' c']. unfold candidates, directions, orth_adjacent.
  simpl. rewrite !elem_of_cons, elem_of_nil.
  split.
  - intros [H|[H|[H|[H|[]]]]]; simplify_eq; lia.
  - intros [[H1 H2]|[H1 H2]]; simpl in *; subst.
    + destruct (decide (r' = r - 1)) as [->|]; [left; f_equal; lia|].
      right; left. f_equal; lia.
    + destruct (decide (c' = c - 1)) as [->|]; [right; right; left; f_equal; lia|].
      right; right; right; left. f_equal; lia.
Qed.

(** A neighbour is one step away, in bounds, and its marker is not ['1']. *)
Lemma elem_of_nbrs self (p q : pos) :
  q ∈ nbrs self p ↔
  orth_adjacent p q ∧ in_bounds self q = true ∧
  ∃ c, marker self q = Some c ∧ c ≠ "1"%char.
Proof.
  unfold nbrs. rewrite list_elem_of_filter, elem_of_candidates.
  unfold open_cell. rewrite andb_True, !Is_true_true.
  destruct (marker self q) as [c|].
  - rewrite bool_decide_eq_true. split.
    + intros [[Hb Hc] Ha]. eauto.
    + intros (Ha & Hb & c' & [= <-] & Hc). done.
  - split; [by intros [[_ ?] _] | by intros (_ & _ & c & ? & _)].
Qed.

(** ** Relaxation *)

Lemma shorter_irrefl (new_dist : Z) : shorter new_dist (Some new_dist) = false.
Proof. simpl. lia. Qed.

(** What the loop over the neighbours leaves behind: a neighbour whose
    known distance was larger than [current_dist + 1], or unknown, gets
    that distance and one new frontier item; nothing else changes. *)
Lemma relax_spec current_dist current_path neighbors pq distances pq' distances' :
  relax current_dist current_path neighbors pq distances = (pq', distances') →
  (∀ q, q ∈ neighbors →
     shorter (current_dist + 1) (distances !! Some q) = true →
     distances' !! Some q = Some (current_dist + 1)) ∧
  (∀ k, (∀ q, k = Some q → q ∈ neighbors →
           shorter (current_dist + 1) (distances !! k) = false) →
     distances' !! k = distances !! k) ∧
  (∀ x, x ∈ pq' ↔
     x ∈ pq ∨
     ∃ q, q ∈ neighbors ∧
          shorter (current_dist + 1) (distances !! Some q) = true ∧
          x = (current_dist + 1, Some q, current_path ++ [Some q])) ∧
  (length pq' ≤ length pq + length neighbors)%nat.
Proof.
  revert pq distances.
  induction neighbors as [|n ns IH]; intros pq d; simpl.
  { intros [= <- <-]. split_and!; [by intros ? ?%elem_of_nil|done| |lia].
    intros x. split; [auto|]. by intros [?|(? & ?%elem_of_nil & _)]. }
  destruct (shorter (current_dist + 1) (d !! Some n)) eqn:Hs;
    intros H; destruct (IH _ _ H) as (D1 & D2 & Hpq & Hlen); clear IH H.
  - assert (∀ q, q ≠ n →
              <[Some n:=current_dist + 1]> d !! Some q = d !! Some q) as Hne.
    { intros q Hq. apply lookup_insert_ne. congruence. }
    split_and!.
    + intros q [->|Hq]%elem_of_cons Hsq.
      * rewrite D2; [apply lookup_insert_eq|].
        intros q [= <-] _. rewrite lookup_insert_eq. apply shorter_irrefl.
      * destruct (decide (q = n)) as [->|Hqn].
        -- rewrite D2; [apply lookup_insert_eq|].
           intros q [= <-] _. rewrite lookup_insert_eq. apply shorter_irrefl.
        -- apply D1; [done|]. by rewrite Hne.
    + intros k Hk.
      assert (k ≠ Some n) as Hkn.
      { intros ->. specialize (Hk n eq_refl). rewrite Hs in Hk.
        discriminate Hk. apply elem_of_cons. by left. }
      rewrite D2; [by apply lookup_insert_ne|].
      intros q -> Hq. rewrite lookup_insert_ne by done.
      apply (Hk q); [done|]. apply elem_of_cons. by right.
    + intros x. rewrite Hpq. unfold heappush. rewrite elem_of_cons. split.
      * intros [[->|Hx]|(q & Hq & Hsq & ->)]; [|by left|].
        -- right. exists n. split_and!; [apply elem_of_cons; by left|done..].
        -- right. exists q.
           assert (q ≠ n) as Hqn.
           { intros ->. rewrite lookup_insert_eq, shorter_irrefl in Hsq. done. }
           rewrite Hne in Hsq by done.
           split_and!; [apply elem_of_cons; by right|done..].
      * intros [Hx|(q & Hq & Hsq & ->)]; [by left; right|].
        destruct (decide (q = n)) as [->|Hqn]; [by left; left|].
        right. exists q. apply elem_of_cons in Hq as [?|Hq]; [done|].
        rewrite Hne by done. done.
    + unfold heappush in Hlen. simpl in Hlen. lia.
  - split_and!.
    + intros q [->|Hq]%elem_of_cons Hsq; [congruence|]. by apply D1.
    + intros k Hk. apply D2. intros q -> Hq. apply (Hk q); [done|].
      apply elem_of_cons. by right.
    + intros x. rewrite Hpq. split.
      * intros [Hx|(q & Hq & Hsq & ->)]; [by left|].
        right. exists q. split_and!; [apply elem_of_cons; by right|done..].
      * intros [Hx|(q & Hq & Hsq & ->)]; [by left|].
        right. exists q. apply elem_of_cons in Hq as [->|Hq]; [congruence|done].
    + lia.
Qed.

(** A push strictly lowers the pushed position's entry in the distance
    map, where an absent entry counts as infinite. *)
Lemma relax_push_decreases current_dist current_path neighbors pq distances
    pq' distances' x :
  relax current_dist current_path neighbors pq distances = (pq', distances') →
  x ∈ pq' → x ∉ pq →
  ∃ q, x = (current_dist + 1, Some q, current_path ++ [Some q]) ∧
       q ∈ neighbors ∧
       distances' !! Some q = Some (current_dist + 1) ∧
       (∀ old, distances !! Some q = Some old → current_dist + 1 < old).
Proof.
  intros H Hx Hnx. destruct (relax_spec _ _ _ _ _ _ _ H) as (D1 & _ & Hpq & _).
  apply Hpq in Hx as [?|(q & Hq & Hs & ->)]; [done|].
  exists q. split_and!; [done|done|by apply D1|].
  intros old Hold. rewrite Hold in Hs. simpl in Hs. lia.
Qed.

(** Every pushed item is a cell, never [None]. *)
Lemma relax_pushes_cells current_dist current_path neighbors pq distances
    pq' distances' x :
  relax current_dist current_path neighbors pq distances = (pq', distances') →
  x ∈ pq' → x ∉ pq → is_Some x.1.2.
Proof.
  intros Hrelax Hx Hnx.
  destruct (relax_push_decreases _ _ _ _ _ _ _ _ Hrelax Hx Hnx) as (q & -> & _).
  by eexists.
Qed.

(** The first iteration when [self.start] is [None]. *)
Lemma search_step_None self :
  start self = None →
  search_step self [(0, start self, [start self])] {[start self := 0]} ∅
  = if decide (goal self = None)
    then Done (Return (Some [None], {[None]}))
    else Done (Raise TypeError).
Proof.
  intros ->. unfold search_step; simpl.
  rewrite decide_False by set_solver.
  destruct (goal self) as [g|]; simpl.
  - done.
  - by rewrite (left_id_L ∅ (∪)).
Qed.

(** ** One iteration, case by case *)

Lemma getitem_fuel {A : Type} (l : list A) i : getitem l i ≠ OutOfFuel.
Proof.
  unfold getitem. destruct (_ && _); [|done]. by destruct (l !! _).
Qed.

Lemma neighbors_loop_fuel self row col dirs acc :
  neighbors_loop self row col dirs acc ≠ OutOfFuel.
Proof.
  revert acc. induction dirs as [|[dr dc] dirs IH]; intros acc; simpl; [done|].
  destruct (_ && _ && _ && _); [|apply IH].
  unfold cell.
  destruct (getitem (grid self) (row + dr)) as [r| |] eqn:Hr; simpl; [|done|].
  - destruct (getitem r (col + dc)) as [c| |] eqn:Hc; simpl; [|done|].
    + destruct (decide (c ≠ "1"%char)); apply IH.
    + by apply getitem_fuel in Hc.
  - by apply getitem_fuel in Hr.
Qed.

Lemma get_neighbors_fuel self p : get_neighbors self p ≠ OutOfFuel.
Proof. destruct p as [[row col]|]; [apply neighbors_loop_fuel | done]. Qed.

(** The ways an iteration leaves the function: the frontier is empty,
    the goal is popped, or [get_neighbors] raises. *)
Lemma search_step_Done self pq distances explored r :
  search_step self pq distances explored = Done r →
  (pq = [] ∧ r = Return (None, explored)) ∨
  (∃ current_dist current_pos current_path rest,
     heappop pq = Some ((current_dist, current_pos, current_path), rest) ∧
     (current_pos ∉ explored) ∧
     ((current_pos = goal self ∧
       r = Return (Some current_path, explored ∪ {[current_pos]})) ∨
      (current_pos ≠ goal self ∧
       ∃ e, get_neighbors self current_pos = Raise e ∧ r = Raise e))).
Proof.
  unfold search_step.
  destruct (heappop pq) as [[[[cd cur] path] rest]|] eqn:Hpop.
  - destruct (decide (cur ∈ explored)); [done|].
    intros H. right. exists cd, cur, path, rest. split_and!; [done..|].
    destruct (decide (cur = goal self)); [left; by injection H as <- |right].
    split; [done|].
    destruct (get_neighbors self cur) as [ns|e|] eqn:Hns.
    + by destruct (relax cd path ns rest distances).
    + injection H as <-. by exists e.
    + by apply get_neighbors_fuel in Hns.
  - apply heappop_None in Hpop. intros [= <-]. by left.
Qed.

(** The ways an iteration goes on: a stale item is dropped, or a cell
    is explored and its neighbours are relaxed. *)
Lemma search_step_Next self pq distances explored pq' distances' explored' :
  search_step self pq distances explored = Next pq' distances' explored' →
  ∃ current_dist current_pos current_path rest,
    heappop pq = Some ((current_dist, current_pos, current_path), rest) ∧
    ((current_pos ∈ explored ∧
      pq' = rest ∧ distances' = distances ∧ explored' = explored) ∨
     ((current_pos ∉ explored) ∧ current_pos ≠ goal self ∧
      explored' = explored ∪ {[current_pos]} ∧
      ∃ p, current_pos = Some p ∧
           get_neighbors self current_pos = Return (nbrs self p) ∧
           relax current_dist current_path (nbrs self p) rest distances
           = (pq', distances'))).
Proof.
  unfold search_step.
  destruct (heappop pq) as [[[[cd cur] path] rest]|] eqn:Hpop; [|done].
  intros H. exists cd, cur, path, rest. split; [done|].
  destruct (decide (cur ∈ explored)); [left; by injection H as <- <- <-|right].
  destruct (decide (cur = goal self)); [done|].
  destruct (get_neighbors self cur) as [ns|e|] eqn:Hns; [|done..].
  destruct cur as [p|]; [|done].
  apply get_neighbors_Return in Hns as ->.
  destruct (relax cd path (nbrs self p) rest distances) as [pq1 d1] eqn:Hrelax.
  injection H as <- <- <-. split_and!; [done..|]. by exists p.
Qed.

(** ** Reasoning about the loop *)

(** A property [Inv] kept by every iteration that goes on, and a
    property [Q] of every way of leaving, give [Q] of the result. *)
Lemma search_loop_rule (self : GridPathfinder)
    (Inv : list entry → gmap position Z → gset position → Prop)
    (Q : outcome result → Prop) :
  (∀ pq d e r, Inv pq d e → search_step self pq d e = Done r → Q r) →
  (∀ pq d e pq' d' e',
     Inv pq d e → search_step self pq d e = Next pq' d' e' → Inv pq' d' e') →
  ∀ fuel pq d e,
    Inv pq d e →
    search_loop self fuel pq d e ≠ OutOfFuel →
    Q (search_loop self fuel pq d e).
Proof.
  intros Hdone Hnext fuel.
  induction fuel as [|fuel IH]; intros pq d e HI; simpl; [done|].
  destruct (search_step self pq d e) as [r|pq' d' e'] eqn:Hstep.
  - intros _. by eapply Hdone.
  - apply IH. by eapply Hnext.
Qed.

(** ** Termination *)

(** The positions within bounds, row by row. *)
Definition all_cells (self : GridPathfinder) : list pos :=
  r ← seqZ 0 (rows self); (λ c, (r, c)) <$> seqZ 0 (cols self).

(** Every position that can ever sit in the frontier. *)
Definition universe (self : GridPathfinder) : list position :=
  start self :: (Some <$> all_cells self).

(** The positions not yet explored, counted with repetition. *)
Definition unexplored (self : GridPathfinder) (explored : gset position) : nat :=
  length (filter (λ x, x ∉ explored) (universe self)).

(** The measure that every iteration lowers. *)
Definition measure (self : GridPathfinder) (pq : list entry)
    (explored : gset position) : nat :=
  (length pq + 5 * unexplored self explored)%nat.

Definition frontier_bounded (self : GridPathfinder) (pq : list entry) : Prop :=
  ∀ x, x ∈ pq → x.1.2 ∈ universe self.

Lemma elem_of_all_cells self (q : pos) :
  q ∈ all_cells self ↔ in_bounds self q = true.
Proof.
  unfold all_cells, in_bounds. rewrite list_elem_of_bind.
  destruct q as [r c]; simpl. split.
  - intros (r' & (c' & [= -> ->] & Hc%elem_of_seqZ)%list_elem_of_fmap
              & Hr%elem_of_seqZ). lia.
  - intros H. exists r. split; [|apply elem_of_seqZ; lia].
    apply list_elem_of_fmap. exists c. split; [done|]. apply elem_of_seqZ. lia.
Qed.

Lemma length_all_cells self :
  length (all_cells self) = (Z.to_nat (rows self) * Z.to_nat (cols self))%nat.
Proof.
  unfold all_cells.
  rewrite <- (length_seqZ 0 (rows self)).
  generalize (seqZ 0 (rows self)). intros l.
  induction l as [|r l IH]; [done|].
  rewrite bind_cons, length_app, length_fmap, length_seqZ. simpl.
  f_equal. exact IH.
Qed.

Lemma unexplored_mono self explored x :
  (unexplored self (explored ∪ {[x]}) ≤ unexplored self explored)%nat.
Proof.
  unfold unexplored. induction (universe self) as [|y l IH]; simpl; [done|].
  rewrite !filter_cons.
  destruct (decide (y ∉ explored ∪ {[x]})) as [Hy|Hy];
    destruct (decide (y ∉ explored)) as [Hy'|Hy']; simpl; try lia.
  set_solver.
Qed.

Lemma unexplored_decreases self explored x :
  x ∈ universe self → x ∉ explored →
  (unexplored self (explored ∪ {[x]}) < unexplored self explored)%nat.
Proof.
  unfold unexplored. intros Hx Hnx.
  induction (universe self) as [|y l IH]; [by apply elem_of_nil in Hx|].
  rewrite !filter_cons.
  apply elem_of_cons in Hx as [<-|Hx].
  - rewrite decide_False by set_solver. rewrite decide_True by done. simpl.
    pose proof (unexplored_mono self explored x) as Hmono.
    unfold unexplored in Hmono.
    apply Nat.lt_succ_r.
    clear IH. induction l as [|z l IH]; simpl; [done|].
    rewrite !filter_cons.
    destruct (decide (z ∉ explored ∪ {[x]})) as [Hz|Hz];
      destruct (decide (z ∉ explored)) as [Hz'|Hz']; simpl; try lia.
    set_solver.
  - specialize (IH Hx).
    destruct (decide (y ∉ explored ∪ {[x]})) as [Hy|Hy];
      destruct (decide (y ∉ explored)) as [Hy'|Hy']; simpl; try lia.
    set_solver.
Qed.

(** An iteration that goes on keeps the frontier within the universe
    and lowers the measure. *)
Lemma search_step_measure self pq d e pq' d' e' :
  frontier_bounded self pq →
  search_step self pq d e = Next pq' d' e' →
  frontier_bounded self pq' ∧ (measure self pq' e' < measure self pq e)%nat.
Proof.
  intros Hb (cd & cur & path & rest & Hpop & H)%search_step_Next.
  pose proof (heappop_length _ _ _ Hpop) as Hlen.
  assert (∀ x, x ∈ rest → x.1.2 ∈ universe self) as Hrest.
  { intros x Hx. apply Hb. rewrite (heappop_elem_of _ _ _ x Hpop). by right. }
  destruct H as [(Hin & -> & -> & ->)|(Hnin & Hgoal & -> & p & -> & _ & Hrelax)].
  - split; [done|]. unfold measure. lia.
  - destruct (relax_spec _ _ _ _ _ _ _ Hrelax) as (_ & _ & Hpq & Hlen').
    split.
    + intros x [Hx|(q & Hq & _ & ->)]%Hpq; [by apply Hrest|]. simpl.
      unfold universe. apply elem_of_cons. right.
      apply list_elem_of_fmap. exists q. split; [done|].
      apply elem_of_all_cells. by apply elem_of_nbrs in Hq as (_ & ? & _).
    + pose proof (nbrs_length self p).
      assert (Some p ∈ universe self) as Hu.
      { apply (Hb (cd, Some p, path)).
        rewrite (heappop_elem_of _ _ _ _ Hpop). by left. }
      pose proof (unexplored_decreases self e (Some p) Hu Hnin).
      unfold measure. lia.
Qed.

(** With more fuel than the measure the loop leaves by itself, and
    further fuel changes nothing. *)
Lemma search_loop_enough_fuel self fuel fuel' pq d e :
  frontier_bounded self pq →
  (measure self pq e < fuel)%nat → (measure self pq e < fuel')%nat →
  search_loop self fuel pq d e ≠ OutOfFuel ∧
  search_loop self fuel pq d e = search_loop self fuel' pq d e.
Proof.
  revert fuel' pq d e.
  induction fuel as [|fuel IH]; intros fuel' pq d e Hb Hf Hf'; [lia|].
  destruct fuel' as [|fuel']; [lia|]. simpl.
  destruct (search_step self pq d e) as [r|pq1 d1 e1] eqn:Hstep.
  - split; [|done].
    apply search_step_Done in Hstep
      as [[_ ->]|(? & ? & ? & ? & _ & _ & [[_ ->]|(_ & ? & _ & ->)])]; done.
  - destruct (search_step_measure _ _ _ _ _ _ _ Hb Hstep) as [Hb1 Hm].
    apply IH; [done|lia..].
Qed.

Lemma initial_frontier_bounded self :
  frontier_bounded self [(0, start self, [start self])].
Proof.
  intros x ->%list_elem_of_singleton. simpl. apply elem_of_cons. by left.
Qed.

Lemma initial_measure self :
  (measure self [(0%Z, start self, [start self])] ∅ < search_fuel self)%nat.
Proof.
  unfold measure, unexplored, search_fuel, universe.
  cbn [length].
  match goal with
  | |- context [length (@filter _ _ _ ?P ?H ?l)] =>
      pose proof (@length_filter _ P H l) as Hle;
      set (m := length (@filter _ _ _ P H l)) in *
  end.
  rewrite length_cons, length_fmap, length_all_cells in Hle.
  set (n := (Z.to_nat (rows self) * Z.to_nat (cols self))%nat) in *. lia.
Qed.

(** [find_shortest_path] never runs out of fuel, and supplying more
    fuel does not change what it returns. *)
Lemma find_shortest_path_fuel_enough self fuel :
  (search_fuel self ≤ fuel)%nat →
  find_shortest_path self ≠ OutOfFuel ∧
  find_shortest_path_fuel fuel self = find_shortest_path self.
Proof.
  intros Hfuel. unfold find_shortest_path, find_shortest_path_fuel.
  pose proof (initial_measure self).
  destruct (search_loop_enough_fuel self (search_fuel self) fuel
              [(0, start self, [start self])] {[start self := 0]} ∅)
    as [H1 H2]; [apply initial_frontier_bounded|lia..|].
  by rewrite H2 in *.
Qed.

(** ** Walks

    A walk is a list of cells that starts at [s] and moves from each
    cell to one of its neighbours. It is built the way the search
    builds paths, by adding a cell at the end. *)

Inductive walk (self : GridPathfinder) (s : pos) : list pos → pos → Prop :=
| walk_start : walk self s [s] s
| walk_step l p q :
    walk self s l p → q ∈ nbrs self p → walk self s (l ++ [q]) q.

Lemma walk_length_pos self s l p : walk self s l p → (0 < length l)%nat.
Proof. intros [|]; [simpl; lia|]. rewrite length_app; simpl; lia. Qed.

Lemma walk_last self s l p : walk self s l p → last l = Some p.
Proof. intros [|]; [done|]. by rewrite last_snoc. Qed.

Lemma walk_head self s l p : walk self s l p → head l = Some s.
Proof.
  induction 1 as [|l p q Hw IH Hq]; [done|].
  destruct l; [done|]. done.
Qed.

Lemma relax_lookup current_dist current_path neighbors pq distances
    pq' distances' :
  relax current_dist current_path neighbors pq distances = (pq', distances') →
  ∀ q : pos,
  (q ∈ neighbors ∧
   shorter (current_dist + 1) (distances !! Some q) = true ∧
   distances' !! Some q = Some (current_dist + 1)) ∨
  ((q ∉ neighbors ∨ shorter (current_dist + 1) (distances !! Some q) = false) ∧
   distances' !! Some q = distances !! Some q).
Proof.
  intros H q. destruct (relax_spec _ _ _ _ _ _ _ H) as (D1 & D2 & _ & _).
  destruct (decide (q ∈ neighbors)) as [Hq|Hq].
  - destruct (shorter (current_dist + 1) (distances !! Some q)) eqn:Hs.
    + left. auto.
    + right. split; [by right|]. apply D2. by intros ? [= <-] _.
  - right. split; [by left|]. apply D2. by intros ? [= <-] ?.
Qed.

(** ** The invariant of the search *)

Section Search.
Variable self : GridPathfinder.
Variable s : pos.
Hypothesis Hstart : start self = Some s.

(** Every frontier item carries a walk from the start to its position,
    and its distance is the number of edges of that walk. *)
Definition frontier_ok (pq : list entry) : Prop :=
  ∀ x, x ∈ pq →
    ∃ p l, x.1.2 = Some p ∧ x.2 = Some <$> l ∧ walk self s l p ∧
           Z.of_nat (length l) = x.1.1 + 1.

Record search_inv (pq : list entry) (distances : gmap position Z)
    (explored : gset position) : Prop := {
  (* the frontier holds walks *)
  inv_frontier : frontier_ok pq;
  (* the distance map is never above a frontier item *)
  inv_frontier_dist :
    ∀ x p, x ∈ pq → x.1.2 = Some p →
      ∃ dp, distances !! Some p = Some dp ∧ dp ≤ x.1.1;
  (* a known distance of an unexplored cell is waiting in the frontier *)
  inv_pending :
    ∀ p dp, distances !! Some p = Some dp →
      Some p ∈ explored ∨ ∃ path, (dp, Some p, path) ∈ pq;
  (* the distance of an explored cell is that of a walk, and least *)
  inv_explored :
    ∀ x, x ∈ explored →
      ∃ p dp l, x = Some p ∧ distances !! Some p = Some dp ∧
                walk self s l p ∧ Z.of_nat (length l) = dp + 1 ∧
                ∀ l', walk self s l' p → dp + 1 ≤ Z.of_nat (length l');
  (* the neighbours of an explored cell have been relaxed *)
  inv_relaxed :
    ∀ p q, Some p ∈ explored → q ∈ nbrs self p →
      ∃ dp dq, distances !! Some p = Some dp ∧
               distances !! Some q = Some dq ∧ dq ≤ dp + 1;
  inv_start : distances !! Some s = Some 0;
  inv_goal : goal self ∉ explored
}.

Lemma search_inv_initial :
  search_inv [(0, start self, [start self])] {[start self := 0]} ∅.
Proof.
  rewrite Hstart. split.
  - intros x ->%list_elem_of_singleton. exists s, [s]. simpl.
    split_and!; [done..|constructor|done].
  - intros x p ->%list_elem_of_singleton [= <-]. exists 0.
    by rewrite lookup_singleton_eq.
  - intros p dp [[= <-] <-]%lookup_singleton_Some. right. exists [Some s].
    by apply list_elem_of_singleton.
  - intros x Hx. by apply not_elem_of_empty in Hx.
  - intros p q Hp. by apply not_elem_of_empty in Hp.
  - apply lookup_singleton_eq.
  - apply not_elem_of_empty.
Qed.

(** Any walk either ends in an explored cell whose distance it does not
    beat, or is at least as long as some frontier item. *)
Lemma walk_crosses_frontier pq d e l x :
  search_inv pq d e → walk self s l x →
  (Some x ∈ e ∧ ∃ dx, d !! Some x = Some dx ∧ dx + 1 ≤ Z.of_nat (length l)) ∨
  (∃ y, y ∈ pq ∧ y.1.1 + 1 ≤ Z.of_nat (length l)).
Proof.
  intros Hinv. induction 1 as [|l p q Hw IH Hq].
  - destruct (inv_pending _ _ _ Hinv s 0 (inv_start _ _ _ Hinv)) as [Hs|[path Hs]].
    + left. split; [done|]. exists 0. split; [apply Hinv|simpl; lia].
    + right. eexists. split; [exact Hs|simpl; lia].
  - rewrite length_app; simpl.
    destruct IH as [(Hp & dp & Hdp & Hle)|(y & Hy & Hle)].
    + destruct (inv_relaxed _ _ _ Hinv p q Hp Hq) as (dp' & dq & Hdp' & Hdq & Hle').
      assert (dp' = dp) as -> by congruence.
      destruct (inv_pending _ _ _ Hinv q dq Hdq) as [He|[path He]].
      * left. split; [done|]. exists dq. split; [done|lia].
      * right. eexists. split; [exact He|simpl; lia].
    + right. exists y. split; [done|lia].
Qed.

(** Dropping a stale item keeps the invariant. *)
Lemma search_inv_stale pq d e cd cur path rest :
  search_inv pq d e →
  heappop pq = Some ((cd, cur, path), rest) → cur ∈ e →
  search_inv rest d e.
Proof.
  intros Hinv Hpop Hcur.
  assert (∀ x, x ∈ rest → x ∈ pq) as Hsub.
  { intros x Hx. rewrite (heappop_elem_of _ _ _ x Hpop). by right. }
  split; try apply Hinv.
  - intros x Hx. by apply (inv_frontier _ _ _ Hinv), Hsub.
  - intros x p Hx. by apply (inv_frontier_dist _ _ _ Hinv), Hsub.
  - intros p dp Hdp.
    destruct (inv_pending _ _ _ Hinv p dp Hdp) as [?|[path' Hx]]; [by left|].
    apply (heappop_elem_of _ _ _ _ Hpop) in Hx as [[= -> -> ->]|Hx]; [by left|].
    right. by exists path'.
Qed.

(** The item popped for an unexplored cell carries a shortest walk to
    it, and its distance is the one in the distance map. *)
Lemma popped_fresh pq d e cd p path rest :
  search_inv pq d e →
  heappop pq = Some ((cd, Some p, path), rest) → Some p ∉ e →
  ∃ l, path = Some <$> l ∧ walk self s l p ∧
       Z.of_nat (length l) = cd + 1 ∧
       d !! Some p = Some cd ∧
       ∀ l', walk self s l' p → cd + 1 ≤ Z.of_nat (length l').
Proof.
  intros Hinv Hpop Hp.
  assert ((cd, Some p, path) ∈ pq) as Hin.
  { rewrite (heappop_elem_of _ _ _ _ Hpop). by left. }
  destruct (inv_frontier _ _ _ Hinv _ Hin) as (p' & l & [= <-] & Hpath & Hw & Hlen).
  simpl in *. exists l. split_and!; [done..| |].
  - destruct (inv_frontier_dist _ _ _ Hinv _ p Hin eq_refl) as (dp & Hdp & Hle).
    simpl in Hle.
    destruct (inv_pending _ _ _ Hinv p dp Hdp) as [?|[path' Hx]]; [done|].
    pose proof (heappop_min _ _ _ _ Hpop Hx) as Hmin. simpl in Hmin.
    rewrite Hdp. f_equal. lia.
  - intros l' Hw'.
    destruct (walk_crosses_frontier _ _ _ _ _ Hinv Hw')
      as [[? _]|(y & Hy & Hle)]; [done|].
    pose proof (heappop_min _ _ _ _ Hpop Hy) as Hmin. simpl in Hmin. lia.
Qed.

(** Exploring a cell and relaxing its neighbours keeps the invariant. *)
Lemma search_inv_fresh pq d e cd p path rest pq' d' :
  search_inv pq d e →
  heappop pq = Some ((cd, Some p, path), rest) →
  Some p ∉ e → Some p ≠ goal self →
  relax cd path (nbrs self p) rest d = (pq', d') →
  search_inv pq' d' (e ∪ {[Some p]}).
Proof.
  intros Hinv Hpop Hp Hgoal Hrelax.
  destruct (popped_fresh _ _ _ _ _ _ _ Hinv Hpop Hp)
    as (l & Hpath & Hw & Hlen & Hdp & Hopt).
  destruct (relax_spec _ _ _ _ _ _ _ Hrelax) as (D1 & D2 & Hpq & _).
  pose proof (relax_lookup _ _ _ _ _ _ _ Hrelax) as Hlook.
  assert (∀ x, x ∈ rest → x ∈ pq) as Hsub.
  { intros x Hx. rewrite (heappop_elem_of _ _ _ x Hpop). by right. }
  (* the distance of the cell just explored stays *)
  assert (d' !! Some p = Some cd) as Hdp'.
  { destruct (Hlook p) as [(_ & Hs & _)|[_ ->]]; [|done].
    rewrite Hdp in Hs. simpl in Hs. lia. }
  (* the distance of an explored cell stays *)
  assert (∀ q, Some q ∈ e → d' !! Some q = d !! Some q) as Hkeep.
  { intros q Hq. destruct (Hlook q) as [(Hn & Hs & _)|[_ ->]]; [|done].
    destruct (inv_explored _ _ _ Hinv _ Hq) as (q' & dq & lq & [= <-] & Hdq & _ & _ & Hoptq).
    specialize (Hoptq (l ++ [q]) (walk_step _ _ _ _ _ Hw Hn)).
    rewrite length_app in Hoptq. simpl in Hoptq.
    rewrite Hdq in Hs. simpl in Hs. lia. }
  (* distances only go down *)
  assert (∀ q dq, d !! Some q = Some dq →
            ∃ dq', d' !! Some q = Some dq' ∧ dq' ≤ dq) as Hmono.
  { intros q dq Hdq. destruct (Hlook q) as [(_ & Hs & ->)|[_ ->]].
    - rewrite Hdq in Hs. simpl in Hs. exists (cd + 1). split; [done|lia].
    - exists dq. split; [done|lia]. }
  split.
  - intros x [Hx|(q & Hq & _ & ->)]%Hpq.
    + by apply (inv_frontier _ _ _ Hinv), Hsub.
    + exists q, (l ++ [q]). simpl. split_and!; [done| | |].
      * by rewrite Hpath, fmap_app.
      * by apply walk_step with p.
      * rewrite length_app; simpl. lia.
  - intros x q [Hx|(q' & Hq & Hs & ->)]%Hpq Hxq.
    + destruct (inv_frontier_dist _ _ _ Hinv x q (Hsub _ Hx) Hxq) as (dq & Hdq & Hle).
      destruct (Hmono _ _ Hdq) as (dq' & Hdq' & Hle').
      exists dq'. split; [done|lia].
    + injection Hxq as ->. exists (cd + 1). split; [by apply D1|simpl; lia].
  - intros q dq Hdq.
    destruct (Hlook q) as [(Hn & Hs & Hq)|[_ Hq]].
    + right. exists (path ++ [Some q]). apply Hpq. right. exists q.
      split_and!; [done..|]. congruence.
    + rewrite Hq in Hdq.
      destruct (inv_pending _ _ _ Hinv q dq Hdq) as [?|[path' Hx]].
      * left. apply elem_of_union. by left.
      * apply (heappop_elem_of _ _ _ _ Hpop) in Hx as [[= -> -> ->]|Hx].
        -- left. apply elem_of_union. right. by apply elem_of_singleton.
        -- right. exists path'. apply Hpq. by left.
  - intros x [Hx| ->%elem_of_singleton]%elem_of_union.
    + destruct (inv_explored _ _ _ Hinv _ Hx) as (q & dq & lq & -> & Hdq & Hrest).
      exists q, dq, lq. split_and!; [done| |apply Hrest..].
      by rewrite Hkeep.
    + exists p, cd, l. done.
  - intros p0 q [Hp0| [= ->]%elem_of_singleton]%elem_of_union Hq.
    + destruct (inv_relaxed _ _ _ Hinv p0 q Hp0 Hq) as (dp & dq & Hdp0 & Hdq & Hle).
      destruct (Hmono _ _ Hdq) as (dq' & Hdq' & Hle').
      exists dp, dq'. split_and!; [by rewrite Hkeep|done|lia].
    + destruct (Hlook q) as [(_ & _ & Hq')|[[?|Hs] Hq']]; [| done |].
      * exists cd, (cd + 1). split_and!; [done..|lia].
      * destruct (d !! Some q) as [dq|] eqn:Hdq; [|done]. simpl in Hs.
        exists cd, dq. split_and!; [done|congruence|lia].
  - destruct (Hlook s) as [(_ & Hs & _)|[_ ->]]; [|apply Hinv].
    rewrite (inv_start _ _ _ Hinv) in Hs. simpl in Hs.
    pose proof (walk_length_pos _ _ _ _ Hw). lia.
  - rewrite elem_of_union, elem_of_singleton.
    intros [?|?]; [by apply (inv_goal _ _ _ Hinv)|done].
Qed.

(** Every iteration that goes on keeps the invariant. *)
Lemma search_inv_step pq d e pq' d' e' :
  search_inv pq d e →
  search_step self pq d e = Next pq' d' e' →
  search_inv pq' d' e'.
Proof.
  intros Hinv (cd & cur & path & rest & Hpop & H)%search_step_Next.
  destruct H as [(Hin & -> & -> & ->)|(Hnin & Hgoal & -> & p & -> & _ & Hrelax)].
  - by eapply search_inv_stale.
  - by eapply search_inv_fresh.
Qed.

(** ** What the search returns *)

Definition reachable (p : pos) : Prop := ∃ l, walk self s l p.

(** - a path is a shortest walk from the start to the goal;
    - without a path, the explored set is the set of reachable cells and
      the goal is not among them;
    - an exception needs a grid that is not rectangular. *)
Definition search_post (r : outcome result) : Prop :=
  match r with
  | Return (Some path, explored) =>
      ∃ g l, goal self = Some g ∧ path = Some <$> l ∧ walk self s l g ∧
             (∀ l', walk self s l' g → (length l ≤ length l')%nat) ∧
             Some s ∈ explored ∧ Some g ∈ explored ∧
             (∀ x, x ∈ explored → ∃ p, x = Some p ∧ reachable p)
  | Return (None, explored) =>
      (∀ x, x ∈ explored ↔ ∃ p, x = Some p ∧ reachable p) ∧
      goal self ∉ explored
  | Raise _ => ¬ rectangular self
  | OutOfFuel => False
  end.

Lemma walk_singleton l p : walk self s l p → length l = 1%nat → p = s.
Proof.
  intros [|l' p' q Hw Hq]; [done|].
  rewrite length_app; simpl. pose proof (walk_length_pos _ _ _ _ Hw). lia.
Qed.

Lemma search_post_done pq d e r :
  search_inv pq d e →
  search_step self pq d e = Done r → search_post r.
Proof.
  intros Hinv [[-> ->]|(cd & cur & path & rest & Hpop & Hcur & H)]%search_step_Done.
  - simpl. split; [|apply Hinv]. intros x. split.
    + intros Hx.
      destruct (inv_explored _ _ _ Hinv _ Hx) as (p & dp & l & -> & _ & Hw & _).
      exists p. split; [done|]. by exists l.
    + intros (p & -> & l & Hw).
      destruct (walk_crosses_frontier _ _ _ _ _ Hinv Hw)
        as [[? _]|(y & Hy & _)]; [done|]. by apply elem_of_nil in Hy.
  - assert ((cd, cur, path) ∈ pq) as Hin.
    { rewrite (heappop_elem_of _ _ _ _ Hpop). by left. }
    destruct (inv_frontier _ _ _ Hinv _ Hin) as (p & _ & Hp & _).
    simpl in Hp. subst cur.
    destruct H as [[Hgoal ->]|(Hgoal & ex & Hex & ->)]; simpl.
    + destruct (popped_fresh _ _ _ _ _ _ _ Hinv Hpop Hcur)
        as (l & Hpath & Hw & Hlen & Hdp & Hopt).
      exists p, l. split_and!; [done..| | | |].
      * intros l' Hw'. specialize (Hopt l' Hw'). lia.
      * apply elem_of_union.
        destruct (inv_pending _ _ _ Hinv s 0 (inv_start _ _ _ Hinv))
          as [?|[path' Hs]]; [by left|right].
        pose proof (heappop_min _ _ _ _ Hpop Hs) as Hmin. simpl in Hmin.
        pose proof (walk_length_pos _ _ _ _ Hw).
        apply elem_of_singleton. f_equal. symmetry.
        apply (walk_singleton l); [done|lia].
      * apply elem_of_union. right. by apply elem_of_singleton.
      * intros x [Hx| ->%elem_of_singleton]%elem_of_union.
        -- destruct (inv_explored _ _ _ Hinv _ Hx) as (q & dq & lq & -> & _ & Hwq & _).
           exists q. split; [done|]. by exists lq.
        -- exists p. split; [done|]. by exists l.
    + intros Hrect. rewrite get_neighbors_rectangular in Hex by done. done.
Qed.

(** The search, run from its initial state, meets [search_post]. *)
Lemma find_shortest_path_fuel_post fuel :
  (search_fuel self ≤ fuel)%nat →
  search_post (find_shortest_path_fuel fuel self).
Proof.
  intros Hfuel.
  destruct (find_shortest_path_fuel_enough self fuel Hfuel) as [Hne Heq].
  rewrite <- Heq in Hne.
  apply (search_loop_rule self search_inv search_post); [| | |done].
  - intros *. apply search_post_done.
  - intros *. apply search_inv_step.
  - apply search_inv_initial.
Qed.

Lemma find_shortest_path_post : search_post (find_shortest_path self).
Proof. by apply find_shortest_path_fuel_post. Qed.

End Search.

(** ** Construction *)

(** [find_position] reads only the grid and its dimensions. *)
Definition same_grid (self self' : GridPathfinder) : Prop :=
  grid self = grid self' ∧ rows self = rows self' ∧ cols self = cols self'.

Lemma find_in_row_same_grid self self' char i j n :
  same_grid self self' →
  find_in_row self char i j n = find_in_row self' char i j n.
Proof.
  intros (Hg & Hr & Hc). revert j. induction n as [|n IH]; intros j; simpl; [done|].
  replace (cell self i j) with (cell self' i j) by (unfold cell; by rewrite Hg).
  destruct (cell self' i j) as [c| |]; simpl; [|done..].
  destruct (decide (c = char)); [done|apply IH].
Qed.

Lemma find_position_same_grid self self' char :
  same_grid self self' → find_position self char = find_position self' char.
Proof.
  intros Hsame. unfold find_position.
  destruct Hsame as (Hg & Hr & Hc). rewrite Hr.
  generalize 0. induction (Z.to_nat (rows self')) as [|n IH]; intros i; simpl; [done|].
  rewrite Hc. rewrite (find_in_row_same_grid self self') by done.
  destruct (find_in_row self' char i 0 (Z.to_nat (cols self'))) as [[q|]| |];
    simpl; [done|apply IH|done..].
Qed.

Lemma marker_same_grid self self' q :
  same_grid self self' → marker self q = marker self' q.
Proof. intros (Hg & _). unfold marker, cell. by rewrite Hg. Qed.

Lemma in_bounds_same_grid self self' q :
  same_grid self self' → in_bounds self q = in_bounds self' q.
Proof. intros (_ & Hr & Hc). unfold in_bounds. by rewrite Hr, Hc. Qed.

(** A position that [find_position] returns is in bounds and holds the
    character looked for. *)
Lemma find_in_row_Some self char i j n p :
  find_in_row self char i j n = Return (Some p) →
  ∃ j', p = (i, j') ∧ j ≤ j' < j + Z.of_nat n ∧ cell self i j' = Return char.
Proof.
  revert j. induction n as [|n IH]; intros j; simpl; [done|].
  destruct (cell self i j) as [c| |] eqn:Hc; simpl; [|done..].
  destruct (decide (c = char)) as [->|Hne].
  - intros [= <-]. exists j. split_and!; [done|lia..|done].
  - intros (j' & -> & Hj' & Hc')%IH. exists j'. split_and!; [done|lia..|done].
Qed.

Lemma find_in_rows_Some self char i n p :
  find_in_rows self char i n = Return (Some p) →
  ∃ i' j', p = (i', j') ∧ i ≤ i' < i + Z.of_nat n ∧ 0 ≤ j' < cols self ∧
           cell self i' j' = Return char.
Proof.
  revert i. induction n as [|n IH]; intros i; simpl; [done|].
  destruct (find_in_row self char i 0 (Z.to_nat (cols self))) as [[q|]| |] eqn:Hrow;
    simpl; [| |done..].
  - intros [= <-].
    apply find_in_row_Some in Hrow as (j' & -> & Hj' & Hc).
    exists i, j'. split_and!; [done|lia..|done].
  - intros (i' & j' & -> & Hi' & Hj' & Hc)%IH.
    exists i', j'. split_and!; [done|lia..|done].
Qed.

Lemma find_position_Some self char p :
  find_position self char = Return (Some p) →
  in_bounds self p = true ∧ marker self p = Some char.
Proof.
  intros (i & j & -> & Hi & Hj & Hc)%find_in_rows_Some.
  unfold in_bounds, marker; simpl. rewrite Hc. split; [lia|done].
Qed.

(** On a rectangular grid [find_position] raises nothing, and returns
    [None] only when no cell holds the character. *)
Lemma find_in_row_rectangular self char i j n :
  rectangular self → 0 ≤ i < rows self → 0 ≤ j → j + Z.of_nat n ≤ cols self →
  (find_in_row self char i j n = Return None ∧
   ∀ j', j ≤ j' < j + Z.of_nat n → marker self (i, j') ≠ Some char) ∨
  (∃ p, find_in_row self char i j n = Return (Some p)).
Proof.
  intros Hrect Hi. revert j. induction n as [|n IH]; intros j Hj Hn; simpl.
  { left. split; [done|]. lia. }
  destruct (cell_rectangular self (i, j) Hrect) as [c Hc].
  { unfold in_bounds; simpl. lia. }
  simpl in Hc. rewrite Hc. simpl.
  destruct (decide (c = char)) as [->|Hne]; [right; by eexists|].
  destruct (IH (j + 1)) as [[-> Hnone]|[p ->]]; [lia..| |right; by eexists].
  left. split; [done|]. intros j' Hj'.
  destruct (decide (j' = j)) as [->|]; [|apply Hnone; lia].
  unfold marker; simpl. rewrite Hc. congruence.
Qed.

Lemma rectangular_cols_nonneg self :
  rectangular self → 0 < rows self → 0 ≤ cols self.
Proof.
  intros [Hrows Hcols] Hpos.
  destruct (grid self) as [|row g]; simpl in *; [lia|].
  apply Forall_cons in Hcols as [<- _]. lia.
Qed.

Lemma find_in_rows_rectangular self char i n :
  rectangular self → 0 ≤ i → i + Z.of_nat n ≤ rows self →
  (find_in_rows self char i n = Return None ∧
   ∀ i' j', i ≤ i' < i + Z.of_nat n → 0 ≤ j' < cols self →
            marker self (i', j') ≠ Some char) ∨
  (∃ p, find_in_rows self char i n = Return (Some p)).
Proof.
  intros Hrect. revert i. induction n as [|n IH]; intros i Hi Hn; simpl.
  { left. split; [done|]. lia. }
  assert (0 ≤ cols self) as Hcols by (apply rectangular_cols_nonneg; [done|lia]).
  destruct (find_in_row_rectangular self char i 0 (Z.to_nat (cols self)) Hrect)
    as [[-> Hnone]|[p ->]]; [lia..| |right; by eexists]. simpl.
  destruct (IH (i + 1)) as [[-> Hnone']|[p ->]]; [lia..| |right; by eexists].
  left. split; [done|]. intros i' j' Hi' Hj'.
  destruct (decide (i' = i)) as [->|]; [apply Hnone; lia|apply Hnone'; lia].
Qed.

Lemma find_position_rectangular self char :
  rectangular self →
  (find_position self char = Return None ∧
   ∀ q, in_bounds self q = true → marker self q ≠ Some char) ∨
  (∃ p, find_position self char = Return (Some p)).
Proof.
  intros Hrect. unfold find_position.
  assert (0 ≤ rows self) as Hrows by (destruct Hrect as [-> _]; lia).
  destruct (find_in_rows_rectangular self char 0 (Z.to_nat (rows self)) Hrect)
    as [[-> Hnone]|[p ->]]; [lia..| |right; by eexists].
  left. split; [done|]. intros [i j] Hb. unfold in_bounds in Hb; simpl in Hb.
  apply Hnone; lia.
Qed.

(** The input grids of the specification: all rows of equal length. *)
Definition grid_rectangular (g : list string) : Prop :=
  ∀ r1 r2, r1 ∈ g → r2 ∈ g → String.length r1 = String.length r2.

(** The grid has a cell with marker [c]. *)
Definition contains (g : list string) (c : ascii) : Prop :=
  ∃ row, row ∈ g ∧ c ∈ list_ascii_of_string row.

Lemma length_list_ascii_of_string (r : string) :
  length (list_ascii_of_string r) = String.length r.
Proof. induction r as [|a r IH]; simpl; [done|]. by rewrite IH. Qed.

(** What a completed construction has stored. *)
Lemma init_Return g self :
  __init__ g = Return self →
  grid self = map list_ascii_of_string g ∧
  rows self = Z.of_nat (length (grid self)) ∧
  (∃ row0, grid self !! 0%nat = Some row0 ∧ cols self = Z.of_nat (length row0)) ∧
  find_position self "S"%char = Return (start self) ∧
  find_position self "G"%char = Return (goal self).
Proof.
  unfold __init__. rewrite getitem_nonneg by done.
  destruct (map list_ascii_of_string g !! Z.to_nat 0) as [row0|] eqn:Hrow0;
    simpl; [|done].
  set (self0 := mkGridPathfinder _ _ _ None None).
  destruct (find_position self0 "S"%char) as [s| |] eqn:Hs; simpl; [|done..].
  destruct (find_position (set_start self0 s) "G"%char) as [t| |] eqn:Ht;
    simpl; [|done..].
  intros [= <-]. simpl. split_and!; [done|done|by exists row0| |].
  - rewrite <- Hs. by apply find_position_same_grid.
  - rewrite <- Ht. by apply find_position_same_grid.
Qed.

(** Construction completes on a rectangular grid with at least one row. *)
Lemma init_rectangular g :
  g ≠ [] → grid_rectangular g →
  ∃ self, __init__ g = Return self ∧ rectangular self.
Proof.
  intros Hne Hrect.
  assert (∀ self, grid self = map list_ascii_of_string g →
            rows self = Z.of_nat (length (grid self)) →
            (∃ row0, grid self !! 0%nat = Some row0 ∧
                     cols self = Z.of_nat (length row0)) →
            rectangular self) as Hr.
  { intros self Hg Hrows (row0 & Hrow0 & Hcols). split; [done|].
    rewrite Hg in *. apply Forall_forall. intros row Hrow.
    apply list_elem_of_fmap in Hrow as (r & -> & Hr).
    apply list_lookup_fmap_Some in Hrow0 as (r0 & -> & Hr0).
    apply list_elem_of_lookup_2 in Hr0.
    rewrite Hcols, !length_list_ascii_of_string. f_equal. by apply Hrect. }
  unfold __init__. rewrite getitem_nonneg by done.
  destruct g as [|r0 g]; [done|]. simpl.
  set (self0 := mkGridPathfinder _ _ _ None None).
  assert (rectangular self0) as Hrect0.
  { apply Hr; [done|done|]. by exists (list_ascii_of_string r0). }
  destruct (find_position_rectangular self0 "S"%char Hrect0) as [[-> _]|[s ->]];
    simpl.
  - assert (rectangular (set_start self0 None)) as Hrect1 by apply Hrect0.
    destruct (find_position_rectangular _ "G"%char Hrect1) as [[-> _]|[t ->]];
      simpl; eexists; (split; [done|apply Hrect0]).
  - assert (rectangular (set_start self0 (Some s))) as Hrect1 by apply Hrect0.
    destruct (find_position_rectangular _ "G"%char Hrect1) as [[-> _]|[t ->]];
      simpl; eexists; (split; [done|apply Hrect0]).
Qed.

(** A marker of the input is a marker of a cell in bounds. *)
Lemma contains_marker g self c :
  grid self = map list_ascii_of_string g → rectangular self →
  contains g c ↔ ∃ q, in_bounds self q = true ∧ marker self q = Some c.
Proof.
  intros Hg [Hrows Hcols]. split.
  - intros (row & Hrow & Hc).
    apply list_elem_of_lookup in Hrow as [i Hi].
    apply list_elem_of_lookup in Hc as [j Hj].
    assert (grid self !! i = Some (list_ascii_of_string row)) as Hi'.
    { rewrite Hg. by rewrite list_lookup_fmap, Hi. }
    assert (Z.of_nat (length (list_ascii_of_string row)) = cols self) as Hlen.
    { eapply Forall_forall in Hcols; [exact Hcols|].
      by eapply list_elem_of_lookup_2. }
    pose proof (lookup_lt_Some _ _ _ Hi').
    pose proof (lookup_lt_Some _ _ _ Hj).
    exists (Z.of_nat i, Z.of_nat j). split.
    + unfold in_bounds; simpl. lia.
    + unfold marker, cell; simpl. rewrite getitem_nonneg by lia.
      rewrite Nat2Z.id. rewrite Hg, list_lookup_fmap, Hi. simpl.
      rewrite getitem_nonneg by lia. rewrite Nat2Z.id.
      by rewrite Hj.
  - intros ([i j] & Hb & Hm). unfold in_bounds in Hb; simpl in Hb.
    unfold marker, cell in Hm; simpl in Hm.
    rewrite getitem_nonneg in Hm by lia.
    destruct (grid self !! Z.to_nat i) as [row|] eqn:Hrow; simpl in Hm; [|done].
    rewrite getitem_nonneg in Hm by lia.
    destruct (row !! Z.to_nat j) as [c'|] eqn:Hc; simpl in Hm; [|done].
    injection Hm as ->.
    rewrite Hg in Hrow. apply list_lookup_fmap_Some in Hrow as (r & -> & Hr).
    exists r. split; [by eapply list_elem_of_lookup_2|].
    by eapply list_elem_of_lookup_2.
Qed.

(** On a rectangular grid the marker is found exactly when it is there. *)
Lemma find_position_contains g self c :
  grid self = map list_ascii_of_string g → rectangular self →
  (contains g c ∧ ∃ p, find_position self c = Return (Some p)) ∨
  (¬ contains g c ∧ find_position self c = Return None).
Proof.
  intros Hg Hrect.
  destruct (find_position_rectangular self c Hrect) as [[Hnone Hno]|[p Hp]].
  - right. split; [|done].
    intros (q & Hb & Hm)%(contains_marker g self c Hg Hrect). by eapply Hno.
  - left. split; [|by exists p].
    apply (contains_marker g self c Hg Hrect). exists p.
    by apply find_position_Some.
Qed.

(** ** Connecting sequences

    The notions in which the specification states its properties. *)

(** A cell in bounds whose marker is not ['1']. *)
Definition traversable (self : GridPathfinder) (q : pos) : Prop :=
  in_bounds self q = true ∧ ∃ c, marker self q = Some c ∧ c ≠ "1"%char.

(** Every two consecutive positions are one orthogonal step apart. *)
Fixpoint steps (l : list pos) : Prop :=
  match l with
  | p :: l' =>
      match l' with
      | q :: _ => orth_adjacent p q ∧ steps l'
      | [] => True
      end
  | [] => True
  end.

(** [l] is a sequence of orthogonal steps through traversable cells that
    leads from [s] to [t]. *)
Definition connects (self : GridPathfinder) (s t : pos) (l : list pos) : Prop :=
  head l = Some s ∧ last l = Some t ∧ Forall (traversable self) l ∧ steps l.

(** The number of edges of a path. *)
Definition edge_count {A : Type} (l : list A) : nat := (length l - 1)%nat.

Lemma steps_snoc l q :
  steps (l ++ [q]) ↔ steps l ∧ ∀ p, last l = Some p → orth_adjacent p q.
Proof.
  induction l as [|a l IH]; simpl; [by split|].
  destruct l as [|b l]; simpl in *.
  - split; [intros [H _]; split; [done|by intros ? [= <-]] | intros [_ H]; auto].
  - rewrite IH. split.
    + intros (? & ? & ?). auto.
    + intros [[? ?] ?]. auto.
Qed.

Lemma elem_of_nbrs_traversable self p q :
  q ∈ nbrs self p ↔ orth_adjacent p q ∧ traversable self q.
Proof. apply elem_of_nbrs. Qed.

Lemma walk_connects self s l t :
  traversable self s → walk self s l t → connects self s t l.
Proof.
  intros Hs. induction 1 as [|l p q Hw (Hhd & Hlast & Hall & Hsteps) Hq].
  - split_and!; [done|done|by constructor|done].
  - apply elem_of_nbrs_traversable in Hq as [Hadj Hq].
    split_and!.
    + destruct l; [done|]. done.
    + apply last_snoc.
    + apply Forall_app. split; [done|]. by constructor.
    + apply steps_snoc. split; [done|]. intros p' Hp'.
      assert (p' = p) as -> by congruence. done.
Qed.

Lemma connects_walk self s l t : connects self s t l → walk self s l t.
Proof.
  revert t. induction l as [|q l IH] using rev_ind; intros t.
  { by intros [[=] _]. }
  intros (Hhd & Hlast & Hall & Hsteps).
  rewrite last_snoc in Hlast. injection Hlast as ->.
  apply Forall_app in Hall as [Hall Ht]. apply Forall_inv in Ht.
  apply steps_snoc in Hsteps as [Hsteps Hadj].
  destruct (last l) as [p|] eqn:Hp.
  - apply walk_step with p.
    + apply IH. split_and!; [|done..].
      destruct l; [done|]. done.
    + apply elem_of_nbrs_traversable. auto.
  - apply last_None in Hp as ->. injection Hhd as ->. constructor.
Qed.

Lemma edge_count_le {A B : Type} (l : list A) (l' : list B) :
  (length l ≤ length l')%nat → (edge_count l ≤ edge_count l')%nat.
Proof. unfold edge_count. lia. Qed.

(** The start that construction finds is a traversable cell. *)
Lemma start_traversable g self s :
  __init__ g = Return self → start self = Some s → traversable self s.
Proof.
  intros (_ & _ & _ & Hs & _)%init_Return Hstart. rewrite Hstart in Hs.
  apply find_position_Some in Hs as [Hb Hm].
  split; [done|]. by exists "S"%char.
Qed.

(** The first iteration decides the search when [self.start] is [None]. *)
Lemma find_shortest_path_None self :
  start self = None →
  find_shortest_path self
  = if decide (goal self = None)
    then Return (Some [None], {[None]})
    else Raise TypeError.
Proof.
  intros Hstart. unfold find_shortest_path, find_shortest_path_fuel.
  replace (search_fuel self) with (S (search_fuel self - 1))
    by (unfold search_fuel; lia).
  simpl. rewrite search_step_None by done. by destruct (decide _).
Qed.

(** ** The search on a rectangular grid *)

(** A constructed grid is rectangular when the input is, and a marker is
    found exactly when the input has it. *)
Lemma init_markers g self :
  __init__ g = Return self → grid_rectangular g →
  rectangular self ∧
  (contains g "S"%char ↔ is_Some (start self)) ∧
  (contains g "G"%char ↔ is_Some (goal self)).
Proof.
  intros Hinit Hrect.
  assert (g ≠ []) as Hne by (by intros ->).
  destruct (init_rectangular g Hne Hrect) as (self' & Hinit' & Hrect').
  assert (self' = self) as -> by congruence.
  destruct (init_Return g self Hinit) as (Hg & _ & _ & Hs & Ht).
  split; [done|]. split.
  - destruct (find_position_contains g self "S"%char Hg Hrect')
      as [[Hc [p Hp]]|[Hc Hp]]; rewrite Hp in Hs; injection Hs as <-.
    + split; [by eexists|done].
    + split; [done|]. by intros [? [=]].
  - destruct (find_position_contains g self "G"%char Hg Hrect')
      as [[Hc [p Hp]]|[Hc Hp]]; rewrite Hp in Ht; injection Ht as <-.
    + split; [by eexists|done].
    + split; [done|]. by intros [? [=]].
Qed.

(** On a rectangular grid with a start the search returns: either a
    shortest connecting sequence to the goal, or no path together with
    the set of cells that connecting sequences reach from the start. *)
Lemma search_rectangular g self s :
  __init__ g = Return self → grid_rectangular g → start self = Some s →
  (∃ t l explored,
     goal self = Some t ∧
     find_shortest_path self = Return (Some (Some <$> l), explored) ∧
     connects self s t l ∧
     ∀ l', connects self s t l' → (length l ≤ length l')%nat) ∨
  (∃ explored,
     find_shortest_path self = Return (None, explored) ∧
     (∀ x, x ∈ explored ↔ ∃ p l, x = Some p ∧ connects self s p l) ∧
     goal self ∉ explored).
Proof.
  intros Hinit Hrect Hstart.
  destruct (init_markers g self Hinit Hrect) as (Hrect' & _ & _).
  pose proof (start_traversable g self s Hinit Hstart) as Hs.
  pose proof (find_shortest_path_post self s Hstart) as Hpost.
  destruct (find_shortest_path self) as [[[path|] explored]| |]; simpl in Hpost;
    [| |done..].
  - destruct Hpost as (t & l & Hgoal & -> & Hw & Hmin & _).
    left. exists t, l, explored. split_and!; [done|done|by apply walk_connects|].
    intros l' Hl'. by apply Hmin, connects_walk.
  - destruct Hpost as [Hexp Hgoal]. right. exists explored.
    split_and!; [done| |done].
    intros x. rewrite Hexp. split.
    + intros (p & -> & l & Hw). exists p, l. split; [done|by apply walk_connects].
    + intros (p & l & -> & Hl). exists p. split; [done|].
      exists l. by apply connects_walk.
Qed.

(** ** The scenarios of the specification and the grid of the source *)

Definition run (g : list string) : outcome result :=
  self ← __init__ g; find_shortest_path self.

Example run_adjacent :
  run ["SG"]%string
  = Return (Some [Some (0, 0); Some (0, 1)], {[Some (0, 0); Some (0, 1)]}).
Proof. vm_compute. reflexivity. Qed.

Example run_two_by_two :
  ∃ explored,
    run ["S0"; "0G"]%string
    = Return (Some [Some (0, 0); Some (0, 1); Some (1, 1)], explored).
Proof. eexists. vm_compute. reflexivity. Qed.

Example run_empty_grid : run [] = Raise IndexError.
Proof. reflexivity. Qed.

Example run_ragged_grid : run ["S1G"; "0"]%string = Raise IndexError.
Proof. vm_compute. reflexivity. Qed.

(** The grid of the example usage in the source. *)
Definition example_grid : list string :=
  ["0000100000"; "0010100110"; "0110001010"; "0001000010"; "0110000110";
   "0100110100"; "0101010110"; "01G1011000"; "0111110110"; "0000S00000"]%string.

Example run_example_grid :
  ∃ path explored,
    run example_grid = Return (Some path, explored) ∧
    edge_count path = 26%nat ∧
    path = Some <$>
      [(9, 4); (9, 3); (9, 2); (9, 1); (9, 0); (8, 0); (7, 0); (6, 0); (5, 0);
       (4, 0); (3, 0); (2, 0); (1, 0); (0, 0); (0, 1); (0, 2); (0, 3); (1, 3);
       (2, 3); (2, 4); (3, 4); (4, 4); (4, 3); (5, 3); (5, 2); (6, 2); (7, 2)].
Proof. eexists _, _. split; [vm_compute; reflexivity|]. by split. Qed.

(** * The claims *)

(** C1. For every rectangular grid with an ['S'] and a ['G'] cell,
    construction finds the start and the goal, and if some sequence of
    orthogonal steps through cells in bounds that are not ['1'] connects
    them, [find_shortest_path] returns such a sequence whose number of
    edges is least among all of them. *)
Theorem find_shortest_path_shortest (g : list string) :
  grid_rectangular g → contains g "S"%char → contains g "G"%char →
  ∃ self s t,
    __init__ g = Return self ∧ start self = Some s ∧ goal self = Some t ∧
    ((∃ l0, connects self s t l0) →
     ∃ l explored,
       find_shortest_path self = Return (Some (Some <$> l), explored) ∧
       connects self s t l ∧
       ∀ l', connects self s t l' → (edge_count l ≤ edge_count l')%nat).
Proof.
  intros Hrect HS HG.
  assert (g ≠ []) as Hne.
  { intros ->. destruct HS as (row & Hrow & _). by apply elem_of_nil in Hrow. }
  destruct (init_rectangular g Hne Hrect) as (self & Hinit & _).
  destruct (init_markers g self Hinit Hrect) as (_ & HS' & HG').
  apply HS' in HS as [s Hs]. apply HG' in HG as [t Ht].
  exists self, s, t. split_and!; [done..|]. intros [l0 Hl0].
  destruct (search_rectangular g self s Hinit Hrect Hs)
    as [(t' & l & explored & Ht' & Hfind & Hl & Hmin)
       |(explored & Hfind & Hexp & Hgoal)].
  - assert (t' = t) as -> by congruence.
    exists l, explored. split_and!; [done..|].
    intros l' Hl'. by apply edge_count_le, Hmin.
  - exfalso. apply Hgoal. rewrite Ht. apply Hexp. by exists t, l0.
Qed.

(** A cell of a concrete grid is traversable by evaluation. *)
Ltac traversable_cell :=
  split; [reflexivity | eexists; split; [reflexivity | discriminate]].

Lemma example_rectangular : grid_rectangular ["S0"; "0G"]%string.
Proof.
  intros r1 r2 H1 H2.
  repeat (apply elem_of_cons in H1 as [->|H1]);
    repeat (apply elem_of_cons in H2 as [->|H2]);
    try done; by apply elem_of_nil in H1 || by apply elem_of_nil in H2.
Defined.

Lemma example_contains_S : contains ["S0"; "0G"]%string "S"%char.
Proof.
  exists "S0"%string. split; [apply elem_of_cons; by left|].
  simpl. apply elem_of_cons. by left.
Defined.

Lemma example_contains_G : contains ["S0"; "0G"]%string "G"%char.
Proof.
  exists "0G"%string. split; [apply elem_of_cons; right; apply elem_of_cons; by left|].
  simpl. apply elem_of_cons. right. apply elem_of_cons. by left.
Defined.

Lemma find_shortest_path_shortest_witness :
  ∃ self l explored,
    __init__ ["S0"; "0G"]%string = Return self ∧
    find_shortest_path self = Return (Some (Some <$> l), explored) ∧
    connects self (0, 0) (1, 1) l ∧
    edge_count l = 2%nat.
Proof.
  destruct (find_shortest_path_shortest ["S0"; "0G"]%string
              example_rectangular example_contains_S example_contains_G)
    as (self & s & t & Hinit & Hs & Ht & H).
  vm_compute in Hinit. injection Hinit as <-.
  injection Hs as <-. injection Ht as <-.
  destruct H as (l & explored & Hfind & Hl & Hmin).
  { exists [(0, 0); (0, 1); (1, 1)]. split_and!; [done|done| |].
    - repeat (apply Forall_cons; split; [traversable_cell|]). by apply Forall_nil.
    - simpl. unfold orth_adjacent; simpl. lia. }
  eexists _, l, explored. split_and!; [reflexivity|done|done|].
  vm_compute in Hfind. injection Hfind as Hpath _.
  destruct l as [|? [|? [|? [|]]]]; done.
Defined.

Lemma steps_lookup l i p q :
  steps l → l !! i = Some p → l !! S i = Some q → orth_adjacent p q.
Proof.
  revert i. induction l as [|a l IH]; intros i; [done|].
  destruct l as [|b l]; [by destruct i|].
  intros [Hab Hsteps]. destruct i as [|i]; simpl.
  - by intros [= <-] [= <-].
  - by apply IH.
Qed.

(** C3. Whenever [find_shortest_path] returns a path, every two
    consecutive elements of it are positions one orthogonal step apart,
    and every position in it lies within the bounds of the grid and does
    not carry the marker ['1']. The path consists of positions only,
    except that a grid with neither marker yields the list [[None]]. *)
Theorem returned_path_valid (g : list string) self path explored :
  __init__ g = Return self →
  find_shortest_path self = Return (Some path, explored) →
  (∀ i a b, path !! i = Some a → path !! S i = Some b →
     ∃ p q, a = Some p ∧ b = Some q ∧ orth_adjacent p q) ∧
  (∀ p, Some p ∈ path →
     in_bounds self p = true ∧ ∃ c, marker self p = Some c ∧ c ≠ "1"%char) ∧
  ((∃ l, path = Some <$> l) ∨
   (path = [None] ∧ start self = None ∧ goal self = None)).
Proof.
  intros Hinit Hfind.
  destruct (start self) as [s|] eqn:Hstart.
  - pose proof (find_shortest_path_post self s Hstart) as Hpost.
    rewrite Hfind in Hpost. simpl in Hpost.
    destruct Hpost as (t & l & Hgoal & -> & Hw & _).
    apply walk_connects in Hw as (_ & _ & Hall & Hsteps);
      [|by eapply start_traversable].
    split_and!.
    + intros i a b Ha Hb.
      apply list_lookup_fmap_Some in Ha as (p & -> & Hp).
      apply list_lookup_fmap_Some in Hb as (q & -> & Hq).
      exists p, q. split_and!; [done..|]. by eapply steps_lookup.
    + intros p (p' & [= <-] & Hp)%list_elem_of_fmap.
      by eapply Forall_forall in Hall.
    + left. by exists l.
  - rewrite find_shortest_path_None in Hfind by done.
    destruct (decide (goal self = None)) as [Hgoal|]; [|done].
    injection Hfind as <- <-. split_and!.
    + by intros [|i] a b.
    + by intros p [[=]|?%elem_of_nil]%elem_of_cons.
    + by right.
Qed.

Lemma returned_path_valid_witness :
  ∃ self path explored,
    __init__ ["S0"; "0G"]%string = Return self ∧
    find_shortest_path self = Return (Some path, explored) ∧
    (∀ i a b, path !! i = Some a → path !! S i = Some b →
       ∃ p q, a = Some p ∧ b = Some q ∧ orth_adjacent p q) ∧
    (∀ p, Some p ∈ path →
       in_bounds self p = true ∧ ∃ c, marker self p = Some c ∧ c ≠ "1"%char).
Proof.
  eexists _, _, _.
  assert (∀ A B C D : Prop, A → B → (A → B → C ∧ D) → A ∧ B ∧ C ∧ D) as Hcut
    by tauto.
  apply Hcut; [vm_compute; reflexivity | vm_compute; reflexivity |].
  intros Hinit Hfind.
  destruct (returned_path_valid _ _ _ _ Hinit Hfind) as (H1 & H2 & _). done.
Defined.

(** C4. On a rectangular grid whose start is not connected to the goal
    by any sequence of orthogonal steps through cells that are not
    ['1'], [find_shortest_path] raises nothing and returns no path,
    together with the set of cells that such sequences reach from the
    start. On the grid ["S1", "1G"] it returns no path and the explored
    set holding (0, 0) alone. *)
Theorem disconnected_goal_no_path :
  (∀ (g : list string) self s,
     __init__ g = Return self → grid_rectangular g → start self = Some s →
     (∀ t l, goal self = Some t → ¬ connects self s t l) →
     ∃ explored,
       find_shortest_path self = Return (None, explored) ∧
       ∀ x, x ∈ explored ↔ ∃ p l, x = Some p ∧ connects self s p l) ∧
  (∃ self,
     __init__ ["S1"; "1G"]%string = Return self ∧
     find_shortest_path self = Return (None, {[Some (0, 0)]})).
Proof.
  split.
  - intros g self s Hinit Hrect Hstart Hdis.
    destruct (search_rectangular g self s Hinit Hrect Hstart)
      as [(t & l & explored & Ht & _ & Hl & _)|(explored & Hfind & Hexp & _)].
    + by destruct (Hdis t l Ht).
    + by exists explored.
  - eexists. split; [vm_compute; reflexivity|]. vm_compute. reflexivity.
Qed.

Lemma walled_rectangular : grid_rectangular ["S1"; "1G"]%string.
Proof.
  intros r1 r2 H1 H2.
  repeat (apply elem_of_cons in H1 as [->|H1]);
    repeat (apply elem_of_cons in H2 as [->|H2]);
    try done; by apply elem_of_nil in H1 || by apply elem_of_nil in H2.
Defined.

Lemma disconnected_goal_no_path_witness :
  ∃ self explored,
    __init__ ["S1"; "1G"]%string = Return self ∧
    find_shortest_path self = Return (None, explored) ∧
    ∀ x, x ∈ explored ↔ ∃ p l, x = Some p ∧ connects self (0, 0) p l.
Proof.
  eexists _, _.
  assert (∀ A B C : Prop, A → (A → B ∧ C) → A ∧ B ∧ C) as Hcut by tauto.
  apply Hcut; [vm_compute; reflexivity|]. intros Hinit.
  destruct (proj1 disconnected_goal_no_path _ _ (0, 0) Hinit walled_rectangular
              eq_refl) as (explored & Hfind & Hexp).
  - intros t l [= <-] (Hhd & Hlast & Hall & Hsteps).
    destruct l as [|p [|q l]]; [done|simpl in *; congruence|].
    injection Hhd as ->. destruct Hsteps as [Hadj _].
    apply Forall_cons in Hall as [_ Hall]. apply Forall_cons in Hall as [Hq _].
    assert (q ∈ nbrs _ (0, 0)) as Hin by (by apply elem_of_nbrs_traversable).
    by apply elem_of_nil in Hin.
  - assert (explored = {[Some (0, 0)]}) as ->.
    { vm_compute in Hfind. by injection Hfind as <-. }
    split; [vm_compute; reflexivity|]. exact Hexp.
Defined.

(** Construction never stores the same cell as start and as goal: a
    cell carries one marker. *)
Lemma constructed_start_goal g self :
  __init__ g = Return self → start self = goal self →
  start self = None ∧ goal self = None.
Proof.
  intros (_ & _ & _ & Hs & Ht)%init_Return Heq.
  destruct (start self) as [p|] eqn:Hstart; [|by rewrite <- Heq].
  rewrite <- Heq in Ht.
  apply find_position_Some in Hs as [_ Hs].
  apply find_position_Some in Ht as [_ Ht]. congruence.
Qed.

(** C6. When [self.start] equals [self.goal], [find_shortest_path]
    returns the path that holds that one position, hence no edge, and
    the explored set that holds that one position: the first item
    popped is the goal. Construction yields such a state exactly when
    the grid has neither marker, and both attributes are [None]. *)
Theorem start_equals_goal self :
  start self = goal self →
  find_shortest_path self = Return (Some [start self], {[start self]}) ∧
  length [start self] = 1%nat ∧ edge_count [start self] = 0%nat.
Proof.
  intros Heq. split; [|done].
  unfold find_shortest_path, find_shortest_path_fuel.
  replace (search_fuel self) with (S (search_fuel self - 1))
    by (unfold search_fuel; lia).
  simpl. unfold search_step. simpl.
  rewrite decide_False by apply not_elem_of_empty.
  rewrite decide_True by done.
  by rewrite (left_id_L ∅ (∪)).
Qed.

Lemma start_equals_goal_witness :
  ∃ self,
    __init__ ["00"; "00"]%string = Return self ∧
    start self = goal self ∧
    find_shortest_path self = Return (Some [start self], {[start self]}).
Proof.
  eexists. split; [vm_compute; reflexivity|].
  split; [reflexivity|].
  apply (start_equals_goal (mkGridPathfinder _ _ _ None None)). reflexivity.
Defined.

(** ** The order of finalization *)

(** The position that an iteration adds to [explored], if any. *)
Definition finalized (pq : list entry) (explored : gset position) : list position :=
  match heappop pq with
  | Some ((_, current_pos, _), _) =>
      if decide (current_pos ∈ explored) then [] else [current_pos]
  | None => []
  end.

(** The positions added to [explored] by the iterations of the loop, in
    the order of the calls of [explored.add]. *)
Fixpoint finalizations (self : GridPathfinder) (fuel : nat) (pq : list entry)
    (distances : gmap position Z) (explored : gset position) : list position :=
  match fuel with
  | O => []
  | S fuel' =>
      finalized pq explored ++
      match search_step self pq distances explored with
      | Done _ => []
      | Next pq distances explored' =>
          finalizations self fuel' pq distances explored'
      end
  end.

Lemma search_step_explored self pq d e :
  match search_step self pq d e with
  | Done (Return (_, e')) | Next _ _ e' => e' = e ∪ list_to_set (finalized pq e)
  | Done _ => True
  end.
Proof.
  unfold search_step, finalized.
  destruct (heappop pq) as [[[[cd cur] path] rest]|]; simpl.
  - destruct (decide (cur ∈ e)); simpl.
    + by rewrite (right_id_L ∅ (∪)).
    + rewrite (right_id_L ∅ (∪)).
      destruct (decide (cur = goal self)); [done|].
      destruct (get_neighbors self cur) as [ns| |]; [|done..].
      by destruct (relax cd path ns rest d).
  - by rewrite (right_id_L ∅ (∪)).
Qed.

(** No position is added to [explored] twice. *)
Lemma finalizations_NoDup self fuel pq d e :
  NoDup (finalizations self fuel pq d e) ∧
  ∀ x, x ∈ finalizations self fuel pq d e → x ∉ e.
Proof.
  revert pq d e. induction fuel as [|fuel IH]; intros pq d e; simpl.
  { split; [constructor|]. by intros x ?%elem_of_nil. }
  pose proof (search_step_explored self pq d e) as Hexp.
  assert (finalized pq e = [] ∨ ∃ x, finalized pq e = [x] ∧ x ∉ e) as Hfin.
  { unfold finalized. destruct (heappop pq) as [[[[cd cur] path] rest]|]; [|by left].
    destruct (decide (cur ∈ e)); [by left|right]. by exists cur. }
  destruct (search_step self pq d e) as [r|pq' d' e'].
  - rewrite app_nil_r.
    destruct Hfin as [->|(x & -> & Hx)].
    + split; [constructor|]. by intros x ?%elem_of_nil.
    + split; [apply NoDup_singleton|]. by intros ? ->%list_elem_of_singleton.
  - destruct (IH pq' d' e') as [Hnd Hnot].
    destruct Hfin as [Hf|(x & Hf & Hx)]; rewrite Hf in *; simpl in *; subst e'.
    + rewrite (right_id_L ∅ (∪)) in *. by split.
    + split.
      * apply NoDup_cons. split; [|done]. intros Hin.
        apply (Hnot x Hin). apply elem_of_union. right.
        apply elem_of_union. left. by apply elem_of_singleton.
      * intros y [->|Hy]%elem_of_cons; [done|].
        intros Hye. apply (Hnot y Hy). apply elem_of_union. by left.
Qed.

(** The explored set returned is the set of the positions finalized. *)
Lemma search_loop_explored self fuel pq d e path e' :
  search_loop self fuel pq d e = Return (path, e') →
  e' = e ∪ list_to_set (finalizations self fuel pq d e).
Proof.
  revert pq d e. induction fuel as [|fuel IH]; intros pq d e; simpl; [done|].
  pose proof (search_step_explored self pq d e) as Hexp.
  destruct (search_step self pq d e) as [r|pq1 d1 e1].
  - intros ->. by rewrite app_nil_r.
  - intros ->%IH. rewrite list_to_set_app_L, Hexp. by rewrite (assoc_L (∪)).
Qed.

(** The start is explored by the first iteration, and the goal when a
    path is returned. *)
Lemma search_loop_start_goal self fuel path explored :
  find_shortest_path_fuel fuel self = Return (path, explored) →
  start self ∈ explored ∧ (is_Some path → goal self ∈ explored).
Proof.
  intros Hfind.
  pose (Inv := λ (pq : list entry) (_ : gmap position Z) (e : gset position),
          start self ∈ e ∨ pq = [(0, start self, [start self])]).
  pose (Q := λ r : outcome result,
          match r with
          | Return (path, e) => start self ∈ e ∧ (is_Some path → goal self ∈ e)
          | _ => True
          end).
  assert (Q (find_shortest_path_fuel fuel self)) as HQ.
  { unfold find_shortest_path_fuel in *.
    apply (search_loop_rule self Inv Q); [| |by right|by rewrite Hfind].
    - intros pq d e r HI
        [[-> ->]|(cd & cur & p & rest & Hpop & Hcur & H)]%search_step_Done; simpl.
      + destruct HI as [?|[=]]. split; [done|]. by intros [? [=]].
      + destruct H as [[Hgoal ->]|(_ & ex & _ & ->)]; simpl; [|done].
        split.
        * apply elem_of_union. destruct HI as [? | ->]; [by left|right].
          injection Hpop as <- <- <- <-. by apply elem_of_singleton.
        * intros _. apply elem_of_union. right. by apply elem_of_singleton.
    - intros pq d e pq' d' e' HI (cd & cur & p & rest & Hpop & H)%search_step_Next.
      destruct H as [(Hin & -> & -> & ->)|(Hnin & _ & -> & _)]; unfold Inv.
      + destruct HI as [? | ->]; [by left|].
        injection Hpop as <- <- <- <-. by left.
      + left. apply elem_of_union. destruct HI as [? | ->]; [by left|right].
        injection Hpop as <- <- <- <-. by apply elem_of_singleton. }
  by rewrite Hfind in HQ.
Qed.

(** An item popped for an explored position is dropped: the iteration
    changes neither the distance map nor the explored set. *)
Lemma search_step_stale self pq d e current_dist current_pos current_path rest :
  heappop pq = Some ((current_dist, current_pos, current_path), rest) →
  current_pos ∈ e →
  search_step self pq d e = Next rest d e ∧ finalized pq e = [].
Proof.
  intros Hpop Hin. unfold search_step, finalized. rewrite Hpop.
  by rewrite !decide_True by done.
Qed.

(** C8. The explored set that [find_shortest_path] returns contains the
    start, and the goal when a path is returned. The positions added to
    the explored set during the search are pairwise distinct, and they
    are the elements of the set returned; an item popped for a position
    already explored is dropped. *)
Theorem explored_start_goal_once self path explored :
  find_shortest_path self = Return (path, explored) →
  start self ∈ explored ∧
  (is_Some path → goal self ∈ explored) ∧
  NoDup (finalizations self (search_fuel self)
           [(0, start self, [start self])] {[start self := 0]} ∅) ∧
  explored = list_to_set (finalizations self (search_fuel self)
                            [(0, start self, [start self])] {[start self := 0]} ∅) ∧
  (∀ pq d e current_dist current_pos current_path rest,
     heappop pq = Some ((current_dist, current_pos, current_path), rest) →
     current_pos ∈ e →
     search_step self pq d e = Next rest d e ∧ finalized pq e = []).
Proof.
  intros Hfind.
  destruct (search_loop_start_goal self _ _ _ Hfind) as [Hs Hg].
  split_and!; [done|done|apply finalizations_NoDup| |].
  - apply search_loop_explored in Hfind. by rewrite (left_id_L ∅ (∪)) in Hfind.
  - intros *. apply search_step_stale.
Qed.

Lemma explored_start_goal_once_witness :
  ∃ self path explored,
    __init__ ["S0"; "0G"]%string = Return self ∧
    find_shortest_path self = Return (Some path, explored) ∧
    Some (0, 0) ∈ explored ∧ Some (1, 1) ∈ explored ∧
    NoDup (finalizations self (search_fuel self)
             [(0, start self, [start self])] {[start self := 0]} ∅).
Proof.
  eexists _, _, _.
  assert (∀ A B C : Prop, A → B → (B → C) → A ∧ B ∧ C) as Hcut by tauto.
  apply Hcut; [vm_compute; reflexivity | vm_compute; reflexivity |].
  intros Hfind.
  destruct (explored_start_goal_once _ _ _ Hfind) as (Hs & Hg & Hnd & _).
  split_and!; [exact Hs | by apply Hg | exact Hnd].
Defined.

(** ** The arrangement of the frontier is not observable *)

Lemma relax_Permutation cd path ns pq1 pq2 d :
  pq1 ≡ₚ pq2 →
  (relax cd path ns pq1 d).1 ≡ₚ (relax cd path ns pq2 d).1 ∧
  (relax cd path ns pq1 d).2 = (relax cd path ns pq2 d).2.
Proof.
  revert pq1 pq2 d. induction ns as [|n ns IH]; intros pq1 pq2 d Hperm; simpl.
  - done.
  - destruct (shorter (cd + 1) (d !! Some n)); apply IH; [|done].
    unfold heappush. by constructor.
Qed.

Lemma search_loop_layout self fuel pq pq' d e :
  pq ≡ₚ pq' → search_loop self fuel pq d e = search_loop self fuel pq' d e.
Proof.
  revert pq pq' d e. induction fuel as [|fuel IH]; intros pq pq' d e Hperm; [done|].
  simpl. unfold search_step.
  destruct (heappop pq) as [[[[cd cur] path] rest]|] eqn:Hpop.
  - destruct (heappop_Permutation _ _ _ _ Hperm Hpop) as (rest' & -> & Hrest).
    destruct (decide (cur ∈ e)); [by apply IH|].
    destruct (decide (cur = goal self)); [done|].
    destruct (get_neighbors self cur) as [ns| |]; [|done..].
    destruct (relax_Permutation cd path ns rest rest' d Hrest) as [H1 H2].
    destruct (relax cd path ns rest d) as [pq1 d1].
    destruct (relax cd path ns rest' d) as [pq2 d2]. simpl in *. subst d2.
    by apply IH.
  - apply heappop_None in Hpop as ->. apply Permutation_nil in Hperm as ->.
    done.
Qed.

(** C10. [find_shortest_path] is deterministic. Two instances
    constructed from the same grid return the same result: the same
    list of cells and the same explored set. The order of frontier items
    is a total order, so the least item of a frontier is unique, and what
    the loop returns does not depend on how the frontier is arranged. *)
Theorem find_shortest_path_deterministic :
  (∀ (g : list string) self1 self2 r1 r2,
     __init__ g = Return self1 → __init__ g = Return self2 →
     find_shortest_path self1 = Return r1 →
     find_shortest_path self2 = Return r2 →
     r1.1 = r2.1 ∧ r1.2 = r2.2) ∧
  ((∀ a b, entry_compare a b = Eq ↔ a = b) ∧
   (∀ a b, entry_compare b a = CompOpp (entry_compare a b)) ∧
   (∀ a b c k, entry_compare a b = k → entry_compare b c = k →
               entry_compare a c = k)) ∧
  (∀ pq pq' m rest,
     pq ≡ₚ pq' → heappop pq = Some (m, rest) →
     ∃ rest', heappop pq' = Some (m, rest') ∧ rest ≡ₚ rest') ∧
  (∀ self fuel pq pq' d e,
     pq ≡ₚ pq' →
     search_loop self fuel pq d e = search_loop self fuel pq' d e).
Proof.
  split_and!.
  - intros g self1 self2 r1 r2 H1 H2 Hr1 Hr2.
    assert (self1 = self2) as -> by congruence.
    assert (r1 = r2) as -> by congruence. done.
  - apply cmp_eq.
  - apply cmp_opp.
  - apply cmp_trans.
  - apply heappop_Permutation.
  - apply search_loop_layout.
Qed.

Lemma find_shortest_path_deterministic_witness :
  let a : entry := (1, Some (1, 0), [Some (0, 0); Some (1, 0)]) in
  let b : entry := (1, Some (0, 1), [Some (0, 0); Some (0, 1)]) in
  ∃ rest rest',
    heappop [a; b] = Some (b, rest) ∧ heappop [b; a] = Some (b, rest') ∧
    rest ≡ₚ rest'.
Proof.
  intros a b.
  destruct find_shortest_path_deterministic as (_ & _ & Hpop & _).
  destruct (Hpop [a; b] [b; a] b [a]) as (rest' & Hpop' & Hperm).
  - apply perm_swap.
  - reflexivity.
  - by exists [a], rest'.
Defined.

(** ** The states of the loop *)

(** The states in which the loop tests [while pq:]. *)
Inductive search_state (self : GridPathfinder)
  : list entry → gmap position Z → gset position → Prop :=
| search_state_init :
    search_state self [(0, start self, [start self])] {[start self := 0]} ∅
| search_state_next pq d e pq' d' e' :
    search_state self pq d e →
    search_step self pq d e = Next pq' d' e' →
    search_state self pq' d' e'.

(** Distances are never negative. *)
Lemma search_state_nonneg self pq d e :
  search_state self pq d e →
  (∀ x, x ∈ pq → 0 ≤ x.1.1) ∧ (∀ k v, d !! k = Some v → 0 ≤ v).
Proof.
  induction 1 as [|pq d e pq' d' e' Hst [IHpq IHd] Hstep].
  - split.
    + by intros x ->%list_elem_of_singleton.
    + by intros k v [_ <-]%lookup_singleton_Some.
  - apply search_step_Next in Hstep as (cd & cur & path & rest & Hpop & H).
    assert (∀ x, x ∈ rest → x ∈ pq) as Hsub.
    { intros x Hx. rewrite (heappop_elem_of _ _ _ x Hpop). by right. }
    assert (0 ≤ cd) as Hcd.
    { apply (IHpq (cd, cur, path)). rewrite (heappop_elem_of _ _ _ _ Hpop). by left. }
    destruct H as [(_ & -> & -> & _)|(_ & _ & _ & p & -> & _ & Hrelax)].
    + split; [|done]. intros x Hx. by apply IHpq, Hsub.
    + destruct (relax_spec _ _ _ _ _ _ _ Hrelax) as (D1 & D2 & Hpq & _).
      split.
      * intros x [Hx|(q & _ & _ & ->)]%Hpq; [by apply IHpq, Hsub|simpl; lia].
      * intros [q|] v Hv.
        -- destruct (relax_lookup _ _ _ _ _ _ _ Hrelax q) as [(_ & _ & Hq)|[_ Hq]].
           ++ assert (v = cd + 1) as -> by congruence. lia.
           ++ apply (IHd (Some q)). congruence.
        -- rewrite D2 in Hv by done. by eapply IHd.
Qed.

(** C5. On a rectangular grid with both markers [find_shortest_path]
    terminates: the loop leaves by itself within [search_fuel]
    iterations and returns a result, the same for any larger number of
    iterations allowed. Every push strictly lowers the pushed position's
    entry in the distance map, an absent entry counting as infinite, and
    the entries are never negative. *)
Theorem find_shortest_path_terminates (g : list string) :
  grid_rectangular g → contains g "S"%char → contains g "G"%char →
  ∃ self r,
    __init__ g = Return self ∧
    find_shortest_path self = Return r ∧
    (∀ fuel, (search_fuel self ≤ fuel)%nat →
       find_shortest_path_fuel fuel self = Return r) ∧
    (∀ pq d e, search_state self pq d e → ∀ k v, d !! k = Some v → 0 ≤ v) ∧
    (∀ current_dist current_path neighbors pq d pq' d' x,
       relax current_dist current_path neighbors pq d = (pq', d') →
       x ∈ pq' → x ∉ pq →
       ∃ q, x = (current_dist + 1, Some q, current_path ++ [Some q]) ∧
            q ∈ neighbors ∧
            d' !! Some q = Some (current_dist + 1) ∧
            ∀ old, d !! Some q = Some old → current_dist + 1 < old).
Proof.
  intros Hrect HS HG.
  assert (g ≠ []) as Hne.
  { intros ->. destruct HS as (row & Hrow & _). by apply elem_of_nil in Hrow. }
  destruct (init_rectangular g Hne Hrect) as (self & Hinit & _).
  destruct (init_markers g self Hinit Hrect) as (_ & HS' & _).
  apply HS' in HS as [s Hs].
  assert (∃ r, find_shortest_path self = Return r) as [r Hr].
  { destruct (search_rectangular g self s Hinit Hrect Hs)
      as [(t & l & explored & _ & Hfind & _)|(explored & Hfind & _)];
      by eexists. }
  exists self, r. split_and!; [done|done| | |].
  - intros fuel Hfuel.
    destruct (find_shortest_path_fuel_enough self fuel Hfuel) as [_ ->]. done.
  - intros pq d e Hst. by apply (search_state_nonneg self pq d e).
  - intros *. apply relax_push_decreases.
Qed.

Lemma find_shortest_path_terminates_witness :
  ∃ self r,
    __init__ ["S0"; "0G"]%string = Return self ∧
    find_shortest_path self = Return r ∧
    (∀ fuel, (search_fuel self ≤ fuel)%nat →
       find_shortest_path_fuel fuel self = Return r).
Proof.
  destruct (find_shortest_path_terminates ["S0"; "0G"]%string
              example_rectangular example_contains_S example_contains_G)
    as (self & r & Hinit & Hfind & Hfuel & _).
  by exists self, r.
Defined.

(** ** Grids without blocked cells *)

Definition manhattan (p q : pos) : Z :=
  Z.abs (p.1 - q.1) + Z.abs (p.2 - q.2).

(** No cell of the grid carries the marker ['1']. *)
Definition no_blocked (g : list string) : Prop :=
  ∀ row, row ∈ g → "1"%char ∉ list_ascii_of_string row.

(** A walk cannot be shorter than the Manhattan distance it covers. *)
Lemma walk_manhattan self s l p :
  walk self s l p → manhattan s p ≤ Z.of_nat (length l) - 1.
Proof.
  induction 1 as [|l p q Hw IH Hq].
  - unfold manhattan; simpl. lia.
  - apply elem_of_nbrs in Hq as [Hadj _].
    rewrite length_app; simpl.
    unfold manhattan, orth_adjacent in *. lia.
Qed.

(** Where every cell in bounds is traversable, a walk extends to any
    cell in bounds by as many steps as the Manhattan distance. *)
Lemma open_grid_walk self s t :
  (∀ q, in_bounds self q = true → traversable self q) →
  in_bounds self t = true →
  ∀ (n : nat) p l,
    in_bounds self p = true → manhattan p t = Z.of_nat n → walk self s l p →
    ∃ l', walk self s l' t ∧ length l' = (length l + n)%nat.
Proof.
  intros Hopen Ht. induction n as [|n IH]; intros p l Hp Hn Hw.
  - assert (p = t) as ->.
    { destruct p, t. unfold manhattan in Hn; simpl in Hn. f_equal; lia. }
    exists l. split; [done|lia].
  - assert (∃ q, orth_adjacent p q ∧ in_bounds self q = true ∧
                 manhattan q t = Z.of_nat n) as (q & Hadj & Hq & Hqn).
    { destruct p as [pr pc], t as [tr tc].
      unfold manhattan, orth_adjacent, in_bounds in *; simpl in *.
      destruct (Z_lt_dec pr tr); [exists (pr + 1, pc); simpl; lia|].
      destruct (Z_lt_dec tr pr); [exists (pr - 1, pc); simpl; lia|].
      destruct (Z_lt_dec pc tc); [exists (pr, pc + 1); simpl; lia|].
      exists (pr, pc - 1); simpl; lia. }
    assert (walk self s (l ++ [q]) q) as Hw'.
    { apply walk_step with p; [done|].
      apply elem_of_nbrs_traversable. split; [done|]. by apply Hopen. }
    destruct (IH q (l ++ [q]) Hq Hqn Hw') as (l' & Hl' & Hlen).
    exists l'. split; [done|]. rewrite Hlen, length_app. simpl. lia.
Qed.

(** C7. On a rectangular grid without ['1'] cells that has an ['S'] and
    a ['G'] cell, the path that [find_shortest_path] returns has as many
    edges as the Manhattan distance between the start and the goal.
    The start and the goal are the positions that construction finds;
    they are the only ones when each marker occurs once. *)
Theorem open_grid_manhattan (g : list string) :
  grid_rectangular g → no_blocked g →
  contains g "S"%char → contains g "G"%char →
  ∃ self s t l explored,
    __init__ g = Return self ∧ start self = Some s ∧ goal self = Some t ∧
    find_shortest_path self = Return (Some (Some <$> l), explored) ∧
    Z.of_nat (edge_count l) = manhattan s t.
Proof.
  intros Hrect Hopen HS HG.
  assert (g ≠ []) as Hne.
  { intros ->. destruct HS as (row & Hrow & _). by apply elem_of_nil in Hrow. }
  destruct (init_rectangular g Hne Hrect) as (self & Hinit & Hrect').
  destruct (init_markers g self Hinit Hrect) as (_ & HS' & HG').
  destruct (init_Return g self Hinit) as (Hg & _ & _ & _ & Hfg).
  apply HS' in HS as [s Hs]. apply HG' in HG as [t Ht].
  assert (∀ q, in_bounds self q = true → traversable self q) as Hall.
  { intros q Hq. split; [done|].
    destruct (cell_rectangular self q Hrect' Hq) as [c Hc].
    exists c. split; [unfold marker; by rewrite Hc|]. intros ->.
    assert (contains g "1"%char) as (row & Hrow & H1).
    { apply (contains_marker g self _ Hg Hrect'). exists q.
      split; [done|]. unfold marker. by rewrite Hc. }
    by apply (Hopen row). }
  assert (in_bounds self t = true) as Hbt.
  { rewrite Ht in Hfg. by apply find_position_Some in Hfg as [? _]. }
  assert (in_bounds self s = true) as Hbs.
  { by destruct (start_traversable g self s Hinit Hs). }
  assert (0 ≤ manhattan s t) as Hnn by (unfold manhattan; lia).
  destruct (open_grid_walk self s t Hall Hbt (Z.to_nat (manhattan s t)) s [s]
              Hbs) as (l0 & Hl0 & Hlen0); [lia|constructor|].
  destruct (search_rectangular g self s Hinit Hrect Hs)
    as [(t' & l & explored & Ht' & Hfind & Hl & Hmin)
       |(explored & Hfind & Hexp & Hgoal)].
  - assert (t' = t) as -> by congruence.
    exists self, s, t, l, explored. split_and!; [done..|].
    pose proof (walk_manhattan self s l t (connects_walk _ _ _ _ Hl)) as Hlow.
    specialize (Hmin l0 (walk_connects _ _ _ _ (Hall s Hbs) Hl0)).
    unfold edge_count. simpl in Hlen0. lia.
  - exfalso. apply Hgoal. rewrite Ht. apply Hexp.
    exists t, l0. split; [done|]. by apply walk_connects; [apply Hall|].
Qed.

Lemma example_no_blocked : no_blocked ["S0"; "0G"]%string.
Proof.
  intros row Hrow.
  repeat (apply elem_of_cons in Hrow as [->|Hrow]);
    [| |by apply elem_of_nil in Hrow]; simpl;
    intros H; repeat (apply elem_of_cons in H as [?|H]; [done|]);
    by apply elem_of_nil in H.
Defined.

Lemma open_grid_manhattan_witness :
  ∃ self l explored,
    __init__ ["S0"; "0G"]%string = Return self ∧
    find_shortest_path self = Return (Some (Some <$> l), explored) ∧
    Z.of_nat (edge_count l) = manhattan (0, 0) (1, 1).
Proof.
  destruct (open_grid_manhattan ["S0"; "0G"]%string example_rectangular
              example_no_blocked example_contains_S example_contains_G)
    as (self & s & t & l & explored & Hinit & Hs & Ht & Hfind & Hlen).
  exists self, l, explored. split_and!; [done..|].
  vm_compute in Hinit. injection Hinit as <-.
  injection Hs as <-. injection Ht as <-. exact Hlen.
Defined.

(** ** Grids with a missing marker *)

(** C2, counterexample. On the grid ["S"], which has no ['G'], the
    search does not report an empty explored set: it explores the start.
    On the grid ["G"], which has no ['S'], the search does not complete:
    [get_neighbors] raises [TypeError] on the start [None]. *)
Lemma missing_marker_counterexample :
  (¬ contains ["S"]%string "G"%char ∧
   ∃ self,
     __init__ ["S"]%string = Return self ∧ goal self = None ∧
     find_shortest_path self = Return (None, {[Some (0, 0)]}) ∧
     find_shortest_path self ≠ Return (None, ∅)) ∧
  (¬ contains ["G"]%string "S"%char ∧
   ∃ self,
     __init__ ["G"]%string = Return self ∧ start self = None ∧
     find_shortest_path self = Raise TypeError).
Proof.
  split; split.
  - intros (row & ->%list_elem_of_singleton & Hc). simpl in Hc.
    by apply list_elem_of_singleton in Hc.
  - eexists. split; [vm_compute; reflexivity|].
    split; [reflexivity|]. split; [vm_compute; reflexivity|].
    vm_compute. discriminate.
  - intros (row & ->%list_elem_of_singleton & Hc). simpl in Hc.
    by apply list_elem_of_singleton in Hc.
  - eexists. split; [vm_compute; reflexivity|].
    split; [reflexivity|]. vm_compute. reflexivity.
Qed.

(** C2, amended. On a rectangular grid with at least one row in which
    ['S'] or ['G'] is absent, construction completes and the attribute
    of an absent marker is [None]. With ['S'] present and ['G'] absent
    the search raises nothing and returns no path together with the set
    of cells reachable from the start, which contains the start. With
    both absent it returns the list [[None]] and the set that holds
    [None]. *)
Theorem missing_marker (g : list string) :
  g ≠ [] → grid_rectangular g →
  ¬ contains g "S"%char ∨ ¬ contains g "G"%char →
  ∃ self,
    __init__ g = Return self ∧
    (¬ contains g "S"%char → start self = None) ∧
    (¬ contains g "G"%char → goal self = None) ∧
    (contains g "S"%char →
     ∃ s explored,
       start self = Some s ∧
       find_shortest_path self = Return (None, explored) ∧
       Some s ∈ explored ∧
       ∀ x, x ∈ explored ↔ ∃ p l, x = Some p ∧ connects self s p l) ∧
    (¬ contains g "S"%char → ¬ contains g "G"%char →
     find_shortest_path self = Return (Some [None], {[None]})).
Proof.
  intros Hne Hrect Habsent.
  destruct (init_rectangular g Hne Hrect) as (self & Hinit & _).
  destruct (init_markers g self Hinit Hrect) as (_ & HS & HG).
  assert (¬ contains g "S"%char → start self = None) as HnS.
  { intros Hn. destruct (start self) eqn:E; [|done].
    destruct Hn. apply HS. by eexists. }
  assert (¬ contains g "G"%char → goal self = None) as HnG.
  { intros Hn. destruct (goal self) eqn:E; [|done].
    destruct Hn. apply HG. by eexists. }
  exists self. split_and!; [done..| |].
  - intros [s Hs]%HS. destruct Habsent as [Hn|Hn]; [destruct Hn; apply HS; by eexists|].
    specialize (HnG Hn).
    destruct (search_rectangular g self s Hinit Hrect Hs)
      as [(t & _ & _ & Ht & _)|(explored & Hfind & Hexp & _)]; [congruence|].
    exists s, explored. split_and!; [done..| |done].
    apply Hexp. exists s, [s]. split; [done|].
    apply walk_connects; [by eapply start_traversable|constructor].
  - intros Hs Ht. rewrite find_shortest_path_None by auto.
    by rewrite decide_True by auto.
Qed.

Lemma single_row_rectangular (r : string) : grid_rectangular [r].
Proof.
  by intros r1 r2 ->%list_elem_of_singleton ->%list_elem_of_singleton.
Defined.

Lemma missing_marker_witness :
  ∃ self explored,
    __init__ ["S00"]%string = Return self ∧ goal self = None ∧
    find_shortest_path self = Return (None, explored) ∧
    Some (0, 0) ∈ explored.
Proof.
  assert (¬ contains ["S00"]%string "G"%char) as HG.
  { intros (row & ->%list_elem_of_singleton & Hc). simpl in Hc.
    repeat (apply elem_of_cons in Hc as [?|Hc]; [done|]).
    by apply elem_of_nil in Hc. }
  assert (contains ["S00"]%string "S"%char) as HS.
  { exists "S00"%string. split; [by apply list_elem_of_singleton|].
    simpl. apply elem_of_cons. by left. }
  destruct (missing_marker ["S00"]%string) as (self & Hinit & _ & Hgoal & H & _);
    [done|apply single_row_rectangular|by right|].
  destruct (H HS) as (s & explored & Hs & Hfind & Hin & _).
  exists self, explored. split_and!; [done|by apply Hgoal|done|].
  vm_compute in Hinit. injection Hinit as <-. by injection Hs as <-.
Defined.


(** * Further properties of the functions *)

(** ** [find_position] returns the first match *)

(** A row scanned without a match held a readable cell other than
    [char] at each column. *)
Lemma find_in_row_None self char i j n :
  find_in_row self char i j n = Return None →
  ∀ j', j ≤ j' < j + Z.of_nat n →
    ∃ c, cell self i j' = Return c ∧ c ≠ char.
Proof.
  revert j. induction n as [|n IH]; intros j; simpl; [lia|].
  destruct (cell self i j) as [c| |] eqn:Hc; simpl; [|done..].
  destruct (decide (c = char)) as [->|Hne]; [done|].
  intros Hnone j' Hj'. destruct (decide (j' = j)) as [->|].
  - by exists c.
  - apply (IH (j + 1)); [done|lia].
Qed.

Lemma find_in_row_first self char i j n p :
  find_in_row self char i j n = Return (Some p) →
  ∃ j', p = (i, j') ∧ j ≤ j' < j + Z.of_nat n ∧
        cell self i j' = Return char ∧
        ∀ j'', j ≤ j'' < j' → ∃ c, cell self i j'' = Return c ∧ c ≠ char.
Proof.
  revert j. induction n as [|n IH]; intros j; simpl; [done|].
  destruct (cell self i j) as [c| |] eqn:Hc; simpl; [|done..].
  destruct (decide (c = char)) as [->|Hne].
  - intros [= <-]. exists j. split_and!; [done|lia..|done|lia].
  - intros (j' & -> & Hj' & Hc' & Hbefore)%IH.
    exists j'. split_and!; [done|lia..|done|].
    intros j'' Hj''. destruct (decide (j'' = j)) as [->|].
    + by exists c.
    + apply Hbefore. lia.
Qed.

Lemma find_in_rows_first self char i n p :
  find_in_rows self char i n = Return (Some p) →
  ∃ i' j', p = (i', j') ∧ i ≤ i' < i + Z.of_nat n ∧ 0 ≤ j' < cols self ∧
           cell self i' j' = Return char ∧
           ∀ i'' j'', 0 ≤ j'' < cols self →
             (i ≤ i'' < i' ∨ (i'' = i' ∧ j'' < j')) →
             ∃ c, cell self i'' j'' = Return c ∧ c ≠ char.
Proof.
  revert i. induction n as [|n IH]; intros i; simpl; [done|].
  destruct (find_in_row self char i 0 (Z.to_nat (cols self))) as [[q|]| |] eqn:Hrow;
    simpl; [| |done..].
  - intros [= <-].
    apply find_in_row_first in Hrow as (j' & -> & Hj' & Hc & Hbefore).
    exists i, j'. split_and!; [done|lia..|done|].
    intros i'' j'' Hj'' [?|[-> ?]]; [lia|]. apply Hbefore. lia.
  - intros (i' & j' & -> & Hi' & Hj' & Hc & Hbefore)%IH.
    exists i', j'. split_and!; [done|lia..|done|].
    intros i'' j'' Hj'' Hlt. destruct (decide (i'' = i)) as [->|].
    + apply (find_in_row_None _ _ _ _ _ Hrow). lia.
    + apply Hbefore; [done|lia].
Qed.

(** X1. The position that [find_position] returns holds the character,
    and no cell before it in row-major order does: with several
    matches the first one wins. The attributes [start] and [goal] of a
    constructed instance are such first matches of ['S'] and ['G']. *)
Theorem find_position_first_match :
  (∀ self char i j,
     find_position self char = Return (Some (i, j)) →
     in_bounds self (i, j) = true ∧ marker self (i, j) = Some char ∧
     ∀ i' j', in_bounds self (i', j') = true →
       marker self (i', j') = Some char →
       i < i' ∨ (i = i' ∧ j ≤ j')) ∧
  (∀ (g : list string) self,
     __init__ g = Return self →
     find_position self "S"%char = Return (start self) ∧
     find_position self "G"%char = Return (goal self)).
Proof.
  split.
  - intros self char i j Hfind.
    destruct (find_position_Some _ _ _ Hfind) as [Hb Hm].
    split_and!; [done..|].
    apply find_in_rows_first in Hfind
      as (i0 & j0 & [= <- <-] & _ & _ & _ & Hbefore).
    intros i' j' Hb' Hm'. unfold in_bounds in Hb'; simpl in Hb'.
    destruct (decide (i < i' ∨ (i = i' ∧ j ≤ j'))) as [|Hn]; [done|exfalso].
    destruct (Hbefore i' j') as (c & Hc & Hne); [lia|lia|].
    unfold marker in Hm'; simpl in Hm'. rewrite Hc in Hm'. congruence.
  - intros g self (_ & _ & _ & Hs & Ht)%init_Return. done.
Qed.

Lemma find_position_first_match_witness :
  ∃ self,
    __init__ ["0S"; "SG"; "GS"]%string = Return self ∧
    start self = Some (0, 1) ∧ goal self = Some (1, 1) ∧
    ∀ i' j', in_bounds self (i', j') = true →
      marker self (i', j') = Some "S"%char →
      0 < i' ∨ (0 = i' ∧ 1 ≤ j').
Proof.
  eexists. split; [vm_compute; reflexivity|].
  split; [reflexivity|]. split; [reflexivity|].
  destruct find_position_first_match as [Hfirst _].
  eapply Hfirst. vm_compute. reflexivity.
Defined.

(** ** [get_neighbors] *)

Lemma orth_adjacent_sym p q : orth_adjacent p q → orth_adjacent q p.
Proof. unfold orth_adjacent. lia. Qed.

Lemma candidates_NoDup p : NoDup (candidates p directions).
Proof.
  destruct p as [r c]. unfold candidates, directions; simpl.
  repeat (apply NoDup_cons; split;
          [rewrite ?elem_of_cons, elem_of_nil; intros H;
           repeat (destruct H as [H|H]; [injection H; lia|]); done|]).
  constructor.
Qed.

(** X2. When [get_neighbors] returns for a position, it returns
    exactly the cells one orthogonal step away that are in bounds and
    not ['1'], each once, at most four, in the order north, south, west,
    east. It returns on every rectangular grid, for positions out of
    bounds too, and raises [TypeError] for [None]. Steps between
    traversable cells can be taken back. *)
Theorem get_neighbors_exact self :
  (∀ p ns,
     get_neighbors self (Some p) = Return ns →
     (∀ q, q ∈ ns ↔ orth_adjacent p q ∧ traversable self q) ∧
     NoDup ns ∧ (length ns ≤ 4)%nat ∧
     sublist ns [(p.1 - 1, p.2); (p.1 + 1, p.2); (p.1, p.2 - 1); (p.1, p.2 + 1)]) ∧
  (rectangular self → ∀ p, ∃ ns, get_neighbors self (Some p) = Return ns) ∧
  get_neighbors self None = Raise TypeError ∧
  (∀ p q ns ns',
     get_neighbors self (Some p) = Return ns →
     get_neighbors self (Some q) = Return ns' →
     traversable self p → q ∈ ns → p ∈ ns').
Proof.
  split_and!.
  - intros p ns ->%get_neighbors_Return. split_and!.
    + intros q. apply elem_of_nbrs_traversable.
    + apply NoDup_filter, candidates_NoDup.
    + apply nbrs_length.
    + unfold nbrs. etrans; [apply sublist_filter|].
      replace (candidates p directions)
        with [(p.1 - 1, p.2); (p.1 + 1, p.2); (p.1, p.2 - 1); (p.1, p.2 + 1)];
        [done|].
      destruct p as [r c]. unfold candidates, directions; simpl.
      repeat (f_equal; try lia).
  - intros Hrect p. exists (nbrs self p). by apply get_neighbors_rectangular.
  - done.
  - intros p q ns ns' ->%get_neighbors_Return ->%get_neighbors_Return Hp
      [Hadj _]%elem_of_nbrs_traversable.
    apply elem_of_nbrs_traversable. split; [by apply orth_adjacent_sym|done].
Qed.

Lemma get_neighbors_exact_witness :
  ∃ self,
    __init__ ["S0"; "1G"]%string = Return self ∧
    get_neighbors self (Some (0, 1)) = Return [(1, 1); (0, 0)] ∧
    ∀ q, q ∈ [(1, 1); (0, 0)] ↔ orth_adjacent (0, 1) q ∧ traversable self q.
Proof.
  eexists. split; [vm_compute; reflexivity|].
  split; [vm_compute; reflexivity|].
  match goal with
  | |- context [traversable ?s] =>
      destruct (get_neighbors_exact s) as [Hspec _]
  end.
  destruct (Hspec (0, 1) [(1, 1); (0, 0)]) as [H _]; [vm_compute; reflexivity|].
  exact H.
Defined.


(** ** The cells that are read *)

(** Two instances with the same dimensions whose cells within bounds
    read alike. *)
Definition reads_alike (self self' : GridPathfinder) : Prop :=
  rows self = rows self' ∧ cols self = cols self' ∧
  ∀ i j, in_bounds self (i, j) = true → cell self i j = cell self' i j.

Lemma find_in_row_alike self self' char i j n :
  reads_alike self self' → 0 ≤ i < rows self → 0 ≤ j →
  j + Z.of_nat n ≤ cols self →
  find_in_row self char i j n = find_in_row self' char i j n.
Proof.
  intros (Hr & Hc & Hcell) Hi. revert j.
  induction n as [|n IH]; intros j Hj Hn; simpl; [done|].
  rewrite <- Hcell by (unfold in_bounds; simpl; lia).
  destruct (cell self i j) as [c| |]; simpl; [|done..].
  destruct (decide (c = char)); [done|]. apply IH; lia.
Qed.

Lemma find_position_alike self self' char :
  reads_alike self self' →
  find_position self char = find_position self' char.
Proof.
  intros Halike. pose proof Halike as (Hr & Hc & _).
  unfold find_position. rewrite <- Hr.
  assert (∀ n i, 0 ≤ i → i + Z.of_nat n ≤ rows self →
            find_in_rows self char i n = find_in_rows self' char i n) as H.
  { induction n as [|n IH]; intros i Hi Hn; simpl; [done|].
    rewrite <- Hc.
    destruct (decide (0 ≤ cols self)) as [Hcols|Hcols].
    - rewrite <- (find_in_row_alike self self') by (done || lia).
      destruct (find_in_row self char i 0 (Z.to_nat (cols self))) as [[q|]| |];
        simpl; [done| |done..].
      apply IH; lia.
    - replace (Z.to_nat (cols self)) with 0%nat by lia. simpl. apply IH; lia. }
  destruct (decide (0 ≤ rows self)).
  - apply H; lia.
  - by replace (Z.to_nat (rows self)) with 0%nat by lia.
Qed.

Lemma neighbors_loop_alike self self' row col dirs acc :
  reads_alike self self' →
  neighbors_loop self row col dirs acc = neighbors_loop self' row col dirs acc.
Proof.
  intros (Hr & Hc & Hcell). revert acc.
  induction dirs as [|[dr dc] dirs IH]; intros acc; simpl; [done|].
  rewrite <- Hr, <- Hc.
  destruct (_ && _ && _ && _) eqn:Hb; [|apply IH].
  rewrite <- Hcell by done.
  destruct (cell self (row + dr) (col + dc)) as [c| |]; simpl; [|done..].
  destruct (decide (c ≠ "1"%char)); apply IH.
Qed.

Lemma get_neighbors_alike self self' p :
  reads_alike self self' → get_neighbors self p = get_neighbors self' p.
Proof.
  intros Halike. destruct p as [[row col]|]; [|done].
  by apply neighbors_loop_alike.
Qed.

Lemma search_loop_alike self self' fuel pq d e :
  reads_alike self self' → goal self = goal self' →
  search_loop self fuel pq d e = search_loop self' fuel pq d e.
Proof.
  intros Halike Hgoal. revert pq d e.
  induction fuel as [|fuel IH]; intros pq d e; simpl; [done|].
  unfold search_step. rewrite <- Hgoal.
  destruct (heappop pq) as [[[[cd cur] path] rest]|]; [|done].
  destruct (decide (cur ∈ e)); [apply IH|].
  destruct (decide (cur = goal self)); [done|].
  rewrite <- (get_neighbors_alike self self') by done.
  destruct (get_neighbors self cur) as [ns| |]; [|done..].
  destruct (relax cd path ns rest d). apply IH.
Qed.

Lemma find_shortest_path_alike self self' :
  reads_alike self self' →
  start self = start self' → goal self = goal self' →
  find_shortest_path self = find_shortest_path self'.
Proof.
  intros Halike Hs Hg. pose proof Halike as (Hr & Hc & _).
  unfold find_shortest_path, find_shortest_path_fuel, search_fuel.
  rewrite <- Hr, <- Hc, <- Hs. by apply search_loop_alike.
Qed.

(** X3. The functions read the grid only within [rows] and [cols]: two
    instances with the same attributes whose cells within bounds read
    alike give the same results, whatever lies beyond. *)
Theorem only_cells_in_bounds_are_read self self' :
  rows self = rows self' → cols self = cols self' →
  start self = start self' → goal self = goal self' →
  (∀ i j, in_bounds self (i, j) = true → cell self i j = cell self' i j) →
  (∀ char, find_position self char = find_position self' char) ∧
  (∀ p, get_neighbors self p = get_neighbors self' p) ∧
  find_shortest_path self = find_shortest_path self'.
Proof.
  intros Hr Hc Hs Hg Hcell.
  assert (reads_alike self self') as Halike by done.
  split_and!.
  - intros char. by apply find_position_alike.
  - intros p. by apply get_neighbors_alike.
  - by apply find_shortest_path_alike.
Qed.

Lemma only_cells_in_bounds_are_read_witness :
  let self := {| grid := [["S"; "0"]; ["0"; "G"]]%char; rows := 2; cols := 2;
                 start := Some (0, 0); goal := Some (1, 1) |} in
  let self' := {| grid := [["S"; "0"; "1"]; ["0"; "G"]; ["1"]]%char;
                  rows := 2; cols := 2;
                  start := Some (0, 0); goal := Some (1, 1) |} in
  find_shortest_path self = find_shortest_path self'.
Proof.
  intros self self'.
  apply (only_cells_in_bounds_are_read self self'); try reflexivity.
  intros i j Hb. unfold in_bounds in Hb; simpl in Hb.
  assert ((i = 0 ∨ i = 1) ∧ (j = 0 ∨ j = 1)) as [[-> | ->] [-> | ->]] by lia;
    reflexivity.
Defined.


(** ** Rows longer than the first *)

(** The length of the first row, which construction stores as [cols]. *)
Definition first_width (g : list string) : nat :=
  String.length (hd EmptyString g).

(** The grid with every row cut to the length of the first. *)
Definition crop_grid (g : list string) : list string :=
  (λ r, substring 0 (first_width g) r) <$> g.

Definition no_short_row (g : list string) : Prop :=
  Forall (λ r, (first_width g ≤ String.length r)%nat) g.

Lemma list_ascii_of_substring n r :
  list_ascii_of_string (substring 0 n r) = take n (list_ascii_of_string r).
Proof.
  revert n. induction r as [|c r IH]; intros [|n]; simpl; try done.
  by rewrite IH.
Qed.

Lemma getitem_take {A : Type} (l : list A) (n : nat) j :
  (n ≤ length l)%nat → 0 ≤ j < Z.of_nat n →
  getitem (take n l) j = getitem l j.
Proof.
  intros Hn Hj. rewrite !getitem_nonneg by lia.
  rewrite lookup_take_lt by lia. done.
Qed.

Lemma rectangular_no_IndexError g self :
  __init__ g = Return self → rectangular self →
  find_shortest_path self ≠ Raise IndexError.
Proof.
  intros Hinit Hrect. destruct (start self) as [s|] eqn:Hstart.
  - pose proof (find_shortest_path_post self s Hstart) as Hpost.
    intros Heq. rewrite Heq in Hpost. by apply Hpost.
  - rewrite find_shortest_path_None by done. by destruct (decide _).
Qed.

Lemma init_crop g :
  g ≠ [] → no_short_row g →
  ∃ self self',
    __init__ g = Return self ∧ __init__ (crop_grid g) = Return self' ∧
    rectangular self' ∧ start self = start self' ∧ goal self = goal self' ∧
    reads_alike self self'.
Proof.
  intros Hne Hwide. destruct g as [|r0 g0]; [done|].
  set (g := r0 :: g0) in *. set (n := first_width g).
  assert (n = String.length r0) as Hn by done.
  unfold __init__. rewrite !getitem_nonneg by done.
  unfold crop_grid. fold n. simpl.
  set (self0 := mkGridPathfinder (list_ascii_of_string r0 :: _) _ _ None None).
  set (self0' := mkGridPathfinder (list_ascii_of_string (substring 0 n r0) :: _)
                   _ _ None None).
  assert (∀ l : list string,
            length (list_fmap _ _ (λ r, substring 0 n r) l) = length l) as Hlen.
  { intros l. apply (length_fmap (λ r, substring 0 n r)). }
  assert (rows self0 = rows self0') as Hr.
  { simpl. rewrite !length_map, ?Hlen; done. }
  assert (cols self0 = cols self0') as Hc.
  { simpl. rewrite list_ascii_of_substring, length_take.
    rewrite !length_list_ascii_of_string. lia. }
  assert (grid self0 = list_ascii_of_string <$> g) as Hg by done.
  assert (grid self0' = take n <$> grid self0) as Hg'.
  { simpl. rewrite list_ascii_of_substring. f_equal.
    rewrite <- !list_fmap_compose. apply list_fmap_ext.
    intros ? r _. simpl. apply list_ascii_of_substring. }
  assert (rectangular self0') as Hrect0.
  { split; [simpl; rewrite !length_map, ?Hlen; done|].
    rewrite Hg', Hg. rewrite <- Hc.
    apply Forall_fmap, Forall_fmap.
    eapply Forall_impl; [exact Hwide|]. intros r Hr'.
    change (cols self0) with (Z.of_nat (length (list_ascii_of_string r0))).
    cbn [compose]. rewrite length_take, !length_list_ascii_of_string.
    cbv beta in Hr'. lia. }
  assert (reads_alike self0 self0') as Halike.
  { split_and!; [done..|]. intros i j Hb.
    unfold in_bounds in Hb; simpl in Hb.
    unfold cell. rewrite Hg', Hg. rewrite !getitem_nonneg by lia.
    rewrite !list_lookup_fmap.
    destruct (g !! Z.to_nat i) as [r|] eqn:Hri; simpl; [|done].
    symmetry. apply getitem_take.
    - eapply Forall_forall in Hwide; [|by eapply list_elem_of_lookup_2].
      rewrite length_list_ascii_of_string. exact Hwide.
    - rewrite length_list_ascii_of_string in Hb. lia. }
  rewrite (find_position_alike self0 self0') by done.
  destruct (find_position_rectangular self0' "S"%char Hrect0) as [[-> _]|[s ->]];
    simpl.
  - assert (reads_alike (set_start self0 None) (set_start self0' None))
      as Halike1 by apply Halike.
    rewrite (find_position_alike _ _ _ Halike1).
    assert (rectangular (set_start self0' None)) as Hrect1 by apply Hrect0.
    destruct (find_position_rectangular _ "G"%char Hrect1) as [[-> _]|[t ->]];
      simpl; eexists _, _; split_and!; try done; apply Hrect0.
  - assert (reads_alike (set_start self0 (Some s)) (set_start self0' (Some s)))
      as Halike1 by apply Halike.
    rewrite (find_position_alike _ _ _ Halike1).
    assert (rectangular (set_start self0' (Some s))) as Hrect1 by apply Hrect0.
    destruct (find_position_rectangular _ "G"%char Hrect1) as [[-> _]|[t ->]];
      simpl; eexists _, _; split_and!; try done; apply Hrect0.
Qed.

(** X4. Rows longer than the first are accepted, and what they hold
    beyond the length of the first row is ignored: on a grid with at
    least one row and no row shorter than the first, construction
    completes, the search raises no [IndexError], and both give what
    they give on the grid cut to a rectangle. *)
Theorem long_rows_are_cropped (g : list string) :
  g ≠ [] → no_short_row g →
  grid_rectangular (crop_grid g) ∧
  run g = run (crop_grid g) ∧
  ∃ self,
    __init__ g = Return self ∧
    rows self = Z.of_nat (length g) ∧
    cols self = Z.of_nat (first_width g) ∧
    find_shortest_path self ≠ Raise IndexError.
Proof.
  intros Hne Hwide.
  destruct (init_crop g Hne Hwide)
    as (self & self' & Hinit & Hinit' & Hrect & Hs & Ht & Halike).
  pose proof (find_shortest_path_alike self self' Halike Hs Ht) as Hfind.
  split_and!.
  - intros r1 r2 (x1 & -> & H1)%list_elem_of_fmap (x2 & -> & H2)%list_elem_of_fmap.
    eapply Forall_forall in H1, H2; [|exact Hwide..]. cbv beta in H1, H2.
    rewrite <- !length_list_ascii_of_string, !list_ascii_of_substring.
    rewrite !length_take, !length_list_ascii_of_string. lia.
  - unfold run. rewrite Hinit, Hinit'. simpl. exact Hfind.
  - exists self. split_and!; [done| | |].
    + destruct (init_Return g self Hinit) as (Hg & -> & _).
      by rewrite Hg, length_map.
    + destruct (init_Return g self Hinit) as (Hg & _ & (row0 & Hrow0 & ->) & _).
      rewrite Hg in Hrow0. destruct g as [|r0 g0]; [done|].
      injection Hrow0 as <-. by rewrite length_list_ascii_of_string.
    + rewrite Hfind. by eapply rectangular_no_IndexError.
Qed.

Lemma long_rows_are_cropped_witness :
  crop_grid ["S0"; "0G1"; "001S"]%string = ["S0"; "0G"; "00"]%string ∧
  run ["S0"; "0G1"; "001S"]%string = run ["S0"; "0G"; "00"]%string.
Proof.
  split; [reflexivity|].
  apply (long_rows_are_cropped ["S0"; "0G1"; "001S"]%string); [done|].
  repeat constructor.
Defined.


(** ** The explored set and the returned path *)

Section Explored.
Variable self : GridPathfinder.
Variable s : pos.
Hypothesis Hstart : start self = Some s.

(** Beside [search_inv]: the cells on the path of a frontier item,
    its last cell apart, are explored; and every explored cell has a
    walk no longer than the walk of any frontier item. *)
Definition explored_inv (pq : list entry) (d : gmap position Z)
    (e : gset position) : Prop :=
  search_inv self s pq d e ∧
  (∀ x i q, x ∈ pq → x.2 !! i = Some q → (S i < length x.2)%nat → q ∈ e) ∧
  (∀ x y, x ∈ e → y ∈ pq →
     ∃ p l, x = Some p ∧ walk self s l p ∧ Z.of_nat (length l) ≤ y.1.1 + 1).

Lemma explored_inv_initial :
  explored_inv [(0, start self, [start self])] {[start self := 0]} ∅.
Proof.
  split_and!.
  - by apply search_inv_initial.
  - intros x i q ->%list_elem_of_singleton Hi Hlen. simpl in *. lia.
  - intros x y Hx. by apply not_elem_of_empty in Hx.
Qed.

Lemma explored_inv_step pq d e pq' d' e' :
  explored_inv pq d e →
  search_step self pq d e = Next pq' d' e' →
  explored_inv pq' d' e'.
Proof.
  intros (Hinv & J1 & J2) Hstep.
  split; [by eapply search_inv_step|].
  apply search_step_Next in Hstep as (cd & cur & path & rest & Hpop & H).
  assert (∀ x, x ∈ rest → x ∈ pq) as Hsub.
  { intros x Hx. rewrite (heappop_elem_of _ _ _ x Hpop). by right. }
  assert ((cd, cur, path) ∈ pq) as Hin.
  { rewrite (heappop_elem_of _ _ _ _ Hpop). by left. }
  destruct H as [(_ & -> & -> & ->)|(Hnin & _ & -> & p & -> & _ & Hrelax)].
  - split.
    + intros x i q Hx. by apply J1, Hsub.
    + intros x y Hx Hy. by apply J2, Hsub.
  - destruct (popped_fresh self s _ _ _ _ _ _ _ Hinv Hpop Hnin)
      as (l & Hpath & Hw & Hlen & _).
    destruct (relax_spec _ _ _ _ _ _ _ Hrelax) as (_ & _ & Hpq & _).
    split.
    + intros x i q [Hx|(n & _ & _ & ->)]%Hpq Hi Hlt.
      * apply elem_of_union. left. apply (J1 x i q); [by apply Hsub|done..].
      * simpl in *. rewrite length_app in Hlt. simpl in Hlt.
        rewrite lookup_app_l in Hi by lia.
        destruct (decide (S i < length path)%nat) as [Hlt'|Hlast].
        -- apply elem_of_union. left.
           by apply (J1 (cd, Some p, path) i q).
        -- apply elem_of_union. right. apply elem_of_singleton.
           assert (last path = Some (Some p)) as Hl.
           { rewrite Hpath, fmap_last, (walk_last _ _ _ _ Hw). done. }
           rewrite last_lookup in Hl.
           replace (pred (length path)) with i in Hl by lia. congruence.
    + intros x y [Hx| ->%elem_of_singleton]%elem_of_union
        [Hy|(n & _ & _ & ->)]%Hpq.
      * by apply J2, Hsub.
      * destruct (J2 x _ Hx Hin) as (q & lq & -> & Hwq & Hle).
        exists q, lq. simpl in *. split_and!; [done..|lia].
      * exists p, l. split_and!; [done..|].
        pose proof (heappop_min _ _ _ _ Hpop (Hsub _ Hy)) as Hmin.
        simpl in Hmin. lia.
      * exists p, l. simpl. split_and!; [done..|lia].
Qed.

(** What a returned path and its explored set satisfy. *)
Definition explored_post (r : outcome result) : Prop :=
  match r with
  | Return (Some path, explored) =>
      ∃ t l, goal self = Some t ∧ path = Some <$> l ∧ walk self s l t ∧
             (∀ x, x ∈ path → x ∈ explored) ∧
             (∀ x, x ∈ explored →
                ∃ p l', x = Some p ∧ walk self s l' p ∧
                        (length l' ≤ length l)%nat) ∧
             (∀ p l', walk self s l' p → (length l' < length l)%nat →
                      Some p ∈ explored)
  | _ => True
  end.

Lemma explored_post_done pq d e r :
  explored_inv pq d e →
  search_step self pq d e = Done r → explored_post r.
Proof.
  intros (Hinv & J1 & J2)
    [[-> ->]|(cd & cur & path & rest & Hpop & Hcur & H)]%search_step_Done;
    [done|].
  assert ((cd, cur, path) ∈ pq) as Hin.
  { rewrite (heappop_elem_of _ _ _ _ Hpop). by left. }
  destruct (inv_frontier _ _ _ _ _ Hinv _ Hin) as (p & _ & Hp & _).
  simpl in Hp. subst cur.
  destruct H as [[Hgoal ->]|(_ & ex & _ & ->)]; [|done]. simpl.
  destruct (popped_fresh self s _ _ _ _ _ _ _ Hinv Hpop Hcur)
    as (l & Hpath & Hw & Hlen & _).
  exists p, l. split_and!; [done..| | |].
  - intros x [i Hi]%list_elem_of_lookup.
    destruct (decide (S i < length path)%nat) as [Hlt|Hlast].
    + apply elem_of_union. left. by apply (J1 (cd, Some p, path) i x).
    + apply elem_of_union. right. apply elem_of_singleton.
      assert (last path = Some (Some p)) as Hl.
      { rewrite Hpath, fmap_last, (walk_last _ _ _ _ Hw). done. }
      rewrite last_lookup in Hl. apply lookup_lt_Some in Hi as Hi'.
      replace (pred (length path)) with i in Hl by lia. congruence.
  - intros x [Hx| ->%elem_of_singleton]%elem_of_union.
    + destruct (J2 x _ Hx Hin) as (q & lq & -> & Hwq & Hle).
      exists q, lq. simpl in Hle. split_and!; [done..|lia].
    + exists p, l. done.
  - intros q l' Hw' Hlt. apply elem_of_union. left.
    destruct (walk_crosses_frontier self s _ _ _ _ _ Hinv Hw')
      as [[? _]|(y & Hy & Hle)]; [done|].
    pose proof (heappop_min _ _ _ _ Hpop Hy) as Hmin. simpl in Hmin. lia.
Qed.

Lemma find_shortest_path_explored_post : explored_post (find_shortest_path self).
Proof.
  destruct (find_shortest_path_fuel_enough self (search_fuel self)) as [Hne _];
    [done|].
  apply (search_loop_rule self explored_inv explored_post); [| | |done].
  - intros *. apply explored_post_done.
  - intros *. apply explored_inv_step.
  - apply explored_inv_initial.
Qed.

End Explored.


(** A list with a repetition splits around two occurrences. *)
Lemma repetition_split {A : Type} `{EqDecision A} (l : list A) :
  NoDup l ∨ ∃ x l1 l2 l3, l = l1 ++ x :: l2 ++ x :: l3.
Proof.
  induction l as [|a l [IH|(x & l1 & l2 & l3 & ->)]].
  - left. constructor.
  - destruct (decide (a ∈ l)) as [Hin|Hin].
    + right. apply list_elem_of_split in Hin as (l2 & l3 & ->).
      by exists a, [], l2, l3.
    + left. by constructor.
  - right. by exists x, (a :: l1), l2, l3.
Qed.

Lemma steps_app l1 x l2 :
  steps (l1 ++ x :: l2) ↔ steps (l1 ++ [x]) ∧ steps (x :: l2).
Proof.
  induction l1 as [|a l1 IH]; [simpl; tauto|].
  destruct l1 as [|b l1]; [simpl; tauto|].
  change (orth_adjacent a b ∧ steps ((b :: l1) ++ x :: l2) ↔
          (orth_adjacent a b ∧ steps ((b :: l1) ++ [x])) ∧ steps (x :: l2)).
  rewrite IH. tauto.
Qed.

Lemma last_app_cons {A : Type} (a : list A) x b :
  last (a ++ x :: b) = last (x :: b).
Proof.
  rewrite last_app. destruct (last (x :: b)) eqn:E; [done|].
  by apply last_None in E.
Qed.

(** Cutting out the part between two occurrences of a cell leaves a
    connecting sequence. *)
Lemma connects_cut self s t l1 x l2 l3 :
  connects self s t (l1 ++ x :: l2 ++ x :: l3) →
  connects self s t (l1 ++ x :: l3).
Proof.
  intros (Hhd & Hlast & Hall & Hsteps). split_and!.
  - by destruct l1.
  - rewrite last_app_cons in Hlast |- *.
    change (x :: l2 ++ x :: l3) with ((x :: l2) ++ x :: l3) in Hlast.
    by rewrite last_app_cons in Hlast.
  - rewrite !Forall_app, !Forall_cons, Forall_app, Forall_cons in *. tauto.
  - apply steps_app in Hsteps as [H1 H2].
    change (x :: l2 ++ x :: l3) with ((x :: l2) ++ x :: l3) in H2.
    apply steps_app in H2 as [_ H2]. apply steps_app. done.
Qed.

(** A connecting sequence of least length has no repetition. *)
Lemma shortest_NoDup self s t l :
  connects self s t l →
  (∀ l', connects self s t l' → (length l ≤ length l')%nat) →
  NoDup l.
Proof.
  intros Hl Hmin.
  destruct (repetition_split l) as [?|(x & l1 & l2 & l3 & ->)]; [done|].
  specialize (Hmin _ (connects_cut _ _ _ _ _ _ _ Hl)).
  rewrite !length_app in Hmin. simpl in Hmin. rewrite length_app in Hmin.
  simpl in Hmin. lia.
Qed.

(** X5. The path that [find_shortest_path] returns leads from the
    start to the goal, visits no cell twice, and every cell on it is in
    the explored set returned with it. *)
Theorem returned_path_simple (g : list string) self s path explored :
  __init__ g = Return self → start self = Some s →
  find_shortest_path self = Return (Some path, explored) →
  head path = Some (start self) ∧ last path = Some (goal self) ∧
  NoDup path ∧ ∀ x, x ∈ path → x ∈ explored.
Proof.
  intros Hinit Hstart Hfind.
  pose proof (find_shortest_path_post self s Hstart) as Hpost.
  pose proof (find_shortest_path_explored_post self s Hstart) as Hpost'.
  rewrite Hfind in Hpost, Hpost'. simpl in *.
  destruct Hpost as (t & l & Hgoal & -> & Hw & Hmin & _).
  destruct Hpost' as (t' & l0 & _ & Hl0 & _ & Hsub & _).
  pose proof (start_traversable g self s Hinit Hstart) as Hs.
  split_and!; [| | |done].
  - pose proof (walk_head _ _ _ _ Hw) as Hhd. rewrite Hstart.
    destruct l; simpl in *; congruence.
  - by rewrite fmap_last, (walk_last _ _ _ _ Hw), Hgoal.
  - apply NoDup_fmap_2; [by intros ?? [=]|].
    apply (shortest_NoDup self s t); [by apply walk_connects|].
    intros l' Hl'. by apply Hmin, connects_walk.
Qed.

Lemma returned_path_simple_witness :
  ∃ self path explored,
    __init__ ["S00"; "010"; "00G"]%string = Return self ∧
    find_shortest_path self = Return (Some path, explored) ∧
    NoDup path ∧ ∀ x, x ∈ path → x ∈ explored.
Proof.
  eexists _, _, _.
  assert (∀ A B C : Prop, A → B → (A → B → C) → A ∧ B ∧ C) as Hcut by tauto.
  apply Hcut; [vm_compute; reflexivity | vm_compute; reflexivity |].
  intros Hinit Hfind.
  destruct (returned_path_simple _ _ (0, 0) _ _ Hinit eq_refl Hfind)
    as (_ & _ & Hnd & Hsub).
  by split.
Defined.

(** X6. When a path is returned, the explored set holds every cell
    that a connecting sequence reaches from the start with fewer edges
    than the path has, and no cell that needs more edges than the path:
    cells are explored in the order of their distance. *)
Theorem explored_within_goal_distance (g : list string) self s l explored :
  __init__ g = Return self → start self = Some s →
  find_shortest_path self = Return (Some (Some <$> l), explored) →
  (∀ p l', connects self s p l' → (edge_count l' < edge_count l)%nat →
           Some p ∈ explored) ∧
  (∀ x, x ∈ explored →
     ∃ p l', x = Some p ∧ connects self s p l' ∧
             (edge_count l' ≤ edge_count l)%nat).
Proof.
  intros Hinit Hstart Hfind.
  pose proof (find_shortest_path_explored_post self s Hstart) as Hpost.
  rewrite Hfind in Hpost. simpl in Hpost.
  destruct Hpost as (t & l0 & _ & Hl0 & _ & _ & Hin & Hball).
  apply (inj (fmap Some)) in Hl0 as <-.
  pose proof (start_traversable g self s Hinit Hstart) as Hs.
  split.
  - intros p l' Hl' Hlt. apply (Hball p l'); [by apply connects_walk|].
    unfold edge_count in Hlt. lia.
  - intros x Hx. destruct (Hin x Hx) as (p & l' & -> & Hw & Hle).
    exists p, l'. split_and!; [done|by apply walk_connects|].
    unfold edge_count. lia.
Qed.

Lemma explored_within_goal_distance_witness :
  ∃ self l explored,
    __init__ ["S0G"; "000"; "000"]%string = Return self ∧
    find_shortest_path self = Return (Some (Some <$> l), explored) ∧
    Some (1, 0) ∈ explored ∧ Some (2, 2) ∉ explored.
Proof.
  eexists _, [(0, 0); (0, 1); (0, 2)], _.
  assert (∀ A B C : Prop, A → B → (A → B → C) → A ∧ B ∧ C) as Hcut by tauto.
  apply Hcut; [vm_compute; reflexivity | vm_compute; reflexivity |].
  intros Hinit Hfind.
  destruct (explored_within_goal_distance _ _ (0, 0) _ _ Hinit eq_refl Hfind)
    as [Hnear Hfar].
  split.
  - apply (Hnear (1, 0) [(0, 0); (1, 0)]); [|unfold edge_count; simpl; lia].
    split_and!; [done|done| |].
    + repeat (apply Forall_cons; split; [traversable_cell|]). by apply Forall_nil.
    + simpl. unfold orth_adjacent; simpl. lia.
  - intros Hin. destruct (Hfar _ Hin) as (p & l' & [= <-] & Hl' & Hle).
    pose proof (walk_manhattan _ _ _ _ (connects_walk _ _ _ _ Hl')) as Hm.
    unfold manhattan, edge_count in *. simpl in *. lia.
Defined.

Lemma all_cells_NoDup self : NoDup (all_cells self).
Proof.
  unfold all_cells. apply NoDup_bind.
  - intros r1 r2 [r c] _ _ (c1 & [= -> ->] & _)%list_elem_of_fmap
      (c2 & [= -> _] & _)%list_elem_of_fmap. done.
  - intros r _. apply NoDup_fmap_2; [by intros ?? [=]|]. apply NoDup_seqZ.
  - apply NoDup_seqZ.
Qed.

(** X7. Whatever [find_shortest_path] returns, with or without a path,
    every element of the explored set is a cell in bounds whose marker
    is not ['1'], and the set has no more elements than the grid has
    cells. *)
Theorem explored_cells_traversable (g : list string) self s path explored :
  __init__ g = Return self → start self = Some s →
  find_shortest_path self = Return (path, explored) →
  (∀ x, x ∈ explored → ∃ p, x = Some p ∧ traversable self p) ∧
  (size explored ≤ Z.to_nat (rows self) * Z.to_nat (cols self))%nat.
Proof.
  intros Hinit Hstart Hfind.
  pose proof (start_traversable g self s Hinit Hstart) as Hs.
  assert (∀ x, x ∈ explored → ∃ p, x = Some p ∧ traversable self p) as Hexp.
  { pose proof (find_shortest_path_post self s Hstart) as Hpost.
    rewrite Hfind in Hpost. simpl in Hpost.
    assert (∀ x, x ∈ explored → ∃ p, x = Some p ∧ reachable self s p) as Hreach.
    { destruct path as [path|].
      - by destruct Hpost as (t & l & _ & _ & _ & _ & _ & _ & H).
      - destruct Hpost as [H _]. intros x Hx. by apply H. }
    intros x Hx. destruct (Hreach x Hx) as (p & -> & l & Hw).
    exists p. split; [done|].
    destruct (walk_connects _ _ _ _ Hs Hw) as (_ & Hlast & Hall & _).
    eapply Forall_forall in Hall; [exact Hall|].
    rewrite last_lookup in Hlast. by eapply list_elem_of_lookup_2. }
  split; [done|].
  rewrite <- length_all_cells.
  rewrite <- (length_fmap Some), <- (size_list_to_set (C := gset position)).
  - apply subseteq_size. intros x Hx.
    destruct (Hexp x Hx) as (p & -> & Hb & _).
    apply elem_of_list_to_set, list_elem_of_fmap. exists p.
    split; [done|]. by apply elem_of_all_cells.
  - apply NoDup_fmap_2; [by intros ?? [=]|]. apply all_cells_NoDup.
Qed.

Lemma explored_cells_traversable_witness :
  ∃ self path explored,
    __init__ ["S1"; "0G"]%string = Return self ∧
    find_shortest_path self = Return (path, explored) ∧
    (∀ x, x ∈ explored → ∃ p, x = Some p ∧ traversable self p) ∧
    (size explored ≤ 4)%nat.
Proof.
  eexists _, _, _.
  assert (∀ A B C : Prop, A → B → (A → B → C) → A ∧ B ∧ C) as Hcut by tauto.
  apply Hcut; [vm_compute; reflexivity | vm_compute; reflexivity |].
  intros Hinit Hfind.
  exact (explored_cells_traversable _ _ (0, 0) _ _ Hinit eq_refl Hfind).
Defined.


(** ** Opening cells *)

(** X8. Opening cells never lengthens the path: if a second grid with
    the same start and goal has every traversable cell of the first
    traversable too, and the search finds a path on the first, then it
    finds one on the second, with no more edges. *)
Theorem opening_cells_never_lengthens (g g' : list string) self self' s t l e :
  __init__ g = Return self → __init__ g' = Return self' →
  grid_rectangular g' →
  start self = Some s → start self' = Some s →
  goal self = Some t → goal self' = Some t →
  (∀ q, traversable self q → traversable self' q) →
  find_shortest_path self = Return (Some (Some <$> l), e) →
  ∃ l' e',
    find_shortest_path self' = Return (Some (Some <$> l'), e') ∧
    (edge_count l' ≤ edge_count l)%nat.
Proof.
  intros Hinit Hinit' Hrect Hs Hs' Ht Ht' Hopen Hfind.
  pose proof (find_shortest_path_post self s Hs) as Hpost.
  rewrite Hfind in Hpost. simpl in Hpost.
  destruct Hpost as (t0 & l0 & Ht0 & Hl0 & Hw & _).
  apply (inj (fmap Some)) in Hl0 as <-.
  assert (t0 = t) as -> by congruence.
  apply walk_connects in Hw as (Hhd & Hlast & Hall & Hsteps);
    [|by eapply start_traversable].
  assert (connects self' s t l) as Hl.
  { split_and!; [done..| |done]. eapply Forall_impl; [exact Hall|done]. }
  destruct (search_rectangular g' self' s Hinit' Hrect Hs')
    as [(t' & l' & e' & Ht'' & Hfind' & _ & Hmin)|(e' & _ & Hexp & Hgoal)].
  - assert (t' = t) as -> by congruence.
    exists l', e'. split; [done|]. by apply edge_count_le, Hmin.
  - exfalso. apply Hgoal. rewrite Ht'. apply Hexp. by exists t, l.
Qed.

Lemma opening_cells_never_lengthens_witness :
  ∃ l l' e e' self self',
    __init__ ["S1"; "00"; "G1"]%string = Return self ∧
    __init__ ["S0"; "00"; "G0"]%string = Return self' ∧
    find_shortest_path self = Return (Some (Some <$> l), e) ∧
    find_shortest_path self' = Return (Some (Some <$> l'), e') ∧
    (edge_count l' ≤ edge_count l)%nat.
Proof.
  exists [(0, 0); (1, 0); (2, 0)].
  assert (∃ self, __init__ ["S1"; "00"; "G1"]%string = Return self)
    as [self Hinit] by (eexists; vm_compute; reflexivity).
  assert (∃ self', __init__ ["S0"; "00"; "G0"]%string = Return self')
    as [self' Hinit'] by (eexists; vm_compute; reflexivity).
  assert (∃ e, find_shortest_path self = Return (Some (Some <$> [(0, 0); (1, 0); (2, 0)]), e))
    as [e Hfind].
  { vm_compute in Hinit. injection Hinit as <-. eexists. vm_compute. reflexivity. }
  destruct (opening_cells_never_lengthens _ _ self self' (0, 0) (2, 0)
              [(0, 0); (1, 0); (2, 0)] e Hinit Hinit')
    as (l' & e' & Hfind' & Hle); try done.
  - intros r1 r2 H1 H2.
    repeat (apply elem_of_cons in H1 as [->|H1]);
      repeat (apply elem_of_cons in H2 as [->|H2]);
      try done; by apply elem_of_nil in H1 || by apply elem_of_nil in H2.
  - vm_compute in Hinit. by injection Hinit as <-.
  - vm_compute in Hinit'. by injection Hinit' as <-.
  - vm_compute in Hinit. by injection Hinit as <-.
  - vm_compute in Hinit'. by injection Hinit' as <-.
  - vm_compute in Hinit, Hinit'. injection Hinit as <-. injection Hinit' as <-.
    intros [r c] [Hb (ch & Hm & Hne)]. unfold in_bounds in Hb; simpl in Hb.
    split; [exact Hb|].
    assert ((r = 0 ∨ r = 1 ∨ r = 2) ∧ (c = 0 ∨ c = 1))
      as [[-> | [-> | ->]] [-> | ->]] by lia;
      vm_compute in Hm; injection Hm as <-; try done;
      eexists; (split; [reflexivity|discriminate]).
  - by exists l', e, e', self, self'.
Defined.

(** ** The direction string of the example usage *)

(** The loop [for i in range(len(path) - 1)] of the example usage;
    [directions] is the list built so far. Unpacking [None] raises
    [TypeError]. *)
Fixpoint directions_loop (path : list position) (i : Z) (n : nat)
    (directions : list ascii) : outcome (list ascii) :=
  match n with
  | O => Return directions
  | S n' =>
      curr ← getitem path i;
      match curr with
      | None => Raise TypeError
      | Some (curr_r, curr_c) =>
          next ← getitem path (i + 1);
          match next with
          | None => Raise TypeError
          | Some (next_r, next_c) =>
              let d :=
                if next_r <? curr_r then "N"%char
                else if next_r >? curr_r then "S"%char
                else if next_c <? curr_c then "W"%char
                else "E"%char in
              directions_loop path (i + 1) n' (directions ++ [d])
          end
      end
  end.

(** [''.join(directions)] after the loop. *)
Definition path_directions (path : list position) : outcome string :=
  directions ← directions_loop path 0 (Z.to_nat (Z.of_nat (length path) - 1)) [];
  Return (string_of_list_ascii directions).

(** Reading a direction string: the cell that a letter leads to, and
    the cells that a string leads through. *)
Definition move (p : pos) (d : ascii) : pos :=
  if decide (d = "N"%char) then (p.1 - 1, p.2)
  else if decide (d = "S"%char) then (p.1 + 1, p.2)
  else if decide (d = "W"%char) then (p.1, p.2 - 1)
  else (p.1, p.2 + 1).

Fixpoint follow (p : pos) (ds : list ascii) : list pos :=
  p :: match ds with
       | [] => []
       | d :: ds' => follow (move p d) ds'
       end.

Lemma getitem_app_middle {A : Type} (pre : list A) x post i :
  i = Z.of_nat (length pre) →
  getitem (pre ++ x :: post) i = Return x.
Proof.
  intros ->. rewrite getitem_nonneg by lia. rewrite Nat2Z.id.
  by rewrite lookup_app_r, Nat.sub_diag.
Qed.

Lemma directions_loop_steps pre p l acc :
  steps (p :: l) →
  ∃ ds,
    directions_loop ((Some <$> pre) ++ (Some <$> p :: l))
      (Z.of_nat (length pre)) (length l) acc = Return (acc ++ ds) ∧
    length ds = length l ∧ follow p ds = p :: l.
Proof.
  revert pre p acc. induction l as [|q l IH]; intros pre p acc Hsteps.
  { exists []. simpl. by rewrite app_nil_r. }
  destruct Hsteps as [Hadj Hsteps].
  destruct p as [pr pc], q as [qr qc].
  assert ((Some <$> pre) ++ (Some <$> (pr, pc) :: (qr, qc) :: l) =
          (Some <$> pre ++ [(pr, pc)]) ++ (Some <$> (qr, qc) :: l)) as Hshift
    by (rewrite fmap_app, <- app_assoc; done).
  set (path := (Some <$> pre) ++ (Some <$> (pr, pc) :: (qr, qc) :: l)) in *.
  assert (getitem path (Z.of_nat (length pre)) = Return (Some (pr, pc))) as Hcurr.
  { unfold path. rewrite fmap_cons.
    apply getitem_app_middle. by rewrite length_fmap. }
  assert (getitem path (Z.of_nat (length pre) + 1) = Return (Some (qr, qc)))
    as Hnext.
  { rewrite Hshift, fmap_cons.
    apply getitem_app_middle. rewrite length_fmap, length_app. simpl. lia. }
  change (length ((qr, qc) :: l)) with (S (length l)).
  cbn [directions_loop]. rewrite Hcurr. simpl.
  rewrite Hnext. simpl.
  match goal with
  | |- context [directions_loop _ _ _ (acc ++ [?d])] => set (dir := d)
  end.
  destruct (IH (pre ++ [(pr, pc)]) (qr, qc) (acc ++ [dir]) Hsteps)
    as (ds & Hloop & Hlen & Hfollow).
  exists (dir :: ds). rewrite <- Hshift in Hloop.
  replace (Z.of_nat (length pre) + 1)
    with (Z.of_nat (length (pre ++ [(pr, pc)])))
    by (rewrite length_app; simpl; lia).
  fold path in Hloop. rewrite Hloop.
  split_and!; [by rewrite <- app_assoc|simpl; lia|].
  simpl. f_equal.
  assert (move (pr, pc) dir = (qr, qc)) as ->; [|done].
  unfold orth_adjacent in Hadj; simpl in Hadj.
  unfold dir, move; simpl.
  destruct (qr <? pr) eqn:E1; [simpl; f_equal; lia|].
  destruct (qr >? pr) eqn:E2; [simpl; f_equal; lia|].
  destruct (qc <? pc) eqn:E3; simpl; f_equal; lia.
Qed.

Lemma path_directions_steps p l :
  steps (p :: l) →
  ∃ ds,
    path_directions (Some <$> p :: l) = Return ds ∧
    String.length ds = edge_count (p :: l) ∧
    follow p (list_ascii_of_string ds) = p :: l.
Proof.
  intros Hsteps. unfold path_directions.
  rewrite length_fmap. simpl length.
  replace (Z.to_nat (Z.of_nat (S (length l)) - 1)) with (length l) by lia.
  destruct (directions_loop_steps [] p l [] Hsteps) as (ds & Hloop & Hlen & Hf).
  change ((Some <$> []) ++ (Some <$> p :: l)) with (Some <$> p :: l) in Hloop.
  change (Z.of_nat (length (@nil pos))) with 0 in Hloop.
  rewrite Hloop. simpl.
  exists (string_of_list_ascii ds). split_and!; [done| |].
  - rewrite <- length_list_ascii_of_string, list_ascii_of_string_of_list_ascii.
    unfold edge_count. simpl. lia.
  - by rewrite list_ascii_of_string_of_list_ascii.
Qed.

(** X9. For a path whose consecutive cells are one orthogonal step
    apart, the direction string has one letter per edge, and following
    the letters from the first cell leads through exactly the cells of
    the path. This holds for every path that [find_shortest_path]
    returns on a grid with a start. *)
Theorem path_directions_round_trip :
  (∀ p l,
     steps (p :: l) →
     ∃ ds,
       path_directions (Some <$> p :: l) = Return ds ∧
       String.length ds = edge_count (p :: l) ∧
       follow p (list_ascii_of_string ds) = p :: l) ∧
  (∀ (g : list string) self s path explored,
     __init__ g = Return self → start self = Some s →
     find_shortest_path self = Return (Some path, explored) →
     ∃ ds,
       path_directions path = Return ds ∧
       String.length ds = edge_count path ∧
       Some <$> follow s (list_ascii_of_string ds) = path).
Proof.
  pose proof path_directions_steps as Hround.
  split; [exact Hround|].
  intros g self s path explored Hinit Hstart Hfind.
  pose proof (find_shortest_path_post self s Hstart) as Hpost.
  rewrite Hfind in Hpost. simpl in Hpost.
  destruct Hpost as (t & l & _ & -> & Hw & _).
  pose proof (walk_head _ _ _ _ Hw) as Hhd.
  apply walk_connects in Hw as (_ & _ & _ & Hsteps);
    [|by eapply start_traversable].
  destruct l as [|p l]; [done|]. injection Hhd as ->.
  destruct (Hround s l Hsteps) as (ds & Hds & Hlen & Hf).
  exists ds. split_and!; [done| |by rewrite Hf].
  rewrite Hlen. unfold edge_count. by rewrite length_fmap.
Qed.

Lemma path_directions_round_trip_witness :
  ∃ self path explored,
    __init__ ["S0"; "1G"]%string = Return self ∧
    find_shortest_path self = Return (Some path, explored) ∧
    path_directions path = Return "ES"%string ∧
    Some <$> follow (0, 0) (list_ascii_of_string "ES") = path.
Proof.
  eexists _, _, _.
  assert (∀ A B C : Prop, A → B → (A → B → C) → A ∧ B ∧ C) as Hcut by tauto.
  apply Hcut; [vm_compute; reflexivity | vm_compute; reflexivity |].
  intros Hinit Hfind.
  destruct path_directions_round_trip as [_ Hpath].
  destruct (Hpath _ _ (0, 0) _ _ Hinit eq_refl Hfind) as (ds & Hds & _ & Hf).
  assert (ds = "ES"%string) as ->.
  { vm_compute in Hds. by injection Hds as <-. }
  by split.
Defined.


(** ** Searching backwards *)

Lemma steps_reverse l : steps l → steps (reverse l).
Proof.
  induction l as [|a l IH]; [done|].
  intros Hsteps. rewrite reverse_cons. apply steps_snoc.
  destruct l as [|b l]; [by split|].
  destruct Hsteps as [Hadj Hsteps]. split; [by apply IH|].
  intros p. rewrite last_reverse. intros [= <-]. by apply orth_adjacent_sym.
Qed.

Lemma traversable_same_grid self self' q :
  same_grid self self' → traversable self q → traversable self' q.
Proof.
  intros Hsame. unfold traversable.
  by rewrite (in_bounds_same_grid self self'), (marker_same_grid self self').
Qed.

(** A path walked backwards is a path, also when the attributes other
    than the grid differ. *)
Lemma connects_reverse self self' s t l :
  same_grid self self' → connects self s t l → connects self' t s (reverse l).
Proof.
  intros Hsame (Hhd & Hlast & Hall & Hsteps). split_and!.
  - by rewrite head_reverse.
  - by rewrite last_reverse.
  - apply Forall_reverse. eapply Forall_impl; [exact Hall|].
    intros q. by apply traversable_same_grid.
  - by apply steps_reverse.
Qed.

(** X15. Searching backwards gives a path of the same length. When the
    search finds a path on a constructed rectangular grid, then on the
    instance with [start] and [goal] exchanged it finds a path too, with
    the same number of cells. *)
Theorem swapping_start_and_goal (g : list string) self s t l e :
  __init__ g = Return self → grid_rectangular g →
  start self = Some s → goal self = Some t →
  find_shortest_path self = Return (Some (Some <$> l), e) →
  ∃ l' e',
    find_shortest_path (set_goal (set_start self (Some t)) (Some s))
    = Return (Some (Some <$> l'), e') ∧
    length l' = length l.
Proof.
  intros Hinit Hrect Hs Ht Hfind.
  set (self' := set_goal (set_start self (Some t)) (Some s)).
  assert (same_grid self self') as Hsame by done.
  assert (same_grid self' self) as Hsame' by done.
  destruct (init_markers g self Hinit Hrect) as (Hrect' & _ & _).
  pose proof (start_traversable g self s Hinit Hs) as Htrav.
  pose proof (find_shortest_path_post self s Hs) as Hpost.
  rewrite Hfind in Hpost. simpl in Hpost.
  destruct Hpost as (t0 & l0 & Ht0 & Hl0 & Hw & Hmin & _).
  apply (inj (fmap Some)) in Hl0 as <-.
  assert (t0 = t) as -> by congruence.
  pose proof (walk_connects _ _ _ _ Htrav Hw) as Hl.
  pose proof (connects_reverse self self' s t l Hsame Hl) as Hrev.
  assert (traversable self' t) as Htrav'.
  { destruct Hrev as (Hhd & _ & Hall & _).
    eapply Forall_forall in Hall; [exact Hall|]. by eapply head_Some_elem_of. }
  pose proof (find_shortest_path_post self' t eq_refl) as Hpost'.
  destruct (find_shortest_path self') as [[[path'|] e']| |]; simpl in Hpost'.
  - destruct Hpost' as (s0 & l' & Hs0 & -> & Hw' & Hmin' & _).
    injection Hs0 as <-.
    exists l', e'. split; [done|].
    pose proof (walk_connects _ _ _ _ Htrav' Hw') as Hl'.
    pose proof (connects_reverse self' self t s l' Hsame' Hl') as Hrev'.
    specialize (Hmin _ (connects_walk _ _ _ _ Hrev')).
    specialize (Hmin' _ (connects_walk _ _ _ _ Hrev)).
    rewrite length_reverse in Hmin, Hmin'. lia.
  - destruct Hpost' as [Hexp Hgoal]. destruct Hgoal. simpl.
    apply Hexp. exists s. split; [done|]. exists (reverse l).
    by apply connects_walk.
  - destruct Hpost'. destruct Hrect' as [Hrows Hcols]. by split.
  - done.
Qed.

Lemma swapping_start_and_goal_witness :
  ∃ self l' e',
    __init__ ["S01"; "100"; "G00"]%string = Return self ∧
    find_shortest_path (set_goal (set_start self (Some (2, 0))) (Some (0, 0)))
    = Return (Some (Some <$> l'), e') ∧
    length l' = 5%nat.
Proof.
  assert (∃ self, __init__ ["S01"; "100"; "G00"]%string = Return self)
    as [self Hinit] by (eexists; vm_compute; reflexivity).
  assert (∃ e, find_shortest_path self =
               Return (Some (Some <$> [(0, 0); (0, 1); (1, 1); (2, 1); (2, 0)]), e))
    as [e Hfind].
  { vm_compute in Hinit. injection Hinit as <-. eexists. vm_compute. reflexivity. }
  destruct (swapping_start_and_goal _ self (0, 0) (2, 0)
              [(0, 0); (0, 1); (1, 1); (2, 1); (2, 0)] e Hinit)
    as (l' & e' & Hfind' & Hlen).
  - intros r1 r2 H1 H2.
    repeat (apply elem_of_cons in H1 as [-> | H1]);
      repeat (apply elem_of_cons in H2 as [-> | H2]);
      try done; by apply elem_of_nil in H1 || by apply elem_of_nil in H2.
  - vm_compute in Hinit. by injection Hinit as <-.
  - vm_compute in Hinit. by injection Hinit as <-.
  - exact Hfind.
  - by exists self, l', e'.
Defined.

End Pure.

Import Pure.

(** * Objects and mutation

    [visualize_path] assigns to list elements, and Python lists are
    objects: an assignment through one reference is seen through every
    other. This part models the objects of the program in a store, with
    the instance, the grid and its rows, the path and the explored set
    held by reference, and shows which of them a call leaves alone. *)

Module Heap.

Abbreviation loc := nat (only parsing).

(** The attributes of a [GridPathfinder] instance; [a_grid] refers to
    the list of rows. *)
Record attrs : Type := mkAttrs {
  a_grid : loc;
  a_rows : Z;
  a_cols : Z;
  a_start : position;
  a_goal : position
}.

Inductive object : Type :=
| OSelf (a : attrs)                 (* an instance *)
| ORows (rs : list loc)             (* a list of rows *)
| ORow (cells : list ascii)         (* a row *)
| OPath (items : list position)     (* a list of positions *)
| OSet (items : list position).     (* a set, in its iteration order *)

Record world : Type := mkWorld {
  heap : gmap loc object;
  stdout : list string
}.

(** Computations that read and write the world and may raise. *)
Definition M (A : Type) : Type := world → outcome A * world.

#[global] Instance M_ret : MRet M := fun A a w => (Return a, w).

#[global] Instance M_bind : MBind M := fun A B f m w =>
  match m w with
  | (Return a, w') => f a w'
  | (Raise e, w') => (Raise e, w')
  | (OutOfFuel, w') => (OutOfFuel, w')
  end.

Definition lift {A : Type} (o : outcome A) : M A := λ w, (o, w).

Definition raise {A : Type} (e : exn) : M A := lift (Raise e).

(** Following a reference. Python has no dangling references and no
    object of the wrong kind behind these; the model answers both with
    [TypeError]. *)
Definition load (l : loc) : M object := λ w,
  match heap w !! l with
  | Some o => (Return o, w)
  | None => (Raise TypeError, w)
  end.

(** A new object, at a location not in use. *)
Definition alloc (o : object) : M loc := λ w,
  let l := fresh (dom (heap w)) in
  (Return l, {| heap := <[l := o]> (heap w); stdout := stdout w |}).

(** Replacing the contents of an object. *)
Definition store (l : loc) (o : object) : M unit := λ w,
  (Return (), {| heap := <[l := o]> (heap w); stdout := stdout w |}).

Definition print (s : string) : M unit := λ w,
  (Return (), {| heap := heap w; stdout := stdout w ++ [s] |}).

Definition load_self (l : loc) : M attrs :=
  o ← load l; match o with OSelf a => mret a | _ => raise TypeError end.

Definition load_rows (l : loc) : M (list loc) :=
  o ← load l; match o with ORows rs => mret rs | _ => raise TypeError end.

Definition load_row (l : loc) : M (list ascii) :=
  o ← load l; match o with ORow cells => mret cells | _ => raise TypeError end.

Definition load_path (l : loc) : M (list position) :=
  o ← load l; match o with OPath items => mret items | _ => raise TypeError end.

Definition load_set (l : loc) : M (list position) :=
  o ← load l; match o with OSet items => mret items | _ => raise TypeError end.

(** [l[i] = a] on a Python list. *)
Definition setitem {A : Type} (l : list A) (i : Z) (a : A) : outcome (list A) :=
  let n := Z.of_nat (length l) in
  let k := if i <? 0 then i + n else i in
  if (0 <=? k) && (k <? n) then Return (<[Z.to_nat k := a]> l)
  else Raise IndexError.

(** ** [visualize_path] *)

(** [[row[:] for row in rows]]: a new list object per row. *)
Fixpoint copy_rows (rs : list loc) : M (list loc) :=
  match rs with
  | [] => mret []
  | r :: rs' =>
      cells ← load_row r;
      r' ← alloc (ORow cells);
      rs'' ← copy_rows rs';
      mret (r' :: rs'')
  end.

(** [vis_grid[r][c]] *)
Definition vis_get (vis : loc) (r c : Z) : M ascii :=
  rs ← load_rows vis;
  row ← lift (getitem rs r);
  cells ← load_row row;
  lift (getitem cells c).

(** [vis_grid[r][c] = ch] *)
Definition vis_set (vis : loc) (r c : Z) (ch : ascii) : M unit :=
  rs ← load_rows vis;
  row ← lift (getitem rs r);
  cells ← load_row row;
  cells' ← lift (setitem cells c ch);
  store row (ORow cells').

(** [x not in ['S', 'G']] *)
Definition not_marker (ch : ascii) : bool :=
  negb (bool_decide (ch = "S"%char ∨ ch = "G"%char)).

(** [(r, c) not in path]; [path] is [None] or refers to a list. *)
Definition not_in_path (path : option loc) (r c : Z) : M bool :=
  match path with
  | None => raise TypeError
  | Some lp => items ← load_path lp; mret (bool_decide (Some (r, c) ∉ items))
  end.

(** An [if] without [else]. *)
Definition skip : M unit := mret ().

(** The loop [for r, c in explored]. *)
Fixpoint mark_explored (vis : loc) (path : option loc) (items : list position)
  : M unit :=
  match items with
  | [] => skip
  | item :: items' =>
      match item with
      | None => raise TypeError
      | Some (r, c) =>
          outside ← not_in_path path r c;
          (if outside : bool
           then ch ← vis_get vis r c;
                if not_marker ch then vis_set vis r c "."%char else skip
           else skip);;
          mark_explored vis path items'
      end
  end.

(** The loop [for r, c in path]. *)
Fixpoint mark_path (vis : loc) (items : list position) : M unit :=
  match items with
  | [] => skip
  | item :: items' =>
      match item with
      | None => raise TypeError
      | Some (r, c) =>
          ch ← vis_get vis r c;
          (if not_marker ch then vis_set vis r c "*"%char else skip);;
          mark_path vis items'
      end
  end.

(** The loop [for row in vis_grid: print(''.join(row))]. *)
Fixpoint print_rows (rs : list loc) : M unit :=
  match rs with
  | [] => skip
  | r :: rs' =>
      cells ← load_row r;
      print (string_of_list_ascii cells);;
      print_rows rs'
  end.

Definition visualize_path (self : loc) (path : option loc) (explored : loc)
  : M unit :=
  a ← load_self self;
  rs ← load_rows (a_grid a);
  new_rows ← copy_rows rs;
  vis_grid ← alloc (ORows new_rows);
  items ← load_set explored;
  mark_explored vis_grid path items;;
  items ← match path with
          | None => raise TypeError
          | Some lp => load_path lp
          end;
  mark_path vis_grid items;;
  rs ← load_rows vis_grid;
  print_rows rs.

(** ** [find_shortest_path], reading the grid through the store

    The frontier, the distance map and the explored set are created by
    the call and are its own; they are kept as values. Every access to
    an attribute of [self] and to a cell of the grid goes to the store. *)

(** [self.grid[i][j]] *)
Definition cell (self : loc) (i j : Z) : M ascii :=
  a ← load_self self;
  rs ← load_rows (a_grid a);
  row ← lift (getitem rs i);
  cells ← load_row row;
  lift (getitem cells j).

Fixpoint neighbors_loop (self : loc) (row col : Z) (dirs : list (Z * Z))
    (neighbors : list pos) : M (list pos) :=
  match dirs with
  | [] => mret neighbors
  | (dr, dc) :: dirs' =>
      let new_row := row + dr in
      let new_col := col + dc in
      a ← load_self self;
      if (0 <=? new_row) && (new_row <? a_rows a)
         && (0 <=? new_col) && (new_col <? a_cols a)
      then
        c ← cell self new_row new_col;
        if decide (c ≠ "1"%char)
        then neighbors_loop self row col dirs' (neighbors ++ [(new_row, new_col)])
        else neighbors_loop self row col dirs' neighbors
      else neighbors_loop self row col dirs' neighbors
  end.

Definition get_neighbors (self : loc) (p : position) : M (list pos) :=
  match p with
  | None => raise TypeError
  | Some (row, col) => neighbors_loop self row col directions []
  end.

(** One iteration either returns from the function or goes on. *)
Inductive step : Type :=
| Leave (r : result)
| Continue (pq : list entry) (distances : gmap position Z)
    (explored : gset position).

Definition search_step (self : loc) (pq : list entry)
    (distances : gmap position Z) (explored : gset position) : M step :=
  match heappop pq with
  | None => mret (Leave (None, explored))
  | Some ((current_dist, current_pos, current_path), pq) =>
      if decide (current_pos ∈ explored)
      then mret (Continue pq distances explored)
      else
        let explored := explored ∪ {[current_pos]} in
        a ← load_self self;
        if decide (current_pos = a_goal a)
        then mret (Leave (Some current_path, explored))
        else
          neighbors ← get_neighbors self current_pos;
          let '(pq, distances) :=
            relax current_dist current_path neighbors pq distances in
          mret (Continue pq distances explored)
  end.

Fixpoint search_loop (self : loc) (fuel : nat) (pq : list entry)
    (distances : gmap position Z) (explored : gset position) : M result :=
  match fuel with
  | O => lift OutOfFuel
  | S fuel' =>
      s ← search_step self pq distances explored;
      match s with
      | Leave r => mret r
      | Continue pq distances explored =>
          search_loop self fuel' pq distances explored
      end
  end.

Definition find_shortest_path (self : loc) : M result :=
  a ← load_self self;
  let fuel := (5 * (Z.to_nat (a_rows a) * Z.to_nat (a_cols a)) + 7)%nat in
  search_loop self fuel [(0, a_start a, [a_start a])] {[a_start a := 0]} ∅.

(** The instance at [self] in the world [w] has the attributes and the
    grid of [snap]. *)
Definition represents (w : world) (self : loc) (snap : GridPathfinder) : Prop :=
  ∃ a rs,
    heap w !! self = Some (OSelf a) ∧
    heap w !! a_grid a = Some (ORows rs) ∧
    Forall2 (λ r cells, heap w !! r = Some (ORow cells)) rs (grid snap) ∧
    a_rows a = rows snap ∧ a_cols a = cols snap ∧
    a_start a = start snap ∧ a_goal a = goal snap.

(** ** Running computations *)

Lemma run_bind {A B : Type} (m : M A) (f : A → M B) w :
  (m ≫= f) w = match m w with
               | (Return a, w') => f a w'
               | (Raise e, w') => (Raise e, w')
               | (OutOfFuel, w') => (OutOfFuel, w')
               end.
Proof. done. Qed.

Lemma run_load_self w l a :
  heap w !! l = Some (OSelf a) → load_self l w = (Return a, w).
Proof. intros H. unfold load_self. rewrite run_bind. unfold load. by rewrite H. Qed.

Lemma run_load_rows w l rs :
  heap w !! l = Some (ORows rs) → load_rows l w = (Return rs, w).
Proof. intros H. unfold load_rows. rewrite run_bind. unfold load. by rewrite H. Qed.

Lemma run_load_row w l cells :
  heap w !! l = Some (ORow cells) → load_row l w = (Return cells, w).
Proof. intros H. unfold load_row. rewrite run_bind. unfold load. by rewrite H. Qed.

(** ** Computations that only read *)

Definition read_only {A : Type} (m : M A) : Prop := ∀ w, (m w).2 = w.

Lemma read_only_ret {A : Type} (a : A) : read_only (mret a).
Proof. done. Qed.

Lemma read_only_lift {A : Type} (o : outcome A) : read_only (lift o).
Proof. done. Qed.

Lemma read_only_load l : read_only (load l).
Proof. intros w. unfold load. by destruct (heap w !! l). Qed.

Lemma read_only_bind {A B : Type} (m : M A) (f : A → M B) :
  read_only m → (∀ a, read_only (f a)) → read_only (m ≫= f).
Proof.
  intros Hm Hf w. rewrite run_bind. specialize (Hm w).
  destruct (m w) as [[a| |] w']; simpl in *; subst; [apply Hf|done..].
Qed.

Lemma read_only_load_self l : read_only (load_self l).
Proof.
  apply read_only_bind; [apply read_only_load|]. intros []; done.
Qed.

Lemma read_only_load_rows l : read_only (load_rows l).
Proof.
  apply read_only_bind; [apply read_only_load|]. intros []; done.
Qed.

Lemma read_only_load_row l : read_only (load_row l).
Proof.
  apply read_only_bind; [apply read_only_load|]. intros []; done.
Qed.

Lemma read_only_cell self i j : read_only (cell self i j).
Proof.
  unfold cell.
  apply read_only_bind; [apply read_only_load_self|]; intros a.
  apply read_only_bind; [apply read_only_load_rows|]; intros rs.
  apply read_only_bind; [apply read_only_lift|]; intros row.
  apply read_only_bind; [apply read_only_load_row|]; intros cells.
  apply read_only_lift.
Qed.

Lemma read_only_neighbors_loop self row col dirs acc :
  read_only (neighbors_loop self row col dirs acc).
Proof.
  revert acc. induction dirs as [|[dr dc] dirs IH]; intros acc; simpl.
  - apply read_only_ret.
  - apply read_only_bind; [apply read_only_load_self|]; intros a.
    destruct (_ && _ && _ && _); [|apply IH].
    apply read_only_bind; [apply read_only_cell|]; intros c.
    destruct (decide (c ≠ "1"%char)); apply IH.
Qed.

Lemma read_only_get_neighbors self p : read_only (get_neighbors self p).
Proof.
  destruct p as [[row col]|]; [apply read_only_neighbors_loop|done].
Qed.

Lemma read_only_search_step self pq d e : read_only (search_step self pq d e).
Proof.
  unfold search_step.
  destruct (heappop pq) as [[[[cd cur] path] rest]|]; [|apply read_only_ret].
  destruct (decide (cur ∈ e)); [apply read_only_ret|].
  apply read_only_bind; [apply read_only_load_self|]; intros a.
  destruct (decide (cur = a_goal a)); [apply read_only_ret|].
  apply read_only_bind; [apply read_only_get_neighbors|]; intros ns.
  destruct (relax cd path ns rest d). apply read_only_ret.
Qed.

Lemma read_only_search_loop self fuel pq d e :
  read_only (search_loop self fuel pq d e).
Proof.
  revert pq d e. induction fuel as [|fuel IH]; intros pq d e; simpl.
  - apply read_only_lift.
  - apply read_only_bind; [apply read_only_search_step|].
    intros [r|pq' d' e']; [apply read_only_ret|apply IH].
Qed.

(** [find_shortest_path] leaves the world as it finds it. *)
Lemma read_only_find_shortest_path self : read_only (find_shortest_path self).
Proof.
  apply read_only_bind; [apply read_only_load_self|]; intros a.
  apply read_only_search_loop.
Qed.

(** ** The functions of the first part describe the stored instance *)

Lemma getitem_Forall2 {A B : Type} (R : A → B → Prop) l1 l2 i :
  Forall2 R l1 l2 →
  match getitem l1 i, getitem l2 i with
  | Return a, Return b => R a b
  | Raise e1, Raise e2 => e1 = e2
  | _, _ => False
  end.
Proof.
  intros HR. unfold getitem. rewrite <- (Forall2_length _ _ _ HR).
  destruct (_ && _); [|done].
  destruct (l1 !! _) as [a|] eqn:Ha.
  - destruct (Forall2_lookup_l _ _ _ _ _ HR Ha) as (b & -> & Hab). done.
  - destruct (l2 !! _) as [b|] eqn:Hb; [|done].
    destruct (Forall2_lookup_r _ _ _ _ _ HR Hb) as (a & Ha' & _). congruence.
Qed.

Section Represents.
Variables (w : world) (self : loc) (snap : GridPathfinder).
Hypothesis Hrep : represents w self snap.

Lemma cell_represents i j : cell self i j w = (Pure.cell snap i j, w).
Proof.
  destruct Hrep as (a & rs & Hself & Hgrid & Hrows & _).
  unfold cell, Pure.cell.
  rewrite run_bind, (run_load_self w self a Hself).
  rewrite run_bind, (run_load_rows w _ rs Hgrid).
  rewrite run_bind. unfold lift at 1.
  pose proof (getitem_Forall2 _ rs (grid snap) i Hrows) as Hi.
  destruct (getitem rs i) as [r|e|], (getitem (grid snap) i) as [cells|e'|];
    simpl in *; try done; [|by subst].
  rewrite run_bind, (run_load_row w r cells Hi). done.
Qed.

Lemma neighbors_loop_represents row col dirs acc :
  neighbors_loop self row col dirs acc w
  = (Pure.neighbors_loop snap row col dirs acc, w).
Proof.
  destruct Hrep as (a & rs & Hself & _ & _ & Hr & Hc & _).
  revert acc. induction dirs as [|[dr dc] dirs IH]; intros acc; simpl; [done|].
  rewrite run_bind, (run_load_self w self a Hself). rewrite Hr, Hc.
  destruct (_ && _ && _ && _); [|apply IH].
  rewrite run_bind, cell_represents.
  destruct (Pure.cell snap (row + dr) (col + dc)) as [c| |]; simpl; [|done..].
  destruct (decide (c ≠ "1"%char)); apply IH.
Qed.

Lemma get_neighbors_represents p :
  get_neighbors self p w = (Pure.get_neighbors snap p, w).
Proof.
  destruct p as [[row col]|]; [apply neighbors_loop_represents|done].
Qed.

Lemma search_step_represents pq d e :
  search_step self pq d e w
  = (match Pure.search_step snap pq d e with
     | Done (Return r) => Return (Leave r)
     | Done (Raise ex) => Raise ex
     | Done OutOfFuel => OutOfFuel
     | Next pq' d' e' => Return (Continue pq' d' e')
     end, w).
Proof.
  destruct Hrep as (a & rs & Hself & _ & _ & _ & _ & _ & Hgoal).
  unfold search_step, Pure.search_step.
  destruct (heappop pq) as [[[[cd cur] path] rest]|]; [|done].
  destruct (decide (cur ∈ e)); [done|].
  rewrite run_bind, (run_load_self w self a Hself). rewrite Hgoal.
  destruct (decide (cur = goal snap)); [done|].
  rewrite run_bind, get_neighbors_represents.
  destruct (Pure.get_neighbors snap cur) as [ns| |]; [|done..].
  by destruct (relax cd path ns rest d).
Qed.

Lemma search_loop_represents fuel pq d e :
  search_loop self fuel pq d e w = (Pure.search_loop snap fuel pq d e, w).
Proof.
  revert pq d e. induction fuel as [|fuel IH]; intros pq d e; simpl; [done|].
  rewrite run_bind, search_step_represents.
  destruct (Pure.search_step snap pq d e) as [[r| |]|pq' d' e']; [done..|apply IH].
Qed.

(** Run on a stored instance, [find_shortest_path] returns what the
    function of the first part returns, and leaves the world alone. *)
Lemma find_shortest_path_represents :
  find_shortest_path self w = (Pure.find_shortest_path snap, w).
Proof.
  destruct Hrep as (a & rs & Hself & _ & _ & Hr & Hc & Hs & _).
  unfold find_shortest_path.
  rewrite run_bind, (run_load_self w self a Hself).
  rewrite search_loop_represents, Hr, Hc, Hs. done.
Qed.

End Represents.

(** ** What [visualize_path] writes *)

(** Every object of [w0] is still there in [w], with the same contents. *)
Definition unchanged (w0 w : world) : Prop :=
  ∀ l o, heap w0 !! l = Some o → heap w !! l = Some o.

(** A property of the world that a computation keeps, whether it
    returns or raises. *)
Definition keeps {A : Type} (I : world → Prop) (m : M A) : Prop :=
  ∀ w, I w → I (m w).2.

Lemma keeps_read_only {A : Type} (I : world → Prop) (m : M A) :
  read_only m → keeps I m.
Proof. intros Hm w HI. by rewrite Hm. Qed.

Lemma keeps_bind {A B : Type} (I : world → Prop) (m : M A) (f : A → M B) :
  keeps I m → (∀ a, keeps I (f a)) → keeps I (m ≫= f).
Proof.
  intros Hm Hf w HI. rewrite run_bind. specialize (Hm w HI).
  destruct (m w) as [[a| |] w']; simpl in *; [by apply Hf|done..].
Qed.

Lemma unchanged_refl w : unchanged w w.
Proof. by intros l o. Qed.

Lemma unchanged_trans w1 w2 w3 :
  unchanged w1 w2 → unchanged w2 w3 → unchanged w1 w3.
Proof. intros H12 H23 l o Hl. by apply H23, H12. Qed.

Lemma alloc_fresh o w :
  ∃ l, alloc o w = (Return l, {| heap := <[l := o]> (heap w); stdout := stdout w |}) ∧
       heap w !! l = None.
Proof.
  exists (fresh (dom (heap w))). split; [done|].
  apply not_elem_of_dom, is_fresh.
Qed.

Lemma insert_unchanged w l o :
  heap w !! l = None →
  unchanged w {| heap := <[l := o]> (heap w); stdout := stdout w |}.
Proof.
  intros Hl l' o' Hl'. simpl. rewrite lookup_insert_ne; [done|congruence].
Qed.

Lemma getitem_elem_of {A : Type} (l : list A) i a :
  getitem l i = Return a → a ∈ l.
Proof.
  unfold getitem. destruct (_ && _); [|done].
  destruct (l !! _) eqn:E; [|done]. intros [= <-].
  by eapply list_elem_of_lookup_2.
Qed.

(** The copy of the rows consists of new objects. *)
Lemma copy_rows_fresh rs w :
  unchanged w (copy_rows rs w).2 ∧
  ∀ new_rows, (copy_rows rs w).1 = Return new_rows →
    Forall (λ l, heap w !! l = None) new_rows ∧
    Forall (λ l, is_Some (heap (copy_rows rs w).2 !! l)) new_rows.
Proof.
  revert w. induction rs as [|r rs IH]; intros w; simpl.
  { split; [apply unchanged_refl|]. intros ? [= <-]. by split. }
  rewrite run_bind.
  pose proof (read_only_load_row r w) as Hro.
  destruct (load_row r w) as [[cells| |] w1]; simpl in Hro; subst w1;
    [|by split; [apply unchanged_refl|]..].
  rewrite run_bind.
  destruct (alloc_fresh (ORow cells) w) as (l & -> & Hl).
  set (w1 := {| heap := <[l := ORow cells]> (heap w); stdout := stdout w |}).
  rewrite run_bind.
  destruct (IH w1) as [Hun Hnew].
  assert (unchanged w w1) as Hw1 by (by apply insert_unchanged).
  destruct (copy_rows rs w1) as [[new_rows| |] w2]; simpl in *;
    [|by split; [eapply unchanged_trans|]..].
  split; [by eapply unchanged_trans|].
  intros ? [= <-]. destruct (Hnew new_rows eq_refl) as [Hf1 Hf2].
  split; constructor.
  - done.
  - eapply Forall_impl; [exact Hf1|]. intros l' Hl'. simpl in Hl'.
    destruct (decide (l = l')) as [->|Hne]; [by rewrite lookup_insert_eq in Hl'|].
    by rewrite lookup_insert_ne in Hl'.
  - exists (ORow cells). apply Hun. simpl. apply lookup_insert_eq.
  - done.
Qed.

Section Rendering.
Variables (w0 : world) (vis : loc) (new_rows : list loc).

(** While the copy is drawn on: the objects of [w0] are unchanged and
    [vis] still refers to the new rows, none of which is in [w0]. *)
Definition rendering (w : world) : Prop :=
  unchanged w0 w ∧
  heap w !! vis = Some (ORows new_rows) ∧
  (vis ∉ new_rows) ∧
  Forall (λ r, heap w0 !! r = None) new_rows.

Lemma read_only_vis_get r c : read_only (vis_get vis r c).
Proof.
  unfold vis_get.
  apply read_only_bind; [apply read_only_load_rows|]; intros rs.
  apply read_only_bind; [apply read_only_lift|]; intros row.
  apply read_only_bind; [apply read_only_load_row|]; intros cells.
  apply read_only_lift.
Qed.

(** An assignment to [vis_grid[r][c]] writes to one of the new rows. *)
Lemma keeps_vis_set r c ch : keeps rendering (vis_set vis r c ch).
Proof.
  intros w (Hun & Hvis & Hnin & Hfresh). unfold vis_set.
  rewrite run_bind, (run_load_rows w vis new_rows Hvis).
  rewrite run_bind. unfold lift at 1.
  destruct (getitem new_rows r) as [row| |] eqn:Hrow; [|done..].
  apply getitem_elem_of in Hrow.
  rewrite run_bind.
  pose proof (read_only_load_row row w) as Hro.
  destruct (load_row row w) as [[cells| |] w1]; simpl in Hro; subst w1; [|done..].
  rewrite run_bind. unfold lift.
  destruct (setitem cells c ch) as [cells'| |]; [|done..].
  unfold store; simpl. split_and!; [|simpl|done..].
  - intros l o Hl. simpl.
    rewrite lookup_insert_ne; [by apply Hun|]. intros <-.
    eapply Forall_forall in Hfresh; [|exact Hrow]. congruence.
  - rewrite lookup_insert_ne; [done|]. by intros <-.
Qed.

Lemma read_only_not_in_path path r c : read_only (not_in_path path r c).
Proof.
  destruct path as [lp|]; [|done]. unfold not_in_path.
  apply read_only_bind; [|done].
  apply read_only_bind; [apply read_only_load|]. intros []; done.
Qed.

Lemma keeps_skip (I : world → Prop) : keeps I skip.
Proof. by intros w. Qed.

Lemma keeps_mark_explored path items :
  keeps rendering (mark_explored vis path items).
Proof.
  induction items as [|[[r c]|] items IH]; simpl;
    [apply keeps_skip| |by intros w].
  apply keeps_bind; [apply keeps_read_only, read_only_not_in_path|].
  intros outside. apply keeps_bind; [|done].
  destruct outside; [|apply keeps_skip].
  apply keeps_bind; [apply keeps_read_only, read_only_vis_get|]. intros ch.
  destruct (not_marker ch); [apply keeps_vis_set|apply keeps_skip].
Qed.

Lemma keeps_mark_path items : keeps rendering (mark_path vis items).
Proof.
  induction items as [|[[r c]|] items IH]; simpl;
    [apply keeps_skip| |by intros w].
  apply keeps_bind; [apply keeps_read_only, read_only_vis_get|]. intros ch.
  apply keeps_bind; [|done].
  destruct (not_marker ch); [apply keeps_vis_set|apply keeps_skip].
Qed.

Lemma keeps_print_rows rs : keeps rendering (print_rows rs).
Proof.
  induction rs as [|r rs IH]; simpl; [apply keeps_skip|].
  apply keeps_bind; [apply keeps_read_only, read_only_load_row|]. intros cells.
  apply keeps_bind; [|done]. by intros w.
Qed.

End Rendering.

(** [visualize_path] leaves every object that existed before the call
    as it was: the instance, the list of rows and each row, the path and
    the explored set. *)
Lemma visualize_path_unchanged self path explored w :
  unchanged w (visualize_path self path explored w).2.
Proof.
  unfold visualize_path.
  rewrite run_bind.
  pose proof (read_only_load_self self w) as Hro.
  destruct (load_self self w) as [[a| |] w1]; simpl in Hro; subst w1;
    [|apply unchanged_refl..].
  rewrite run_bind.
  pose proof (read_only_load_rows (a_grid a) w) as Hro.
  destruct (load_rows (a_grid a) w) as [[rs| |] w1]; simpl in Hro; subst w1;
    [|apply unchanged_refl..].
  rewrite run_bind.
  destruct (copy_rows_fresh rs w) as [Hun Hnew].
  destruct (copy_rows rs w) as [[new_rows| |] w1]; simpl in *; [|done..].
  destruct (Hnew new_rows eq_refl) as [Hf1 Hf2].
  rewrite run_bind.
  destruct (alloc_fresh (ORows new_rows) w1) as (vis & -> & Hvis).
  set (w2 := {| heap := <[vis := ORows new_rows]> (heap w1); stdout := stdout w1 |}).
  assert (rendering w vis new_rows w2) as Hrend.
  { split_and!; [|apply lookup_insert_eq| |done].
    - eapply unchanged_trans; [exact Hun|]. by apply insert_unchanged.
    - intros Hin. eapply Forall_forall in Hf2; [|exact Hin].
      destruct Hf2 as [? ?]. congruence. }
  match goal with
  | |- unchanged w (?m w2).2 =>
      assert (keeps (rendering w vis new_rows) m) as Hkeeps
  end.
  { apply keeps_bind.
    { apply keeps_read_only, read_only_bind; [apply read_only_load|].
      intros []; done. }
    intros items.
    apply keeps_bind; [apply keeps_mark_explored|]. intros _.
    apply keeps_bind.
    { apply keeps_read_only. destruct path; [|done].
      apply read_only_bind; [apply read_only_load|]. intros []; done. }
    intros items'.
    apply keeps_bind; [apply keeps_mark_path|]. intros _.
    apply keeps_bind; [apply keeps_read_only, read_only_load_rows|].
    intros rs'. apply keeps_print_rows. }
  by destruct (Hkeeps w2 Hrend) as [? _].
Qed.

Lemma unchanged_represents w w' self snap :
  unchanged w w' → represents w self snap → represents w' self snap.
Proof.
  intros Hun (a & rs & Hself & Hgrid & Hrows & Hattrs).
  exists a, rs. split; [by apply Hun|]. split; [by apply Hun|].
  split; [|done].
  eapply Forall2_impl; [exact Hrows|]. intros r cells. apply Hun.
Qed.

(** C9. Neither [find_shortest_path] nor [visualize_path] changes what
    construction built. [find_shortest_path] leaves the whole world as
    it was, and on a stored instance returns what the function of the
    first part returns. After [visualize_path] every object that existed
    before the call has the contents it had: the instance with its
    attributes, the list of rows and each row, the path and the explored
    set passed to it; the rendering is done on new objects. *)
Theorem calls_do_not_mutate :
  (∀ self w, (find_shortest_path self w).2 = w) ∧
  (∀ self w snap,
     represents w self snap →
     find_shortest_path self w = (Pure.find_shortest_path snap, w)) ∧
  (∀ self path explored w l o,
     heap w !! l = Some o →
     heap (visualize_path self path explored w).2 !! l = Some o) ∧
  (∀ self path explored w snap,
     represents w self snap →
     represents (visualize_path self path explored w).2 self snap).
Proof.
  split_and!.
  - apply read_only_find_shortest_path.
  - intros self w snap Hrep. by apply find_shortest_path_represents.
  - intros self path explored w l o. apply visualize_path_unchanged.
  - intros self path explored w snap.
    apply unchanged_represents, visualize_path_unchanged.
Qed.

(** The instance for the grid ["S0", "0G"] at location 0, the path that
    the search returns at location 4 and the explored set at location 5. *)
Definition example_world : world :=
  {| heap :=
       list_to_map
         [(0%nat, OSelf {| a_grid := 1%nat; a_rows := 2; a_cols := 2;
                           a_start := Some (0, 0); a_goal := Some (1, 1) |});
          (1%nat, ORows [2%nat; 3%nat]);
          (2%nat, ORow ["S"%char; "0"%char]);
          (3%nat, ORow ["0"%char; "G"%char]);
          (4%nat, OPath [Some (0, 0); Some (0, 1); Some (1, 1)]);
          (5%nat, OSet [Some (0, 0); Some (1, 0); Some (0, 1); Some (1, 1)])];
     stdout := [] |}.

Lemma calls_do_not_mutate_witness :
  let w' := (visualize_path 0%nat (Some 4%nat) 5%nat example_world).2 in
  (visualize_path 0%nat (Some 4%nat) 5%nat example_world).1 = Return () ∧
  stdout w' = ["S*"; ".G"]%string ∧
  heap w' !! 2%nat = Some (ORow ["S"%char; "0"%char]) ∧
  heap w' !! 3%nat = Some (ORow ["0"%char; "G"%char]) ∧
  heap w' !! 4%nat = Some (OPath [Some (0, 0); Some (0, 1); Some (1, 1)]).
Proof.
  intros w'. split; [vm_compute; reflexivity|].
  split; [vm_compute; reflexivity|].
  destruct calls_do_not_mutate as (_ & _ & Hvis & _).
  split_and!; apply Hvis; reflexivity.
Defined.

(** An assignment through the reference held by the instance, in
    contrast, is seen in the grid of the instance. *)
Example assignment_is_visible :
  heap (vis_set 1%nat 0 1 "*"%char example_world).2 !! 2%nat
  = Some (ORow ["S"%char; "*"%char]).
Proof. vm_compute. reflexivity. Qed.


(** ** What [visualize_path] prints

    The drawing is followed on the contents of the copy: a list of rows
    of characters, read and written by index as Python does. *)

(** [vis_grid[r][c]] and [vis_grid[r][c] = ch] on the contents. *)
Definition grid_get (ct : list (list ascii)) (r c : Z) : outcome ascii :=
  cells ← getitem ct r; getitem cells c.

Definition grid_set (ct : list (list ascii)) (r c : Z) (ch : ascii)
  : outcome (list (list ascii)) :=
  cells ← getitem ct r;
  cells' ← setitem cells c ch;
  setitem ct r cells'.

(** Both loops have one shape: a cell that passes the test and holds no
    marker is overwritten. *)
Fixpoint paint (test : pos → outcome bool) (glyph : ascii)
    (ct : list (list ascii)) (items : list position)
  : outcome (list (list ascii)) :=
  match items with
  | [] => Return ct
  | None :: _ => Raise TypeError
  | Some (r, c) :: items' =>
      outside ← test (r, c);
      ct' ← (if outside : bool
             then ch ← grid_get ct r c;
                  if not_marker ch then grid_set ct r c glyph else Return ct
             else Return ct);
      paint test glyph ct' items'
  end.

(** [(r, c) not in path] on the items of the path. *)
Definition outside_path (path : option (list position)) (p : pos)
  : outcome bool :=
  match path with
  | None => Raise TypeError
  | Some items => Return (bool_decide (Some p ∉ items))
  end.

Definition drawing (g : list (list ascii)) (path : option (list position))
    (explored : list position) : outcome (list (list ascii)) :=
  ct ← paint (outside_path path) "."%char g explored;
  items ← match path with
          | None => Raise TypeError
          | Some items => Return items
          end;
  paint (λ _, Return true) "*"%char ct items.

(** The outcome without its value. *)
Definition void {A : Type} (o : outcome A) : outcome unit :=
  _ ← o; Return ().

(** The argument [path] refers to a list with these items, or is [None]. *)
Definition path_at (w : world) (path : option loc)
    (items : option (list position)) : Prop :=
  match path, items with
  | None, None => True
  | Some lp, Some its => heap w !! lp = Some (OPath its)
  | _, _ => False
  end.

Lemma run_load_path w l items :
  heap w !! l = Some (OPath items) → load_path l w = (Return items, w).
Proof. intros H. unfold load_path. rewrite run_bind. unfold load. by rewrite H. Qed.

Lemma run_load_set w l items :
  heap w !! l = Some (OSet items) → load_set l w = (Return items, w).
Proof. intros H. unfold load_set. rewrite run_bind. unfold load. by rewrite H. Qed.

(** The copy holds the contents of the rows, in new objects that are
    all different. *)
Lemma copy_rows_contents rs g w :
  Forall2 (λ r cells, heap w !! r = Some (ORow cells)) rs g →
  ∃ new_rows w',
    copy_rows rs w = (Return new_rows, w') ∧
    unchanged w w' ∧ stdout w' = stdout w ∧
    NoDup new_rows ∧
    Forall (λ l, heap w !! l = None) new_rows ∧
    Forall2 (λ r cells, heap w' !! r = Some (ORow cells)) new_rows g.
Proof.
  intros Hrows. revert w Hrows.
  induction rs as [|r rs IH] in g |- *; intros w Hrows.
  { apply Forall2_nil_inv_l in Hrows as ->. exists [], w. simpl.
    split_and!; [done|apply unchanged_refl|done|constructor|done|done]. }
  apply Forall2_cons_inv_l in Hrows as (cells & g' & Hr & Hrows & ->).
  simpl. rewrite run_bind, (run_load_row w r cells Hr), run_bind.
  destruct (alloc_fresh (ORow cells) w) as (l & -> & Hl).
  set (w1 := {| heap := <[l := ORow cells]> (heap w); stdout := stdout w |}).
  assert (unchanged w w1) as Hw1 by (by apply insert_unchanged).
  destruct (IH g' w1) as (new_rows & w' & Hcopy & Hun & Hout & Hnd & Hfresh & Hct).
  { eapply Forall2_impl; [exact Hrows|]. intros ? ?. apply Hw1. }
  rewrite run_bind, Hcopy. exists (l :: new_rows), w'.
  split_and!; [done|by eapply unchanged_trans|done| | |].
  - constructor; [|done]. intros Hin.
    eapply Forall_forall in Hfresh; [|exact Hin]. simpl in Hfresh.
    by rewrite lookup_insert_eq in Hfresh.
  - constructor; [done|]. eapply Forall_impl; [exact Hfresh|].
    intros l' Hl'. simpl in Hl'. by apply lookup_insert_None in Hl' as [? _].
  - constructor; [|done]. apply Hun. simpl. apply lookup_insert_eq.
Qed.

(** Printing the rows adds one line per row and changes nothing else. *)
Lemma print_rows_contents rs ct w :
  Forall2 (λ r cells, heap w !! r = Some (ORow cells)) rs ct →
  print_rows rs w =
  (Return (), {| heap := heap w;
                 stdout := stdout w ++ (string_of_list_ascii <$> ct) |}).
Proof.
  intros Hrows. revert w Hrows.
  induction rs as [|r rs IH] in ct |- *; intros w Hrows.
  { apply Forall2_nil_inv_l in Hrows as ->. simpl. unfold skip.
    rewrite app_nil_r. by destruct w. }
  apply Forall2_cons_inv_l in Hrows as (cells & ct' & Hr & Hrows & ->).
  simpl. rewrite run_bind, (run_load_row w r cells Hr), run_bind.
  unfold print at 1. rewrite (IH ct'); [|done]. simpl.
  by rewrite <- app_assoc.
Qed.


(** The index that Python uses for [l[i]] on a list of length [n]. *)
Definition norm_index (n : nat) (i : Z) : nat :=
  Z.to_nat (if i <? 0 then i + Z.of_nat n else i).

(** Where [getitem] finds an element, [setitem] replaces it. *)
Lemma getitem_setitem {A : Type} (l : list A) i a :
  getitem l i = Return a →
  l !! norm_index (length l) i = Some a ∧
  ∀ b, setitem l i b = Return (<[norm_index (length l) i := b]> l).
Proof.
  unfold getitem, setitem, norm_index. destruct (_ && _); [|done].
  destruct (l !! _) as [a'|] eqn:Hk; [|done]. by intros [= ->].
Qed.

Section Drawing.
Variables (w0 : world) (vis : loc) (new_rows : list loc).
Hypothesis new_rows_NoDup : NoDup new_rows.
Hypothesis new_rows_fresh : Forall (λ r, heap w0 !! r = None) new_rows.

(** While the copy is drawn on, it has the contents [ct]; the objects
    of [w0] are unchanged and nothing has been printed. *)
Definition drawn (ct : list (list ascii)) (w : world) : Prop :=
  unchanged w0 w ∧
  heap w !! vis = Some (ORows new_rows) ∧
  Forall2 (λ r cells, heap w !! r = Some (ORow cells)) new_rows ct ∧
  stdout w = stdout w0.

(** After a step with the outcome [o]. *)
Definition drawn_after (o : outcome (list (list ascii))) (w : world) : Prop :=
  match o with
  | Return ct => drawn ct w
  | _ => ∃ ct, drawn ct w
  end.

Lemma vis_get_drawn ct w r c :
  drawn ct w → vis_get vis r c w = (grid_get ct r c, w).
Proof.
  intros (_ & Hvis & Hrows & _). unfold vis_get, grid_get.
  rewrite run_bind, (run_load_rows w vis new_rows Hvis), run_bind.
  unfold lift at 1.
  pose proof (getitem_Forall2 _ _ _ r Hrows) as Hget.
  destruct (getitem new_rows r) as [row| |], (getitem ct r) as [cells| |];
    try done; [|by subst].
  simpl. by rewrite run_bind, (run_load_row w row cells Hget).
Qed.

Lemma vis_set_drawn ct w r c ch :
  drawn ct w →
  ∃ w', vis_set vis r c ch w = (void (grid_set ct r c ch), w') ∧
        drawn_after (grid_set ct r c ch) w'.
Proof.
  intros Hd. pose proof Hd as (Hun & Hvis & Hrows & Hout).
  unfold vis_set, grid_set.
  rewrite run_bind, (run_load_rows w vis new_rows Hvis), run_bind.
  unfold lift at 1.
  pose proof (getitem_Forall2 _ _ _ r Hrows) as Hget.
  destruct (getitem new_rows r) as [row| |] eqn:Hrow,
    (getitem ct r) as [cells| |] eqn:Hcells; try done;
    [|subst; exists w; split; [done|by exists ct]].
  simpl in Hget. simpl.
  rewrite run_bind, (run_load_row w row cells Hget), run_bind.
  unfold lift at 1.
  destruct (setitem cells c ch) as [cells'| |] eqn:Hset; simpl;
    [|exists w; split; [done|by exists ct]..].
  destruct (getitem_setitem _ _ _ Hrow) as [Hk _].
  destruct (getitem_setitem _ _ _ Hcells) as [Hk' Hput].
  rewrite (Hput cells'). clear Hput.
  rewrite <- (Forall2_length _ _ _ Hrows) in *.
  set (k := norm_index (length new_rows) r) in *.
  eexists. split; [done|]. unfold store; simpl.
  split_and!; simpl; [| | |done].
  - intros l o Hl. simpl. rewrite lookup_insert_ne; [by apply Hun|].
    intros <-. apply list_elem_of_lookup_2 in Hk.
    eapply Forall_forall in new_rows_fresh; [|exact Hk]. simpl in *. congruence.
  - rewrite lookup_insert_ne; [done|]. intros <-. congruence.
  - apply Forall2_same_length_lookup. split.
    { rewrite length_insert. by eapply Forall2_length. }
    intros i x y Hx Hy. destruct (decide (i = k)) as [->|Hne].
    + rewrite list_lookup_insert_eq in Hy
        by (by eapply lookup_lt_Some).
      injection Hy as <-. assert (x = row) as -> by congruence.
      apply lookup_insert_eq.
    + rewrite list_lookup_insert_ne in Hy by done.
      rewrite lookup_insert_ne.
      * by eapply (Forall2_lookup_lr _ _ _ _ _ _ Hrows).
      * intros <-. apply Hne. symmetry. by eapply NoDup_lookup.
Qed.

Lemma not_in_path_drawn ct w path pitems r c :
  drawn ct w → path_at w0 path pitems →
  not_in_path path r c w = (outside_path pitems (r, c), w).
Proof.
  intros (Hun & _) Hpath.
  destruct path as [lp|], pitems as [its|]; try done. simpl.
  rewrite run_bind, (run_load_path w lp its); [done|]. by apply Hun.
Qed.

(** One turn of either loop, once the test is made. *)
Lemma turn_drawn ct w r c glyph :
  drawn ct w →
  let o := ch ← grid_get ct r c;
           if not_marker ch then grid_set ct r c glyph else Return ct in
  ∃ w', (ch ← vis_get vis r c;
         if not_marker ch then vis_set vis r c glyph else skip) w
        = (void o, w') ∧ drawn_after o w'.
Proof.
  intros Hd o. unfold o. rewrite run_bind, (vis_get_drawn ct w r c Hd).
  destruct (grid_get ct r c) as [ch| |]; simpl;
    [|exists w; split; [done|by exists ct]..].
  destruct (not_marker ch); [by apply vis_set_drawn|].
  by exists w.
Qed.

Lemma mark_explored_drawn path pitems items ct w :
  drawn ct w → path_at w0 path pitems →
  let o := paint (outside_path pitems) "."%char ct items in
  ∃ w', mark_explored vis path items w = (void o, w') ∧ drawn_after o w'.
Proof.
  intros Hd Hpath. revert ct w Hd.
  induction items as [|[[r c]|] items IH]; intros ct w Hd; simpl.
  - by exists w.
  - rewrite run_bind, (not_in_path_drawn ct w path pitems r c Hd Hpath).
    destruct (outside_path pitems (r, c)) as [outside| |]; simpl;
      [|exists w; split; [done|by exists ct]..].
    rewrite run_bind. destruct outside.
    + destruct (turn_drawn ct w r c "."%char Hd) as (w1 & -> & Hd1).
      simpl in Hd1.
      destruct (ch ← grid_get ct r c;
                if not_marker ch then grid_set ct r c "."%char else Return ct)
        as [ct1| |]; simpl; [by apply IH|by exists w1..].
    + unfold skip at 1. simpl. by apply IH.
  - exists w. split; [done|by exists ct].
Qed.

Lemma mark_path_drawn items ct w :
  drawn ct w →
  let o := paint (λ _, Return true) "*"%char ct items in
  ∃ w', mark_path vis items w = (void o, w') ∧ drawn_after o w'.
Proof.
  intros Hd. revert ct w Hd.
  induction items as [|[[r c]|] items IH]; intros ct w Hd; simpl.
  - by exists w.
  - rewrite run_bind, (vis_get_drawn ct w r c Hd).
    destruct (grid_get ct r c) as [ch| |]; simpl;
      [|exists w; split; [done|by exists ct]..].
    rewrite run_bind. destruct (not_marker ch).
    + destruct (vis_set_drawn ct w r c "*"%char Hd) as (w1 & -> & Hd1).
      destruct (grid_set ct r c "*"%char) as [ct1| |]; simpl;
        [by apply IH|by exists w1..].
    + unfold skip at 1. simpl. by apply IH.
  - exists w. split; [done|by exists ct].
Qed.

End Drawing.


(** [visualize_path] on the store does what [drawing] does on the
    contents of the grid, and prints the result when there is one. *)
Lemma visualize_path_drawing self path pitems explored items w snap :
  represents w self snap → path_at w path pitems →
  heap w !! explored = Some (OSet items) →
  let o := drawing (grid snap) pitems items in
  ∃ w', visualize_path self path explored w = (void o, w') ∧
        stdout w' = stdout w ++ match o with
                                | Return ct => string_of_list_ascii <$> ct
                                | _ => []
                                end.
Proof.
  intros (a & rs & Hself & Hgrid & Hrows & _) Hpath Hexp o.
  unfold visualize_path.
  rewrite run_bind, (run_load_self w self a Hself).
  rewrite run_bind, (run_load_rows w (a_grid a) rs Hgrid), run_bind.
  destruct (copy_rows_contents rs (grid snap) w Hrows)
    as (new_rows & w1 & -> & Hun1 & Hout1 & Hnd & Hfresh & Hct).
  rewrite run_bind.
  destruct (alloc_fresh (ORows new_rows) w1) as (vis & -> & Hvis).
  set (w2 := {| heap := <[vis := ORows new_rows]> (heap w1); stdout := stdout w1 |}).
  assert (unchanged w1 w2) as Hun2 by (by apply insert_unchanged).
  assert (drawn w vis new_rows (grid snap) w2) as Hd.
  { split_and!; [by eapply unchanged_trans|apply lookup_insert_eq| |done].
    eapply Forall2_impl; [exact Hct|]. intros ? ?. apply Hun2. }
  rewrite run_bind, (run_load_set w2 explored items)
    by (by destruct Hd as [Hun _]; apply Hun).
  rewrite run_bind.
  destruct (mark_explored_drawn w vis new_rows Hnd Hfresh path pitems items
              _ w2 Hd Hpath) as (w3 & -> & Hd3).
  unfold o, drawing.
  destruct (paint (outside_path pitems) "."%char (grid snap) items)
    as [ct1| |]; simpl in *;
    [|destruct Hd3 as (? & _ & _ & _ & Hout3); exists w3; by rewrite app_nil_r..].
  rewrite run_bind.
  destruct path as [lp|], pitems as [its|]; try done; simpl in *;
    [|destruct Hd3 as (_ & _ & _ & Hout3); exists w3; by rewrite app_nil_r].
  rewrite (run_load_path w3 lp its) by (by destruct Hd3 as [Hun _]; apply Hun).
  rewrite run_bind.
  destruct (mark_path_drawn w vis new_rows Hnd Hfresh its ct1 w3 Hd3)
    as (w4 & -> & Hd4).
  destruct (paint (λ _, Return true) "*"%char ct1 its) as [ct2| |]; simpl in *;
    [|destruct Hd4 as (? & _ & _ & _ & Hout4); exists w4; by rewrite app_nil_r..].
  destruct Hd4 as (_ & Hvis4 & Hrows4 & Hout4).
  rewrite run_bind, (run_load_rows w4 vis new_rows Hvis4).
  rewrite (print_rows_contents new_rows ct2 w4 Hrows4).
  eexists. split; [done|]. simpl. by rewrite Hout4.
Qed.


(** ** The glyph of each cell *)

(** The character at a position with non-negative coordinates. *)
Definition cell_at (g : list (list ascii)) (p : pos) : option ascii :=
  g !! Z.to_nat p.1 ≫= λ row, row !! Z.to_nat p.2.

(** A position of the grid, written without wrap-around. *)
Definition inside (g : list (list ascii)) (p : pos) : Prop :=
  0 ≤ p.1 ∧ 0 ≤ p.2 ∧ is_Some (cell_at g p).

(** The grid with every cell replaced by a function of its position and
    its character. *)
Definition recolour (f : pos → ascii → ascii) (g : list (list ascii))
  : list (list ascii) :=
  imap (λ r row, imap (λ c ch, f (Z.of_nat r, Z.of_nat c) ch) row) g.

Lemma lookup_recolour f g r c :
  (recolour f g !! r ≫= λ row, row !! c) =
  f (Z.of_nat r, Z.of_nat c) <$> (g !! r ≫= λ row, row !! c).
Proof.
  unfold recolour. rewrite list_lookup_imap.
  destruct (g !! r) as [row|]; [|done]. simpl. by rewrite list_lookup_imap.
Qed.

Lemma recolour_ext f f' g :
  (∀ q ch, cell_at g q = Some ch → f q ch = f' q ch) →
  recolour f g = recolour f' g.
Proof.
  intros Hf. unfold recolour. apply imap_ext. intros r row Hrow.
  apply imap_ext. intros c ch Hch. apply Hf.
  unfold cell_at. simpl. by rewrite !Nat2Z.id, Hrow.
Qed.

Lemma recolour_recolour f f' g :
  recolour f' (recolour f g) = recolour (λ q ch, f' q (f q ch)) g.
Proof.
  apply list_eq. intros r. unfold recolour. rewrite !list_lookup_imap.
  destruct (g !! r) as [row|]; [|done]. simpl. f_equal.
  apply list_eq. intros c. rewrite !list_lookup_imap.
  by destruct (row !! c).
Qed.

Lemma recolour_id f g :
  (∀ q ch, cell_at g q = Some ch → f q ch = ch) → recolour f g = g.
Proof.
  intros Hf. rewrite (recolour_ext f (λ _ ch, ch)) by done.
  apply list_eq. intros r. unfold recolour. rewrite list_lookup_imap.
  destruct (g !! r) as [row|]; [|done]. simpl. f_equal.
  apply list_eq. intros c. rewrite list_lookup_imap.
  by destruct (row !! c).
Qed.

Lemma inside_recolour f g p : inside g p → inside (recolour f g) p.
Proof.
  intros (Hr & Hc & Hcell). split_and!; [done..|].
  unfold cell_at in *. rewrite lookup_recolour.
  destruct Hcell as [ch ->]. by eexists.
Qed.

Lemma grid_get_inside g r c ch :
  0 ≤ r → 0 ≤ c → cell_at g (r, c) = Some ch → grid_get g r c = Return ch.
Proof.
  intros Hr Hc Hcell. unfold cell_at in Hcell. simpl in Hcell.
  unfold grid_get. rewrite getitem_nonneg by done.
  destruct (g !! Z.to_nat r) as [row|]; [|done]. simpl in *.
  rewrite getitem_nonneg by done. by rewrite Hcell.
Qed.

(** Writing one cell changes that cell alone. *)
Lemma grid_set_inside g r c ch glyph :
  0 ≤ r → 0 ≤ c → cell_at g (r, c) = Some ch →
  grid_set g r c glyph =
  Return (recolour (λ q x, if bool_decide (q = (r, c)) then glyph else x) g).
Proof.
  intros Hr Hc Hcell. unfold cell_at in Hcell. simpl in Hcell.
  destruct (g !! Z.to_nat r) as [row|] eqn:Hrow; [|done]. simpl in Hcell.
  assert (getitem g r = Return row) as Hget
    by (by rewrite getitem_nonneg, Hrow).
  assert (getitem row c = Return ch) as Hget'
    by (by rewrite getitem_nonneg, Hcell).
  unfold grid_set. rewrite Hget. simpl.
  destruct (getitem_setitem _ _ _ Hget') as [_ ->]. simpl.
  destruct (getitem_setitem _ _ _ Hget) as [_ ->].
  unfold norm_index.
  destruct (r <? 0) eqn:Hr'; [lia|]. destruct (c <? 0) eqn:Hc'; [lia|].
  f_equal. apply list_eq. intros i. unfold recolour. rewrite list_lookup_imap.
  destruct (decide (i = Z.to_nat r)) as [->|Hi].
  - rewrite list_lookup_insert_eq by (by eapply lookup_lt_Some).
    rewrite Hrow. simpl. f_equal. apply list_eq. intros j.
    rewrite list_lookup_imap.
    destruct (decide (j = Z.to_nat c)) as [->|Hj].
    + rewrite list_lookup_insert_eq by (by eapply lookup_lt_Some).
      rewrite Hcell. simpl. rewrite bool_decide_eq_true_2; [done|].
      f_equal; lia.
    + rewrite list_lookup_insert_ne by done.
      destruct (row !! j); [|done]. simpl.
      rewrite bool_decide_eq_false_2; [done|]. intros [= _ Hjc]. lia.
  - rewrite list_lookup_insert_ne by done.
    destruct (g !! i) as [row'|]; [|done]. simpl. f_equal.
    apply list_eq. intros j. rewrite list_lookup_imap.
    destruct (row' !! j); [|done]. simpl.
    rewrite bool_decide_eq_false_2; [done|]. intros [= Hir _]. lia.
Qed.

(** A loop over positions of the grid overwrites the cells that pass
    its test and hold no marker, and no other. *)
Lemma paint_recolour (P : pos → Prop) `{!∀ p, Decision (P p)} test glyph g items :
  (∀ p, test p = Return (bool_decide (P p))) →
  not_marker glyph = true →
  Forall (inside g) items →
  paint test glyph g (Some <$> items) =
  Return (recolour (λ q ch, if not_marker ch && bool_decide (q ∈ items ∧ P q)
                            then glyph else ch) g).
Proof.
  intros Htest Hglyph. revert g.
  induction items as [|[r c] items IH]; intros g Hin.
  { cbn [fmap list_fmap paint]. f_equal. symmetry. apply recolour_id.
    intros q ch _.
    rewrite bool_decide_eq_false_2, andb_false_r; [done|].
    intros [Hq _]. by apply elem_of_nil in Hq. }
  apply Forall_cons in Hin as [Hp Hin].
  pose proof Hp as (Hr & Hc & [ch Hch]). simpl in Hr, Hc.
  cbn [fmap list_fmap paint]. rewrite Htest. cbn [mbind outcome_bind].
  assert ((if bool_decide (P (r, c))
           then ch ← grid_get g r c;
                if not_marker ch then grid_set g r c glyph else Return g
           else Return g) =
          Return (recolour (λ q x, if bool_decide (q = (r, c) ∧ P q) && not_marker x
                                   then glyph else x) g)) as ->.
  { destruct (decide (P (r, c))) as [HP|HP].
    - rewrite bool_decide_eq_true_2 by done.
      rewrite (grid_get_inside g r c ch) by done. cbn [mbind outcome_bind].
      destruct (not_marker ch) eqn:Hm.
      + rewrite (grid_set_inside g r c ch) by done. f_equal.
        apply recolour_ext. intros q x Hx.
        destruct (decide (q = (r, c))) as [->|Hq].
        * rewrite !bool_decide_eq_true_2 by done.
          assert (x = ch) as -> by congruence. by rewrite Hm.
        * rewrite !bool_decide_eq_false_2; [done|by intros [? _]|done].
      + f_equal. symmetry. apply recolour_id. intros q x Hx.
        destruct (decide (q = (r, c))) as [->|Hq].
        * assert (x = ch) as -> by congruence. by rewrite Hm, andb_false_r.
        * rewrite bool_decide_eq_false_2; [done|by intros [? _]].
    - rewrite bool_decide_eq_false_2 by done. f_equal. symmetry.
      apply recolour_id. intros q x _.
      rewrite bool_decide_eq_false_2; [done|]. by intros [-> ?]. }
  cbn [mbind outcome_bind]. fold (@fmap list _ _ _ Some items).
  rewrite IH
    by (eapply Forall_impl; [exact Hin|]; intros ?; apply inside_recolour).
  rewrite recolour_recolour. f_equal. apply recolour_ext. intros q x _.
  destruct (decide (q = (r, c) ∧ P q)) as [[-> HP]|Hq].
  - rewrite (bool_decide_eq_true_2 (_ = _ ∧ _)) by done.
    rewrite (bool_decide_eq_true_2 (_ ∈ _ :: _ ∧ _))
      by (split; [apply list_elem_of_here|done]).
    destruct (not_marker x) eqn:Hm; simpl; [|by rewrite Hm].
    rewrite Hglyph. simpl. by destruct (bool_decide _).
  - rewrite (bool_decide_eq_false_2 (_ = _ ∧ _)) by done. simpl.
    assert (bool_decide (q ∈ items ∧ P q) = bool_decide (q ∈ (r, c) :: items ∧ P q))
      as ->; [|done].
    apply bool_decide_ext. rewrite elem_of_cons.
    split; intros [Hq' HP]; (split; [|done]); [by right|].
    destruct Hq' as [-> | Hq']; [by destruct Hq|done].
Qed.


(** What a cell shows in the end: markers stay, then the path, then the
    explored cells. *)
Definition glyph (path items : list pos) (q : pos) (ch : ascii) : ascii :=
  if not_marker ch
  then if bool_decide (q ∈ path) then "*"%char
       else if bool_decide (q ∈ items) then "."%char
       else ch
  else ch.

Lemma drawing_glyph g path items :
  Forall (inside g) path → Forall (inside g) items →
  drawing g (Some (Some <$> path)) (Some <$> items) =
  Return (recolour (glyph path items) g).
Proof.
  intros Hpath Hitems. unfold drawing.
  rewrite (paint_recolour (λ p, p ∉ path)); [|intros p|done..].
  2:{ simpl. f_equal. apply bool_decide_ext.
      by rewrite (list_elem_of_fmap_inj Some). }
  cbn [mbind outcome_bind].
  rewrite (paint_recolour (λ _, True)); [|done..|].
  2:{ eapply Forall_impl; [exact Hpath|]. intros ?. apply inside_recolour. }
  rewrite recolour_recolour. f_equal. apply recolour_ext. intros q ch _.
  unfold glyph. destruct (not_marker ch) eqn:Hm; simpl; [|by rewrite Hm].
  destruct (decide (q ∈ path)) as [Hq|Hq].
  - rewrite (bool_decide_eq_false_2 (_ ∧ q ∉ path)) by (by intros [_ ?]).
    rewrite Hm. simpl.
    by rewrite (bool_decide_eq_true_2 (_ ∧ True)), (bool_decide_eq_true_2 (q ∈ path)).
  - rewrite (bool_decide_eq_false_2 (_ ∧ True)) by (by intros [? _]).
    rewrite (bool_decide_eq_false_2 (q ∈ path)) by done.
    rewrite andb_false_r.
    destruct (decide (q ∈ items)) as [Hi|Hi].
    + by rewrite (bool_decide_eq_true_2 (_ ∧ q ∉ path)), bool_decide_eq_true_2.
    + rewrite (bool_decide_eq_false_2 (_ ∧ q ∉ path)) by (by intros [? _]).
      by rewrite bool_decide_eq_false_2.
Qed.

(** ** Errors of the drawing *)

Lemma grid_set_outcome ct r c ch :
  match grid_set ct r c ch with
  | Return ct' => length <$> ct' = length <$> ct
  | Raise _ => True
  | OutOfFuel => False
  end.
Proof.
  unfold grid_set.
  destruct (getitem ct r) as [cells| |] eqn:Hget; simpl; [|done|].
  - destruct (getitem_setitem _ _ _ Hget) as [Hk Hput].
    destruct (setitem cells c ch) as [cells'| |] eqn:Hset; simpl; [|done|];
      unfold setitem in Hset; destruct (_ && _); try done.
    injection Hset as <-.
    rewrite Hput, list_fmap_insert, length_insert.
    apply list_insert_id. by rewrite list_lookup_fmap, Hk.
  - by apply getitem_fuel in Hget.
Qed.

Lemma paint_outcome test glyph ct items :
  (∀ p, test p ≠ OutOfFuel) →
  match paint test glyph ct items with
  | Return ct' => length <$> ct' = length <$> ct ∧ None ∉ items
  | Raise _ => True
  | OutOfFuel => False
  end.
Proof.
  intros Htest. revert ct.
  induction items as [|[[r c]|] items IH]; intros ct; simpl; [| |done].
  { split; [done|]. apply not_elem_of_nil. }
  specialize (Htest (r, c)).
  destruct (test (r, c)) as [outside| |]; simpl; [|done..].
  assert (match (if outside
                 then ch ← grid_get ct r c;
                      if not_marker ch then grid_set ct r c glyph else Return ct
                 else Return ct) with
          | Return ct' => length <$> ct' = length <$> ct
          | Raise _ => True
          | OutOfFuel => False
          end) as Hturn.
  { destruct outside; [|done]. unfold grid_get.
    destruct (getitem ct r) as [cells| |] eqn:Hrow; simpl;
      [|done|by apply getitem_fuel in Hrow].
    destruct (getitem cells c) as [ch| |] eqn:Hch; simpl;
      [|done|by apply getitem_fuel in Hch].
    destruct (not_marker ch); [apply grid_set_outcome|done]. }
  destruct (if outside then _ else _) as [ct1| |]; simpl; [|done..].
  specialize (IH ct1).
  destruct (paint test glyph ct1 items) as [ct2| |]; [|done..].
  destruct IH as [-> Hnone]. split; [done|].
  apply not_elem_of_cons. by split.
Qed.

Lemma drawing_outcome g pitems items :
  match drawing g pitems items with
  | Return ct =>
      length <$> ct = length <$> g ∧ (None ∉ items) ∧
      ∃ its, pitems = Some its ∧ None ∉ its
  | Raise e => (pitems = None → e = TypeError)
  | OutOfFuel => False
  end.
Proof.
  unfold drawing. destruct pitems as [its|].
  - pose proof (paint_outcome (outside_path (Some its)) "."%char g items) as H1.
    destruct (paint (outside_path (Some its)) "."%char g items) as [ct1| |];
      simpl; [|done|by apply H1].
    destruct H1 as [Hshape Hnone]; [done|].
    pose proof (paint_outcome (λ _, Return true) "*"%char ct1 its) as H2.
    destruct (paint (λ _, Return true) "*"%char ct1 its) as [ct2| |];
      [|done|by apply H2].
    destruct H2 as [-> Hnone']; [done|]. eauto.
  - destruct items as [|[[r c]|] items]; simpl; done.
Qed.

Lemma length_string_of_list_ascii (l : list ascii) :
  String.length (string_of_list_ascii l) = length l.
Proof.
  by rewrite <- length_list_ascii_of_string, list_ascii_of_string_of_list_ascii.
Qed.

(** X10. What [visualize_path] prints. When the instance, the path and
    the explored set are in the store and every position of the path
    and of the set is a position of the grid, the call returns and
    prints the grid row by row with, in each cell: the marker, if the
    cell holds ['S'] or ['G']; else ['*'], if the cell is on the path;
    else ['.'], if the cell is explored; else what the grid holds.
    Nothing else is printed. *)
Theorem visualize_path_prints self lp le w snap path items :
  represents w self snap →
  heap w !! lp = Some (OPath (Some <$> path)) →
  heap w !! le = Some (OSet (Some <$> items)) →
  Forall (inside (grid snap)) path → Forall (inside (grid snap)) items →
  ∃ w',
    visualize_path self (Some lp) le w = (Return (), w') ∧
    stdout w' =
    stdout w ++ (string_of_list_ascii <$> recolour (glyph path items) (grid snap)).
Proof.
  intros Hrep Hlp Hle Hpath Hitems.
  destruct (visualize_path_drawing self (Some lp) (Some (Some <$> path)) le
              (Some <$> items) w snap Hrep Hlp Hle) as (w' & Hrun & Hout).
  rewrite (drawing_glyph _ _ _ Hpath Hitems) in Hrun, Hout.
  by exists w'.
Qed.

(** X11. [visualize_path] prints all rows or nothing. With the instance
    in the store, a call either returns, having printed one line per
    row of the grid, each as long as its row, or raises, having printed
    nothing. It raises [TypeError] when [path] is [None], and raises
    when the path or the explored set holds [None]. *)
Theorem visualize_path_all_or_nothing self path pitems le items w snap :
  represents w self snap → path_at w path pitems →
  heap w !! le = Some (OSet items) →
  ∃ o w',
    visualize_path self path le w = (o, w') ∧
    ((o = Return () ∧
      ∃ lines, stdout w' = stdout w ++ lines ∧
               String.length <$> lines = length <$> grid snap) ∨
     ((∃ e, o = Raise e) ∧ stdout w' = stdout w)) ∧
    (path = None → o = Raise TypeError) ∧
    (None ∈ items → ∃ e, o = Raise e) ∧
    (∀ its, pitems = Some its → None ∈ its → ∃ e, o = Raise e).
Proof.
  intros Hrep Hpath Hle.
  destruct (visualize_path_drawing self path pitems le items w snap
              Hrep Hpath Hle) as (w' & Hrun & Hout).
  pose proof (drawing_outcome (grid snap) pitems items) as Ho.
  exists (void (drawing (grid snap) pitems items)), w'. split; [done|].
  destruct (drawing (grid snap) pitems items) as [ct|e|]; simpl in *; [| |done].
  - destruct Ho as (Hshape & Hnone & its & -> & Hnone').
    split_and!.
    + left. split; [done|]. eexists. split; [done|].
      rewrite <- list_fmap_compose, <- Hshape. apply list_fmap_ext.
      intros _ cells _. apply length_string_of_list_ascii.
    + intros ->. destruct Hpath.
    + done.
    + by intros ? [= <-].
  - rewrite app_nil_r in Hout. split_and!; eauto.
    intros ->. destruct pitems; [done|]. by rewrite Ho.
Qed.


Lemma visualize_path_prints_witness :
  ∃ w',
    visualize_path 0%nat (Some 4%nat) 5%nat example_world = (Return (), w') ∧
    stdout w' = ["S*"; ".G"]%string.
Proof.
  destruct (visualize_path_prints 0%nat 4%nat 5%nat example_world
              {| grid := [["S"; "0"]; ["0"; "G"]]%char; rows := 2; cols := 2;
                 start := Some (0, 0); goal := Some (1, 1) |}
              [(0, 0); (0, 1); (1, 1)] [(0, 0); (1, 0); (0, 1); (1, 1)])
    as (w' & Hrun & Hout).
  - exists {| a_grid := 1%nat; a_rows := 2; a_cols := 2;
              a_start := Some (0, 0); a_goal := Some (1, 1) |}, [2%nat; 3%nat].
    split_and!; try reflexivity. repeat constructor.
  - reflexivity.
  - reflexivity.
  - repeat constructor; simpl; try lia; by eexists.
  - repeat constructor; simpl; try lia; by eexists.
  - exists w'. split; [done|]. rewrite Hout. vm_compute. reflexivity.
Defined.

Lemma visualize_path_all_or_nothing_witness :
  ∃ w',
    visualize_path 0%nat None 5%nat example_world = (Raise TypeError, w') ∧
    stdout w' = [].
Proof.
  destruct (visualize_path_all_or_nothing 0%nat None None 5%nat
              [Some (0, 0); Some (1, 0); Some (0, 1); Some (1, 1)] example_world
              {| grid := [["S"; "0"]; ["0"; "G"]]%char; rows := 2; cols := 2;
                 start := Some (0, 0); goal := Some (1, 1) |})
    as (o & w' & Hrun & Hprint & Hnone & _).
  - exists {| a_grid := 1%nat; a_rows := 2; a_cols := 2;
              a_start := Some (0, 0); a_goal := Some (1, 1) |}, [2%nat; 3%nat].
    split_and!; try reflexivity. repeat constructor.
  - exact I.
  - reflexivity.
  - rewrite (Hnone eq_refl) in *. exists w'. split; [done|].
    by destruct Hprint as [[? _]|[_ ->]].
Defined.

Lemma traversable_inside self p : traversable self p → inside (grid self) p.
Proof.
  intros [Hb (ch & Hm & _)]. destruct p as [r c].
  unfold in_bounds in Hb. simpl in Hb.
  assert (0 ≤ r ∧ 0 ≤ c) as [Hr Hc] by lia.
  unfold marker, Pure.cell in Hm. simpl in Hm.
  rewrite getitem_nonneg in Hm by done.
  destruct (grid self !! Z.to_nat r) as [row|] eqn:Hrow; [|done]. simpl in Hm.
  rewrite getitem_nonneg in Hm by done.
  destruct (row !! Z.to_nat c) as [ch'|] eqn:Hch; [|done].
  split_and!; [done..|]. unfold cell_at. simpl. rewrite Hrow. simpl.
  by rewrite Hch.
Qed.

Lemma all_Some {A : Type} (Q : A → Prop) (l : list (option A)) :
  (∀ x, x ∈ l → ∃ p, x = Some p ∧ Q p) →
  ∃ l', l = Some <$> l' ∧ Forall Q l'.
Proof.
  induction l as [|x l IH]; intros Hl; [by exists []|].
  destruct (Hl x) as (p & -> & Hp); [apply list_elem_of_here|].
  destruct IH as (l' & -> & Hl'); [intros y Hy; apply Hl; by right|].
  exists (p :: l'). split; [done|]. by constructor.
Qed.

(** The lines that show a path and an explored set on a grid. *)
Definition rendered (path : list position) (explored : gset position)
    (g : list (list ascii)) : list string :=
  string_of_list_ascii <$>
    recolour (λ q ch,
                if not_marker ch
                then if bool_decide (Some q ∈ path) then "*"%char
                     else if bool_decide (Some q ∈ explored) then "."%char
                     else ch
                else ch) g.

(** X12. The search and the rendering fit together. On a constructed
    grid with a start, when [find_shortest_path] returns a path, then
    [visualize_path] called with that path and that explored set
    returns, whatever the order in which the set is iterated, and prints
    the grid with ['*'] on the cells of the path and ['.'] on the other
    explored cells, the cells holding ['S'] and ['G'] apart. *)
Theorem search_then_visualize (g : list string) snap s path explored
    self lp le items w :
  __init__ g = Return snap → start snap = Some s →
  Pure.find_shortest_path snap = Return (Some path, explored) →
  represents w self snap →
  heap w !! lp = Some (OPath path) → heap w !! le = Some (OSet items) →
  (∀ x, x ∈ items ↔ x ∈ explored) →
  ∃ w',
    visualize_path self (Some lp) le w = (Return (), w') ∧
    stdout w' = stdout w ++ rendered path explored (grid snap).
Proof.
  intros Hinit Hstart Hfind Hrep Hlp Hle Hitems.
  pose proof (start_traversable g snap s Hinit Hstart) as Hs.
  pose proof (find_shortest_path_post snap s Hstart) as Hpost.
  rewrite Hfind in Hpost. simpl in Hpost.
  destruct Hpost as (t & l & _ & -> & Hw & _ & _ & _ & Hexp).
  destruct (walk_connects _ _ _ _ Hs Hw) as (_ & _ & Hall & _).
  destruct (all_Some (traversable snap) items) as (seen & -> & Hseen).
  { intros x Hx. destruct (Hexp x) as (p & -> & l' & Hw'); [by apply Hitems|].
    exists p. split; [done|].
    destruct (walk_connects _ _ _ _ Hs Hw') as (_ & Hlast & Hall' & _).
    eapply Forall_forall in Hall'; [exact Hall'|].
    rewrite last_lookup in Hlast. by eapply list_elem_of_lookup_2. }
  destruct (visualize_path_drawing self (Some lp) (Some (Some <$> l)) le
              (Some <$> seen) w snap Hrep Hlp Hle) as (w' & Hrun & Hout).
  rewrite drawing_glyph in Hrun, Hout
    by (eapply Forall_impl; [eassumption|]; apply traversable_inside).
  exists w'. split; [done|]. rewrite Hout. unfold rendered. do 2 f_equal.
  apply recolour_ext. intros q ch _. unfold glyph.
  rewrite (bool_decide_ext (q ∈ l) (Some q ∈ Some <$> l))
    by (by rewrite (list_elem_of_fmap_inj Some)).
  rewrite (bool_decide_ext (q ∈ seen) (Some q ∈ explored)); [done|].
  by rewrite <- Hitems, (list_elem_of_fmap_inj Some).
Qed.

Lemma search_then_visualize_witness :
  ∃ w',
    visualize_path 0%nat (Some 4%nat) 5%nat example_world = (Return (), w') ∧
    stdout w' = ["S*"; ".G"]%string.
Proof.
  assert (∃ snap, __init__ ["S0"; "0G"]%string = Return snap) as [snap Hinit]
    by (eexists; vm_compute; reflexivity).
  assert (∃ explored,
            Pure.find_shortest_path snap =
            Return (Some [Some (0, 0); Some (0, 1); Some (1, 1)], explored) ∧
            explored = list_to_set [Some (0, 0); Some (1, 0); Some (0, 1); Some (1, 1)])
    as (explored & Hfind & Hexplored).
  { vm_compute in Hinit. injection Hinit as <-. eexists. split; vm_compute; reflexivity. }
  destruct (search_then_visualize _ snap (0, 0)
              [Some (0, 0); Some (0, 1); Some (1, 1)] explored 0%nat 4%nat 5%nat
              [Some (0, 0); Some (1, 0); Some (0, 1); Some (1, 1)] example_world
              Hinit)
    as (w' & Hrun & Hout).
  - vm_compute in Hinit. by injection Hinit as <-.
  - exact Hfind.
  - vm_compute in Hinit. injection Hinit as <-.
    exists {| a_grid := 1%nat; a_rows := 2; a_cols := 2;
              a_start := Some (0, 0); a_goal := Some (1, 1) |}, [2%nat; 3%nat].
    split_and!; try reflexivity. repeat constructor.
  - reflexivity.
  - reflexivity.
  - intros x. rewrite Hexplored, elem_of_list_to_set. done.
  - exists w'. split; [done|]. rewrite Hout, Hexplored.
    vm_compute in Hinit. injection Hinit as <-. vm_compute. reflexivity.
Defined.


(** ** The example usage

    The block under [if __name__ == "__main__":], for a grid [grid]. *)

(** [[list(row) for row in grid]]: a new list object per row. *)
Fixpoint alloc_rows (g : list (list ascii)) : M (list loc) :=
  match g with
  | [] => mret []
  | cells :: g' =>
      r ← alloc (ORow cells);
      rs ← alloc_rows g';
      mret (r :: rs)
  end.

(** [GridPathfinder(grid)]. The attributes are those that [__init__]
    computes; the instance, its list of rows and the rows are new
    objects. Objects made before a raise cannot be reached afterwards
    and are left out. *)
Definition new_pathfinder (grid : list string) : M loc :=
  snap ← lift (Pure.__init__ grid);
  rs ← alloc_rows (Pure.grid snap);
  lg ← alloc (ORows rs);
  alloc (OSelf {| a_grid := lg; a_rows := rows snap; a_cols := cols snap;
                  a_start := start snap; a_goal := goal snap |}).

(** [str(n)] of an integer, as [print] shows it. *)
Definition str (n : Z) : string := NilZero.string_of_int (Z.to_int n).

(** The newline character of ["\n"]. *)
Definition nl : string := String "010"%char EmptyString.

Section Main.

(** The order in which a set is iterated is not fixed by the language. *)
Variable order : gset position → list position.

(** The block from the line after the search on. The path and the
    explored set that the search returned are objects. [if path:] takes
    [None] and the empty list as false. *)
Definition report (pathfinder : loc) (r : result) : M unit :=
  let '(path, explored) := r in
  path_ref ← match path with
             | None => mret None
             | Some items => lp ← alloc (OPath items); mret (Some lp)
             end;
  explored_ref ← alloc (OSet (order explored));
  match path with
  | Some ((_ :: _) as items) =>
      print ("Path found! Length: " ++ str (Z.of_nat (length items) - 1));;
      print (nl ++ "Visualization ('.' = explored, '*' = path):");;
      visualize_path pathfinder path_ref explored_ref;;
      directions ← lift (path_directions items);
      print (nl ++ "Directions: " ++ directions)
  | _ => print "No path found!"
  end.

Definition main (grid : list string) : M unit :=
  pathfinder ← new_pathfinder grid;
  r ← find_shortest_path pathfinder;
  report pathfinder r.

End Main.

Lemma alloc_rows_contents g w :
  ∃ rs w',
    alloc_rows g w = (Return rs, w') ∧
    unchanged w w' ∧ stdout w' = stdout w ∧
    Forall2 (λ r cells, heap w' !! r = Some (ORow cells)) rs g.
Proof.
  revert w. induction g as [|cells g IH]; intros w; simpl.
  { exists [], w. split_and!; [done|apply unchanged_refl|done|done]. }
  rewrite run_bind.
  destruct (alloc_fresh (ORow cells) w) as (l & -> & Hl).
  set (w1 := {| heap := <[l := ORow cells]> (heap w); stdout := stdout w |}).
  assert (unchanged w w1) as Hw1 by (by apply insert_unchanged).
  destruct (IH w1) as (rs & w' & Hrun & Hun & Hout & Hrows).
  rewrite run_bind, Hrun. exists (l :: rs), w'.
  split_and!; [done|by eapply unchanged_trans|done|].
  constructor; [|done]. apply Hun. simpl. apply lookup_insert_eq.
Qed.

(** Construction puts the instance that [__init__] computes into the
    store. *)
Lemma new_pathfinder_represents grid w :
  match Pure.__init__ grid with
  | Return snap =>
      ∃ self w', new_pathfinder grid w = (Return self, w') ∧
                 represents w' self snap ∧ stdout w' = stdout w
  | Raise e => new_pathfinder grid w = (Raise e, w)
  | OutOfFuel => new_pathfinder grid w = (OutOfFuel, w)
  end.
Proof.
  unfold new_pathfinder. rewrite run_bind. unfold lift at 1.
  destruct (Pure.__init__ grid) as [snap| |]; [|done..].
  destruct (alloc_rows_contents (Pure.grid snap) w)
    as (rs & w1 & Hrun & Hun1 & Hout1 & Hrows).
  rewrite run_bind, Hrun, run_bind.
  destruct (alloc_fresh (ORows rs) w1) as (lg & -> & Hlg).
  set (w2 := {| heap := <[lg := ORows rs]> (heap w1); stdout := stdout w1 |}).
  assert (unchanged w1 w2) as Hun2 by (by apply insert_unchanged).
  set (a := {| a_grid := lg; a_rows := rows snap; a_cols := cols snap;
               a_start := start snap; a_goal := goal snap |}).
  destruct (alloc_fresh (OSelf a) w2) as (self & -> & Hself).
  eexists _, _. split; [done|]. split; [|done].
  exists a, rs. simpl. split_and!; try done.
  - apply lookup_insert_eq.
  - rewrite lookup_insert_ne; [apply lookup_insert_eq|].
    intros <-. simpl in Hself. by rewrite lookup_insert_eq in Hself.
  - eapply Forall2_impl; [exact Hrows|]. intros r cells Hr. simpl.
    rewrite lookup_insert_ne; [by apply Hun2|].
    intros <-. apply Hun2 in Hr. congruence.
Qed.


Lemma report_no_path order pathfinder path explored w :
  path = None ∨ path = Some [] →
  ∃ w', report order pathfinder (path, explored) w = (Return (), w') ∧
        stdout w' = stdout w ++ ["No path found!"%string].
Proof.
  intros Hpath. unfold report.
  assert (∃ path_ref w1,
            match path with
            | None => mret None
            | Some items => lp ← alloc (OPath items); mret (Some lp)
            end w = (Return path_ref, w1) ∧ stdout w1 = stdout w)
    as (path_ref & w1 & Hrun & Hout1).
  { destruct Hpath as [-> | ->]; [by exists None, w|].
    rewrite run_bind. destruct (alloc_fresh (OPath []) w) as (lp & -> & _).
    by eexists _, _. }
  rewrite run_bind, Hrun, run_bind.
  destruct (alloc_fresh (OSet (order explored)) w1) as (le & -> & _).
  destruct Hpath as [-> | ->]; (eexists; split; [done|]; simpl; by rewrite Hout1).
Qed.

(** With a list that is not empty, the block reports a path, renders
    it and prints the directions, as far as it gets. *)
Lemma report_path order pathfinder snap item items explored w :
  represents w pathfinder snap →
  let path := item :: items in
  let vis := drawing (grid snap) (Some path) (order explored) in
  ∃ w',
    report order pathfinder (Some path, explored) w =
    (_ ← vis; _ ← path_directions path; Return (), w') ∧
    stdout w' =
    stdout w ++
    [("Path found! Length: " ++ str (Z.of_nat (length path) - 1))%string;
     (nl ++ "Visualization ('.' = explored, '*' = path):")%string] ++
    match vis with
    | Return ct =>
        (string_of_list_ascii <$> ct) ++
        match path_directions path with
        | Return directions => [(nl ++ "Directions: " ++ directions)%string]
        | _ => []
        end
    | _ => []
    end.
Proof.
  intros Hrep path vis. subst vis path. unfold report.
  rewrite run_bind, run_bind.
  destruct (alloc_fresh (OPath (item :: items)) w) as (lp & -> & Hlp).
  set (w1 := {| heap := <[lp := OPath (item :: items)]> (heap w);
                stdout := stdout w |}).
  assert (unchanged w w1) as Hun1 by (by apply insert_unchanged).
  unfold mret at 1, M_ret at 1. rewrite run_bind.
  destruct (alloc_fresh (OSet (order explored)) w1) as (le & -> & Hle).
  set (w2 := {| heap := <[le := OSet (order explored)]> (heap w1);
                stdout := stdout w1 |}).
  assert (unchanged w1 w2) as Hun2 by (by apply insert_unchanged).
  rewrite run_bind. unfold print at 1.
  rewrite run_bind. unfold print at 1. simpl heap. simpl stdout.
  match goal with
  | |- ∃ w', (_ ≫= _) ?x = _ ∧ _ => set (w3 := x)
  end.
  assert (unchanged w w3) as Hun3.
  { intros l o Hl. apply Hun1, Hun2 in Hl. exact Hl. }
  destruct (visualize_path_drawing pathfinder (Some lp) (Some (item :: items)) le
              (order explored) w3 snap) as (w4 & Hrun & Hout).
  { by eapply unchanged_represents. }
  { simpl. rewrite lookup_insert_ne; [apply lookup_insert_eq|].
    intros <-. simpl in Hle. by rewrite lookup_insert_eq in Hle. }
  { simpl. apply lookup_insert_eq. }
  rewrite run_bind, Hrun.
  destruct (drawing (grid snap) (Some (item :: items)) (order explored))
    as [ct| |]; simpl in *.
  - rewrite run_bind. unfold lift at 1.
    destruct (path_directions (item :: items)) as [directions| |]; simpl.
    + eexists. split; [done|]. simpl. rewrite Hout.
      by rewrite <- !app_assoc.
    + exists w4. split; [done|]. rewrite Hout. by rewrite <- !app_assoc, app_nil_r.
    + exists w4. split; [done|]. rewrite Hout. by rewrite <- !app_assoc, app_nil_r.
  - exists w4. split; [done|]. rewrite Hout. by rewrite <- !app_assoc, !app_nil_r.
  - exists w4. split; [done|]. rewrite Hout. by rewrite <- !app_assoc, !app_nil_r.
Qed.


Lemma main_search order g snap w :
  Pure.__init__ g = Return snap →
  ∃ pathfinder w1,
    represents w1 pathfinder snap ∧ stdout w1 = stdout w ∧
    main order g w =
    match Pure.find_shortest_path snap with
    | Return r => report order pathfinder r w1
    | Raise e => (Raise e, w1)
    | OutOfFuel => (OutOfFuel, w1)
    end.
Proof.
  intros Hinit. pose proof (new_pathfinder_represents g w) as Hnew.
  rewrite Hinit in Hnew. destruct Hnew as (pathfinder & w1 & Hrun & Hrep & Hout).
  exists pathfinder, w1. split_and!; [done..|].
  unfold main. rewrite run_bind, Hrun, run_bind.
  rewrite (find_shortest_path_represents w1 pathfinder snap Hrep).
  by destruct (Pure.find_shortest_path snap).
Qed.

(** The cells of a returned path and of the explored set. *)
Lemma search_result_cells (g : list string) snap s path explored items :
  Pure.__init__ g = Return snap → start snap = Some s →
  Pure.find_shortest_path snap = Return (Some path, explored) →
  (∀ x, x ∈ items ↔ x ∈ explored) →
  ∃ l seen,
    path = Some <$> s :: l ∧ items = Some <$> seen ∧ steps (s :: l) ∧
    Forall (inside (grid snap)) (s :: l) ∧ Forall (inside (grid snap)) seen.
Proof.
  intros Hinit Hstart Hfind Hitems.
  pose proof (start_traversable g snap s Hinit Hstart) as Hs.
  pose proof (find_shortest_path_post snap s Hstart) as Hpost.
  rewrite Hfind in Hpost. simpl in Hpost.
  destruct Hpost as (t & l & _ & -> & Hw & _ & _ & _ & Hexp).
  pose proof (walk_head _ _ _ _ Hw) as Hhd.
  destruct (walk_connects _ _ _ _ Hs Hw) as (_ & _ & Hall & Hsteps).
  destruct l as [|p l]; [done|]. injection Hhd as ->.
  destruct (all_Some (traversable snap) items) as (seen & -> & Hseen).
  { intros x Hx. destruct (Hexp x) as (p & -> & l' & Hw'); [by apply Hitems|].
    exists p. split; [done|].
    destruct (walk_connects _ _ _ _ Hs Hw') as (_ & Hlast & Hall' & _).
    eapply Forall_forall in Hall'; [exact Hall'|].
    rewrite last_lookup in Hlast. by eapply list_elem_of_lookup_2. }
  exists l, seen. split_and!; [done..| |];
    (eapply Forall_impl; [eassumption|]; apply traversable_inside).
Qed.

(** X13. What the example usage prints for a grid with a start. When
    the search returns a path, the block returns after printing the
    number of edges of the path, the heading, the rendering of the path
    and the explored set on the grid, and one direction letter per
    edge, which lead from the start through the path; the order in
    which the explored set is iterated makes no difference. When the
    search returns no path, it prints that none was found and nothing
    else. When the search raises, nothing is printed. *)
Theorem main_reports order (g : list string) snap s w :
  (∀ e x, x ∈ order e ↔ x ∈ e) →
  Pure.__init__ g = Return snap → start snap = Some s →
  (∀ path explored,
     Pure.find_shortest_path snap = Return (Some path, explored) →
     ∃ w' directions,
       main order g w = (Return (), w') ∧
       path_directions path = Return directions ∧
       String.length directions = edge_count path ∧
       Some <$> follow s (list_ascii_of_string directions) = path ∧
       stdout w' =
       stdout w ++
       [("Path found! Length: " ++ str (Z.of_nat (edge_count path)))%string;
        (nl ++ "Visualization ('.' = explored, '*' = path):")%string] ++
       rendered path explored (grid snap) ++
       [(nl ++ "Directions: " ++ directions)%string]) ∧
  (∀ explored,
     Pure.find_shortest_path snap = Return (None, explored) →
     ∃ w', main order g w = (Return (), w') ∧
           stdout w' = stdout w ++ ["No path found!"%string]) ∧
  (∀ e,
     Pure.find_shortest_path snap = Raise e →
     ∃ w', main order g w = (Raise e, w') ∧ stdout w' = stdout w).
Proof.
  intros Horder Hinit Hstart.
  destruct (main_search order g snap w Hinit)
    as (pathfinder & w1 & Hrep & Hout1 & Hmain).
  split_and!.
  - intros path explored Hfind. rewrite Hfind in Hmain.
    destruct (search_result_cells g snap s path explored (order explored)
                Hinit Hstart Hfind (Horder explored))
      as (l & seen & -> & Hseen & Hsteps & Hl & Hin).
    destruct (report_path order pathfinder snap (Some s) (Some <$> l) explored
                w1 Hrep) as (w' & Hrun & Hout).
    change (Some s :: (Some <$> l)) with (Some <$> s :: l) in Hrun, Hout.
    rewrite Hseen in Hrun, Hout.
    rewrite (drawing_glyph _ _ _ Hl Hin) in Hrun, Hout.
    destruct (path_directions_steps s l Hsteps) as (ds & Hds & Hlen & Hfollow).
    rewrite Hds in Hrun, Hout. simpl in Hrun.
    exists w', ds. split_and!.
    + by rewrite Hmain.
    + done.
    + rewrite Hlen. unfold edge_count. by rewrite !length_fmap.
    + by rewrite Hfollow.
    + rewrite Hout, Hout1. f_equal.
      replace (Z.of_nat (length (Some <$> s :: l)) - 1)
        with (Z.of_nat (edge_count (Some <$> s :: l)))
        by (unfold edge_count; simpl; lia).
      do 3 f_equal. unfold rendered. f_equal.
      apply recolour_ext. intros q ch _. unfold glyph.
      rewrite (bool_decide_ext (q ∈ s :: l) (Some q ∈ Some <$> s :: l))
        by (by rewrite (list_elem_of_fmap_inj Some)).
      rewrite (bool_decide_ext (q ∈ seen) (Some q ∈ explored)); [done|].
      by rewrite <- (Horder explored), Hseen, (list_elem_of_fmap_inj Some).
  - intros explored Hfind. rewrite Hfind in Hmain.
    destruct (report_no_path order pathfinder None explored w1)
      as (w' & Hrun & Hout); [by left|].
    exists w'. by rewrite Hmain, Hout, Hout1.
  - intros e Hfind. rewrite Hfind in Hmain. by exists w1.
Qed.

(** X14. The example usage on a rectangular grid with a marker missing.
    With neither ['S'] nor ['G'] in the grid the block announces a path
    of length 0, prints the heading and then raises [TypeError]. With
    ['G'] but no ['S'] it raises [TypeError] and prints nothing. With
    ['S'] but no ['G'] it prints that no path was found. *)
Theorem main_missing_marker order (g : list string) w :
  (∀ e x, x ∈ order e ↔ x ∈ e) →
  g ≠ [] → grid_rectangular g →
  (¬ contains g "S"%char → ¬ contains g "G"%char →
   ∃ w', main order g w = (Raise TypeError, w') ∧
         stdout w' =
         stdout w ++
         ["Path found! Length: 0"%string;
          (nl ++ "Visualization ('.' = explored, '*' = path):")%string]) ∧
  (¬ contains g "S"%char → contains g "G"%char →
   ∃ w', main order g w = (Raise TypeError, w') ∧ stdout w' = stdout w) ∧
  (contains g "S"%char → ¬ contains g "G"%char →
   ∃ w', main order g w = (Return (), w') ∧
         stdout w' = stdout w ++ ["No path found!"%string]).
Proof.
  intros Horder Hne Hrect.
  destruct (init_rectangular g Hne Hrect) as (snap & Hinit & _).
  destruct (init_markers g snap Hinit Hrect) as (_ & HS & HG).
  destruct (main_search order g snap w Hinit)
    as (pathfinder & w1 & Hrep & Hout1 & Hmain).
  assert (¬ contains g "S"%char → start snap = None) as HnS.
  { intros Hn. destruct (start snap) eqn:E; [|done].
    destruct Hn. apply HS. by eexists. }
  assert (¬ contains g "G"%char → goal snap = None) as HnG.
  { intros Hn. destruct (goal snap) eqn:E; [|done].
    destruct Hn. apply HG. by eexists. }
  split_and!.
  - intros Hs Hg.
    rewrite (find_shortest_path_None snap (HnS Hs)) in Hmain.
    rewrite decide_True in Hmain by auto.
    destruct (report_path order pathfinder snap None [] {[None]} w1 Hrep)
      as (w' & Hrun & Hout).
    assert (∃ items, order {[None]} = None :: items) as [items Hitems].
    { destruct (order {[None]}) as [|x items] eqn:E.
      - assert (None ∈ order {[None]}) as Hin
          by (apply Horder; by apply elem_of_singleton).
        rewrite E in Hin. by apply elem_of_nil in Hin.
      - assert (x ∈ order {[None]}) as Hin
          by (rewrite E; apply list_elem_of_here).
        apply Horder, elem_of_singleton in Hin as ->. by exists items. }
    rewrite Hitems in Hrun, Hout. simpl in Hrun, Hout.
    exists w'. by rewrite Hmain, Hout, Hout1.
  - intros Hs Hg.
    rewrite (find_shortest_path_None snap (HnS Hs)) in Hmain.
    rewrite decide_False in Hmain.
    + by exists w1.
    + apply HG in Hg as [t Ht]. congruence.
  - intros Hs Hg. apply HS in Hs as [s Hstart].
    destruct (search_rectangular g snap s Hinit Hrect Hstart)
      as [(t & _ & _ & Ht & _)|(explored & Hfind & _)].
    { rewrite (HnG Hg) in Ht. done. }
    rewrite Hfind in Hmain.
    destruct (report_no_path order pathfinder None explored w1)
      as (w' & Hrun & Hout); [by left|].
    exists w'. by rewrite Hmain, Hout, Hout1.
Qed.


Lemma main_reports_witness :
  ∃ w',
    main elements ["S0"; "0G"]%string {| heap := ∅; stdout := [] |}
    = (Return (), w') ∧
    stdout w' =
    ["Path found! Length: 2";
     nl ++ "Visualization ('.' = explored, '*' = path):";
     "S*"; ".G";
     nl ++ "Directions: ES"]%string.
Proof.
  assert (∃ snap, Pure.__init__ ["S0"; "0G"]%string = Return snap) as [snap Hinit]
    by (eexists; vm_compute; reflexivity).
  assert (∃ explored,
            Pure.find_shortest_path snap =
            Return (Some [Some (0, 0); Some (0, 1); Some (1, 1)], explored) ∧
            explored = list_to_set [Some (0, 0); Some (1, 0); Some (0, 1); Some (1, 1)])
    as (explored & Hfind & Hexplored).
  { vm_compute in Hinit. injection Hinit as <-. eexists. split; vm_compute; reflexivity. }
  destruct (main_reports elements ["S0"; "0G"]%string snap (0, 0)
              {| heap := ∅; stdout := [] |})
    as (Hfound & _ & _).
  - intros e x. apply elem_of_elements.
  - exact Hinit.
  - vm_compute in Hinit. by injection Hinit as <-.
  - destruct (Hfound _ _ Hfind) as (w' & ds & Hrun & Hds & _ & _ & Hout).
    exists w'. split; [done|]. rewrite Hout, Hexplored.
    vm_compute in Hds. injection Hds as <-.
    vm_compute in Hinit. injection Hinit as <-. vm_compute. reflexivity.
Defined.

Lemma main_missing_marker_witness :
  ∃ w',
    main elements ["00"; "00"]%string {| heap := ∅; stdout := [] |}
    = (Raise TypeError, w') ∧
    stdout w' =
    ["Path found! Length: 0";
     nl ++ "Visualization ('.' = explored, '*' = path):"]%string.
Proof.
  assert (∀ c, c ≠ "0"%char → ¬ contains ["00"; "00"]%string c) as Hnone.
  { intros c Hc (row & Hrow & Hin).
    repeat (apply elem_of_cons in Hrow as [-> | Hrow]);
      try (by apply elem_of_nil in Hrow);
      simpl in Hin;
      repeat (apply elem_of_cons in Hin as [-> | Hin]);
      try done; by apply elem_of_nil in Hin. }
  destruct (main_missing_marker elements ["00"; "00"]%string
              {| heap := ∅; stdout := [] |}) as (Hboth & _ & _).
  - intros e x. apply elem_of_elements.
  - done.
  - intros r1 r2 H1 H2.
    repeat (apply elem_of_cons in H1 as [-> | H1]);
      repeat (apply elem_of_cons in H2 as [-> | H2]);
      try done; by apply elem_of_nil in H1 || by apply elem_of_nil in H2.
  - destruct Hboth as (w' & Hrun & Hout); [by apply Hnone..|].
    by exists w'.
Defined.

End Heap.
